(** * IG Publisher Manager: the project search engine (src/search.js)

    A shallow embedding of class [IGSearch] and of the parts of the
    JavaScript host it relies on, followed by the properties of the
    search subsystem.

    Conventions of the embedding.
    - A JavaScript string is a Rocq [string]; its characters stand for
      UTF-16 code units below 256.
    - JavaScript numbers that hold counts are [Z]; indices into strings
      are [nat].
    - [null] and an absent property are [None].
    - A computation that may throw returns a [Completion]; the methods of
      the class run in the monad [M], which threads the engine object
      ([this]) and the trace of file-system calls.
    - [console.log] and [console.error] only print: what they write is
      not modelled. The calls that [performSearch] makes in its own
      frame before its [try] need room on the call stack ([callRoom]).
    - An argument whose type the caller is free to choose is a [Value]. *)

From Stdlib Require Import ZArith Ascii String List Bool Lia Permutation Sorted DecimalString.
From stdpp Require Import base option list strings gmap.

Local Open Scope Z_scope.
Local Open Scope char_scope.

(** ** Completions: normal return or thrown error *)

Record Error := mkError { errName : string; message : string }.

Inductive Completion (A : Type) : Type :=
| Normal (a : A)
| Throw (e : Error).
Arguments Normal {A} a.
Arguments Throw {A} e.

Definition cbind {A B} (c : Completion A) (f : A -> Completion B) : Completion B :=
  match c with
  | Normal a => f a
  | Throw e => Throw e
  end.

(** ** JavaScript strings *)

Module JSString.

Definition chars (s : string) : list ascii := list_ascii_of_string s.

Definition code (c : ascii) : N := N_of_ascii c.

(** The 14 characters of the class in
    [searchTerm.replace(/[.*+?^${}()|[\]\\]/g, '\\$&')]. *)
Definition escape_class : list ascii :=
  ["."; "*"; "+"; "?"; "^"; "$"; "{"; "}"; "("; ")"; "|"; "["; "]"; "\"].

Definition mem_ascii (c : ascii) (l : list ascii) : bool :=
  existsb (Ascii.eqb c) l.

(** [s.replace(/[.*+?^${}()|[\]\\]/g, '\\$&')]: every character of the
    class is replaced by a backslash followed by itself. *)
Fixpoint replace_escape (s : string) : string :=
  match s with
  | EmptyString => EmptyString
  | String c rest =>
      if mem_ascii c escape_class
      then String "\" (String c (replace_escape rest))
      else String c (replace_escape rest)
  end.

(** WhiteSpace and LineTerminator code units below 256: TAB, LF, VT, FF,
    CR, SP and NBSP. *)
Definition is_whitespace (c : ascii) : bool :=
  let n := code c in
  ((9 <=? n) && (n <=? 13) || (n =? 32) || (n =? 160))%N.

Fixpoint trim_start (s : string) : string :=
  match s with
  | EmptyString => EmptyString
  | String c rest => if is_whitespace c then trim_start rest else s
  end.

(** Drops the trailing white space: a character is kept when it is not
    white space or when something is kept after it. *)
Fixpoint trim_end (s : string) : string :=
  match s with
  | EmptyString => EmptyString
  | String c rest =>
      match trim_end rest with
      | EmptyString => if is_whitespace c then EmptyString else String c EmptyString
      | kept => String c kept
      end
  end.

(** [s.trim()] *)
Definition trim (s : string) : string := trim_end (trim_start s).

Definition is_empty (s : string) : bool :=
  match s with EmptyString => true | _ => false end.

(** [s.split(sep)] for a separator of one character *)
Fixpoint split (sep : ascii) (s : string) : list string :=
  match s with
  | EmptyString => [EmptyString]
  | String c rest =>
      if Ascii.eqb c sep then EmptyString :: split sep rest
      else match split sep rest with
           | [] => [String c EmptyString]
           | l :: ls => String c l :: ls
           end
  end.

(** [s.split('\n')] *)
Definition split_lines (s : string) : list string := split (ascii_of_nat 10) s.

Definition lower_char (c : ascii) : ascii :=
  let n := code c in
  if ((65 <=? n) && (n <=? 90) || (192 <=? n) && (n <=? 222) && negb (n =? 215))%N
  then ascii_of_N (n + 32) else c.

(** [s.toLowerCase()] *)
Fixpoint toLowerCase (s : string) : string :=
  match s with
  | EmptyString => EmptyString
  | String c rest => String (lower_char c) (toLowerCase rest)
  end.

(** [s.startsWith(p)] *)
Definition startsWith (s p : string) : bool := String.prefix p s.

(** [s.includes(needle)] *)
Fixpoint includes (s needle : string) : bool :=
  String.prefix needle s ||
  match s with
  | EmptyString => false
  | String _ rest => includes rest needle
  end.

(** [s.substring(0, n)] for [0 <= n] *)
Fixpoint substring0 (n : nat) (s : string) : string :=
  match n, s with
  | S k, String c rest => String c (substring0 k rest)
  | _, _ => EmptyString
  end.

(** [list.includes(x)] on an array of strings *)
Definition array_includes (l : list string) (x : string) : bool :=
  existsb (String.eqb x) l.

End JSString.

(** ** Regular expressions

    The fragment of ECMAScript patterns that [createSearchPattern] can
    produce is given a semantics: literal characters, escaped syntax
    characters and the word-boundary assertion.  An unescaped syntax
    character or any other escape is kept as an atom of its own; the
    matcher gives such a pattern no match, and [parse_atoms_source]
    shows that the engine never builds one. *)

Module JSRegExp.
Import JSString.

(** SyntaxCharacter of the ECMAScript pattern grammar. *)
Definition syntax_characters : list ascii :=
  ["^"; "$"; "\"; "."; "*"; "+"; "?"; "("; ")"; "["; "]"; "{"; "}"; "|"].

Definition is_syntax (c : ascii) : bool := mem_ascii c syntax_characters.

Inductive Atom : Type :=
| Lit (c : ascii)          (* a pattern character, or an escaped syntax character *)
| WordBoundary             (* the assertion \b *)
| Operator (c : ascii)     (* an unescaped syntax character *)
| OtherEscape (c : ascii). (* any other escape sequence *)

Definition syntaxError (msg : string) : Error :=
  {| errName := "SyntaxError"; message := msg |}.

Fixpoint parse_atoms (src : string) : Completion (list Atom) :=
  match src with
  | EmptyString => Normal []
  | String c rest =>
      if Ascii.eqb c "\" then
        match rest with
        | EmptyString =>
            Throw (syntaxError "Invalid regular expression: \ at end of pattern")
        | String d rest' =>
            cbind (parse_atoms rest') (fun atoms =>
            Normal ((if is_syntax d then Lit d
                     else if Ascii.eqb d "b" then WordBoundary
                     else OtherEscape d) :: atoms))
        end
      else
        cbind (parse_atoms rest) (fun atoms =>
        Normal ((if is_syntax c then Operator c else Lit c) :: atoms))
  end.

Record RegExp := mkRegExp {
  source : string;
  atoms : list Atom;
  global : bool;
  ignoreCase : bool;
  lastIndex : nat
}.

(** The engine only asks for the flags g and gi. The other flags of
    ECMAScript (d, m, s, u, v, y) are outside the model and are rejected
    like an invalid or a repeated flag. *)
Fixpoint parse_flags (fl : string) (g i : bool) : Completion (bool * bool) :=
  match fl with
  | EmptyString => Normal (g, i)
  | String c rest =>
      if Ascii.eqb c "g" && negb g then parse_flags rest true i
      else if Ascii.eqb c "i" && negb i then parse_flags rest g true
      else Throw (syntaxError "Invalid flags supplied to RegExp constructor")
  end.

(** [new RegExp(source, flags)] *)
Definition new_RegExp (src flags : string) : Completion RegExp :=
  cbind (parse_flags flags false false) (fun gi =>
  cbind (parse_atoms src) (fun ats =>
  Normal {| source := src; atoms := ats; global := fst gi;
            ignoreCase := snd gi; lastIndex := 0 |})).

(** Canonicalize of the pattern semantics without the unicode flag:
    the upper-case form of a code unit. *)
Definition canonicalize (c : ascii) : ascii :=
  let n := code c in
  if ((97 <=? n) && (n <=? 122) || (224 <=? n) && (n <=? 254) && negb (n =? 247))%N
  then ascii_of_N (n - 32) else c.

Definition char_matches (ic : bool) (p x : ascii) : bool :=
  if ic then Ascii.eqb (canonicalize p) (canonicalize x) else Ascii.eqb p x.

(** Word characters: [A-Za-z0-9_]. *)
Definition is_word_char (c : ascii) : bool :=
  let n := code c in
  ((48 <=? n) && (n <=? 57) || (65 <=? n) && (n <=? 90)
   || (97 <=? n) && (n <=? 122) || (n =? 95))%N.

Definition is_word (c : option ascii) : bool :=
  match c with Some x => is_word_char x | None => false end.

(** Matching the atoms at one position: [prev] is the character before
    the position, [rest] the subject from the position on.  The result
    is the length of the match. *)
Fixpoint match_here (ic : bool) (ats : list Atom) (prev : option ascii)
    (rest : list ascii) : option nat :=
  match ats with
  | [] => Some 0%nat
  | Lit c :: ats' =>
      match rest with
      | x :: rest' =>
          if char_matches ic c x
          then S <$> match_here ic ats' (Some x) rest'
          else None
      | [] => None
      end
  | WordBoundary :: ats' =>
      if xorb (is_word prev) (is_word (head rest))
      then match_here ic ats' prev rest
      else None
  | Operator _ :: _ => None
  | OtherEscape _ :: _ => None
  end.

(** The first match at or after the current position: (index, length). *)
Fixpoint search_from (ic : bool) (ats : list Atom) (prev : option ascii)
    (rest : list ascii) (idx : nat) {struct rest} : option (nat * nat) :=
  match match_here ic ats prev rest with
  | Some len => Some (idx, len)
  | None =>
      match rest with
      | [] => None
      | x :: rest' => search_from ic ats (Some x) rest' (S idx)
      end
  end.

(** All matches found by repeated [exec] with the global flag: after a
    match of length [len] the next search starts [len] characters on, and
    one character on after an empty match. [skip] counts the positions
    still covered by the previous match. *)
Fixpoint scan_matches (ic : bool) (ats : list Atom) (prev : option ascii)
    (rest : list ascii) (idx skip : nat) {struct rest} : list (nat * nat) :=
  match skip with
  | S k =>
      match rest with
      | [] => []
      | x :: rest' => scan_matches ic ats (Some x) rest' (S idx) k
      end
  | O =>
      match match_here ic ats prev rest with
      | Some len =>
          (idx, len) ::
          match rest with
          | [] => []
          | x :: rest' => scan_matches ic ats (Some x) rest' (S idx) (Nat.pred len)
          end
      | None =>
          match rest with
          | [] => []
          | x :: rest' => scan_matches ic ats (Some x) rest' (S idx) 0%nat
          end
      end
  end.

(** The character before index [i] of [s], and the subject from [i] on. *)
Definition prev_at (s : list ascii) (i : nat) : option ascii :=
  match i with O => None | S j => s !! j end.

(** [re.test(s)]: with the global flag the search starts at [lastIndex],
    which is moved to the end of the match, or reset to 0 on failure. *)
Definition test (re : RegExp) (s : string) : bool * RegExp :=
  let cs := chars s in
  let start := if global re then lastIndex re else 0%nat in
  let found :=
    if (length cs <? start)%nat then None
    else search_from (ignoreCase re) (atoms re) (prev_at cs start) (drop start cs) start in
  let set_last (i : nat) :=
    {| source := source re; atoms := atoms re; global := global re;
       ignoreCase := ignoreCase re; lastIndex := i |} in
  match found with
  | Some (idx, len) => (true, if global re then set_last (idx + len)%nat else re)
  | None => (false, if global re then set_last 0%nat else re)
  end.

Definition typeError (msg : string) : Error :=
  {| errName := "TypeError"; message := msg |}.

(** [s.matchAll(re)]: a TypeError without the global flag; otherwise the
    matches of a copy of [re] that starts at [re.lastIndex].  [re] itself
    is left as it is. *)
Definition matchAll (s : string) (re : RegExp) : Completion (list (nat * nat)) :=
  if negb (global re)
  then Throw (typeError "String.prototype.matchAll called with a non-global RegExp argument")
  else
    let cs := chars s in
    let start := lastIndex re in
    Normal (if (length cs <? start)%nat then []
            else scan_matches (ignoreCase re) (atoms re) (prev_at cs start)
                   (drop start cs) start 0%nat).

End JSRegExp.

Local Close Scope char_scope.

(** ** JavaScript values

    The values a caller can hand to [performSearch]: primitives and
    plain data objects, as they come out of JSON or of an object
    literal. Functions, getters and proxies are not values of this type,
    and an object inherits nothing but the built-in prototype of its
    kind. The own properties of an object are listed in the order of
    [OwnPropertyKeys], with distinct keys. A number is an integer or
    NaN: the engine only ever asks a number for its truth value, and any
    other number answers as a non-zero integer does. *)

Module JSValue.
Import JSString.

#[warnings="-register-all"] Inductive Value : Type :=
| VUndefined
| VNull
| VBool (b : bool)
| VNumber (n : Z)
| VNaN
| VString (s : string)
| VObject (props : list (string * Value)).

(** [ToBoolean(v)] *)
Definition truthy (v : Value) : bool :=
  match v with
  | VUndefined | VNull | VNaN => false
  | VBool b => b
  | VNumber n => negb (n =? 0)
  | VString s => negb (is_empty s)
  | VObject _ => true
  end.

(** A parameter with a default value: the default stands in for
    [undefined], and for nothing else. *)
Definition param_default (v dflt : Value) : Value :=
  match v with
  | VUndefined => dflt
  | _ => v
  end.

(** The own property [key] of an object; [undefined] when absent. *)
Definition get_own (props : list (string * Value)) (key : string) : Value :=
  match List.find (fun kv => String.eqb (fst kv) key) props with
  | Some kv => snd kv
  | None => VUndefined
  end.

(** One binding [key = dflt] of an object pattern applied to [v], which
    is neither [undefined] nor [null]: the default stands in for a
    property that is [undefined]. A primitive has no such property of
    its own and its prototype has none under the names used here. *)
Definition destructure (v : Value) (key : string) (dflt : Value) : Value :=
  match v with
  | VObject props =>
      match get_own props key with
      | VUndefined => dflt
      | x => x
      end
  | _ => dflt
  end.

(** [Object.entries(v)]: the own enumerable string-keyed properties.
    Those of a string are its code units under their indices. *)
Definition object_entries (v : Value) : Completion (list (string * Value)) :=
  match v with
  | VUndefined | VNull =>
      Throw (JSRegExp.typeError "Cannot convert undefined or null to object")
  | VObject props => Normal props
  | VString s =>
      Normal (imap (fun i c => (NilZero.string_of_uint (Nat.to_uint i),
                                VString (String c EmptyString)))
                   (chars s))
  | VBool _ | VNumber _ | VNaN => Normal []
  end.

End JSValue.

(** ** The host: file system, path module, sorting and call stack

    Everything the engine asks of Node and of the JavaScript engine.
    The file system is one snapshot: it does not change while a method
    runs. [existsSync] never throws; the other file-system calls may.
    The sort of [Array.prototype.sort] is left to the host: ECMAScript
    fixes neither the algorithm nor the order of the comparator calls
    ([sort_permutes] states that the result holds the same elements).
    The comparator is stateful (it runs [RegExp.prototype.test] on a
    global pattern), so the sort threads a state of type [St].
    [stackDepth] is the number of nested activations of
    [findFilesInPath] the call stack has room for; one more throws a
    RangeError. [callRoom] tells whether the stack, when [performSearch]
    is entered, has room for a call made from its own frame
    ([searchTerm.trim()], [console.log]); without it the first such call
    throws a RangeError. *)

Record Stats := mkStats { isFile : bool; isDirectory : bool }.

Record Host := mkHost {
  existsSync : string -> bool;
  statSync : string -> Completion Stats;
  readdirSync : string -> Completion (list string);
  readFileSync : string -> Completion string;        (* encoding 'utf8' *)
  readFileBuffer : string -> Completion (list N);     (* encoding null *)
  path_join : list string -> string;
  path_basename : string -> string;
  path_extname : string -> string;
  path_relative : string -> string -> string;
  array_sort : forall A St : Type, (A -> A -> St -> Z * St) -> list A -> St -> list A * St;
  stackDepth : nat;
  callRoom : bool
}.

(** The result of the host's sort is a rearrangement of its input. *)
Definition sort_permutes (h : Host) : Prop :=
  forall (A St : Type) (cmp : A -> A -> St -> Z * St) (l : list A) (s : St),
    Permutation (fst (array_sort h A St cmp l s)) l.

(** ** Data model *)

Record LineMatch := mkLineMatch {
  lineNumber : Z;
  line : string;
  matchCount : Z
}.

Record FileMatchResult := mkFileMatchResult {
  filePath : string;
  fileName : string;
  relativePath : string;
  category : string;
  matches : list LineMatch;
  fileTotalMatches : Z        (* the property totalMatches of a file record *)
}.

(** A state is kept in the store as a value: the sharing of one state
    object between a caller and the store is not modelled. *)
Record SearchState := mkSearchState {
  searchTerm : string;
  caseSensitive : bool;
  wholeWords : bool;
  categories : list (string * bool);   (* own properties in insertion order *)
  stateResults : list FileMatchResult; (* the property results of a state *)
  lastSearchTime : option Z
}.

(** The object [this]. *)
Record IGSearch := mkIGSearch {
  maxResults : Z;
  searchStates : gmap string SearchState;
  currentIgFolder : option string
}.

(** [new IGSearch()] *)
Definition constructor : IGSearch :=
  {| maxResults := 200; searchStates := ∅; currentIgFolder := None |}.

(** The value returned by [performSearch]; [truncated] is [None] when the
    property is absent, [error] is [None] when it is [null]. *)
Record SearchResult := mkSearchResult {
  results : list FileMatchResult;
  totalMatches : Z;
  error : option string;
  truncated : option bool
}.

(** The [options] argument of [performSearch]; [None] is an absent
    property, which the destructuring replaces by its default. *)
Record Options := mkOptions {
  optCaseSensitive : option bool;
  optWholeWords : option bool;
  optCategories : option (list (string * bool))
}.

(** The object returned by [getCategoryAvailability]. *)
Record Availability := mkAvailability {
  fsh : bool;
  inputResources : bool;
  inputPages : bool;
  translations : bool;
  outputResources : bool;
  outputHtml : bool
}.

Inductive FileFilter : Type :=
| SushiConfigOnly      (* basename(filePath) === 'sushi-config.yaml' *)
| ResourceFile         (* this.isResourceFile(filePath) *)
| TextFile.            (* this.isTextFile(filePath) *)

Record SearchConfig := mkSearchConfig {
  path : string;
  extensions : list string;
  recursive : bool;
  fileFilter : option FileFilter
}.

(** ** The monad of the methods *)

Inductive FsCall : Type :=
| ExistsSync (p : string)
| StatSync (p : string)
| ReaddirSync (p : string)
| ReadFileSync (p : string)
| ReadFileBuffer (p : string).

Record World := mkWorld {
  this : IGSearch;
  fsTrace : list FsCall
}.

Definition M (A : Type) : Type := World -> Completion A * World.

Definition ret {A} (a : A) : M A := fun w => (Normal a, w).

Definition bind {A B} (m : M A) (f : A -> M B) : M B :=
  fun w =>
    match m w with
    | (Normal a, w') => f a w'
    | (Throw e, w') => (Throw e, w')
    end.

Definition throw {A} (e : Error) : M A := fun w => (Throw e, w).

Definition lift {A} (c : Completion A) : M A := fun w => (c, w).

(** [try { m } catch (e) { handler e }] *)
Definition try_catch {A} (m : M A) (handler : Error -> M A) : M A :=
  fun w =>
    match m w with
    | (Normal a, w') => (Normal a, w')
    | (Throw e, w') => handler e w'
    end.

Definition get_this : M IGSearch := fun w => (Normal (this w), w).

Definition set_this (t : IGSearch) : M unit :=
  fun w => (Normal tt, {| this := t; fsTrace := fsTrace w |}).

Definition record_call (c : FsCall) : M unit :=
  fun w => (Normal tt, {| this := this w; fsTrace := fsTrace w ++ [c] |}).

Declare Scope js_scope.
Delimit Scope js_scope with js.
Notation "x <- m ;; k" := (bind m (fun x => k))
  (at level 100, m at next level, right associativity) : js_scope.
Notation "m ;;; k" := (bind m (fun _ => k))
  (at level 100, right associativity) : js_scope.
Local Open Scope js_scope.

Definition rangeError : Error :=
  {| errName := "RangeError"; message := "Maximum call stack size exceeded" |}.

(** ** Class IGSearch *)

Section Engine.
Import JSString JSRegExp JSValue.

Variable h : Host.

Definition fs_existsSync (p : string) : M bool :=
  record_call (ExistsSync p) ;;; ret (existsSync h p).

Definition fs_statSync (p : string) : M Stats :=
  record_call (StatSync p) ;;; lift (statSync h p).

Definition fs_readdirSync (p : string) : M (list string) :=
  record_call (ReaddirSync p) ;;; lift (readdirSync h p).

Definition fs_readFileSync (p : string) : M string :=
  record_call (ReadFileSync p) ;;; lift (readFileSync h p).

Definition fs_readFileBuffer (p : string) : M (list N) :=
  record_call (ReadFileBuffer p) ;;; lift (readFileBuffer h p).

(** *** State store *)

Definition defaultCategories : list (string * bool) :=
  [("fsh", true); ("inputResources", true); ("inputPages", true);
   ("translations", true); ("outputResources", false); ("outputHtml", false)].

Definition defaultState : SearchState :=
  {| searchTerm := ""; caseSensitive := false; wholeWords := false;
     categories := defaultCategories; stateResults := [];
     lastSearchTime := None |}.

Definition set_searchStates (t : IGSearch) (m : gmap string SearchState) : IGSearch :=
  {| maxResults := maxResults t; searchStates := m;
     currentIgFolder := currentIgFolder t |}.

(** [getSearchState(igFolder)]: the stored state, or a default one that
    is stored first. *)
Definition getSearchState (igFolder : string) : M SearchState :=
  t <- get_this ;;
  match searchStates t !! igFolder with
  | Some st => ret st
  | None =>
      set_this (set_searchStates t (<[igFolder := defaultState]> (searchStates t))) ;;;
      ret defaultState
  end.

(** [saveSearchState(igFolder, state)] *)
Definition saveSearchState (igFolder : string) (state : SearchState) : M unit :=
  t <- get_this ;;
  set_this (set_searchStates t (<[igFolder := state]> (searchStates t))).

Definition set_results (st : SearchState) (rs : list FileMatchResult) : SearchState :=
  {| searchTerm := searchTerm st; caseSensitive := caseSensitive st;
     wholeWords := wholeWords st; categories := categories st;
     stateResults := rs; lastSearchTime := lastSearchTime st |}.

(** [clearOutputResults(igFolder)] *)
Definition clearOutputResults (igFolder : string) : M unit :=
  state <- getSearchState igFolder ;;
  let state' :=
    set_results state
      (List.filter (fun result => negb (startsWith (category result) "output"))
                   (stateResults state)) in
  saveSearchState igFolder state'.

(** [setCurrentIgFolder(igFolder)] *)
Definition setCurrentIgFolder (igFolder : string) : M unit :=
  t <- get_this ;;
  set_this {| maxResults := maxResults t; searchStates := searchStates t;
              currentIgFolder := Some igFolder |}.

(** The [try] block of [getCategoryAvailability]: the object
    [availability] is a local that keeps what was assigned when the
    block is left by a throw. *)
Definition availabilityTry (igFolder : string) (availability : Availability) (w : World)
  : Availability * Completion unit * World :=
  let sushiConfigPath := path_join h [igFolder; "sushi-config.yaml"] in
  match fs_existsSync sushiConfigPath w with
  | (Throw e, w1) => (availability, Throw e, w1)
  | (Normal present, w1) =>
      let availability :=
        {| fsh := present;
           inputResources := inputResources availability;
           inputPages := inputPages availability;
           translations := translations availability;
           outputResources := outputResources availability;
           outputHtml := outputHtml availability |} in
      let outputPath := path_join h [igFolder; "output"] in
      match fs_existsSync outputPath w1 with
      | (Throw e, w2) => (availability, Throw e, w2)
      | (Normal false, w2) => (availability, Normal tt, w2)
      | (Normal true, w2) =>
          match fs_statSync outputPath w2 with
          | (Throw e, w3) => (availability, Throw e, w3)
          | (Normal outputStats, w3) =>
              if isDirectory outputStats then
                ({| fsh := fsh availability;
                    inputResources := inputResources availability;
                    inputPages := inputPages availability;
                    translations := translations availability;
                    outputResources := true;
                    outputHtml := true |}, Normal tt, w3)
              else (availability, Normal tt, w3)
          end
      end
  end.

(** [getCategoryAvailability(igFolder)] *)
Definition getCategoryAvailability (igFolder : string) : M Availability :=
  fun w =>
    let availability :=
      {| fsh := false; inputResources := true; inputPages := true;
         translations := true; outputResources := false; outputHtml := false |} in
    let '(availability, _, w') := availabilityTry igFolder availability w in
    (Normal availability, w').

(** *** Pattern construction *)

(** [createSearchPattern(searchTerm, caseSensitive, wholeWords)] *)
Definition createSearchPattern (searchTerm : string) (caseSensitive wholeWords : bool)
  : Completion RegExp :=
  let escapedTerm := replace_escape searchTerm in
  let escapedTerm :=
    if wholeWords then "\b" +:+ escapedTerm +:+ "\b" else escapedTerm in
  let flags := if caseSensitive then "g" else "gi" in
  new_RegExp escapedTerm flags.

(** *** Category resolver *)

Definition resourceExtensions : list string := [".json"; ".xml"; ".map"; ".ttl"].

(** The [switch] of [getCategoryPaths]: the array [paths] before the
    existence filter. A name that is no case of the switch leaves it
    empty. *)
Definition categorySwitch (igFolder categoryName : string) : M (list SearchConfig) :=
  if String.eqb categoryName "fsh" then
    ret [ {| path := igFolder; extensions := [".yaml"]; recursive := false;
             fileFilter := Some SushiConfigOnly |};
          {| path := path_join h [igFolder; "input"]; extensions := [".fsh"];
             recursive := true; fileFilter := None |} ]
  else if String.eqb categoryName "inputResources" then
    let input :=
      {| path := path_join h [igFolder; "input"]; extensions := resourceExtensions;
         recursive := true; fileFilter := Some ResourceFile |} in
    let fshGeneratedPath := path_join h [igFolder; "fsh-generated"] in
    present <- fs_existsSync fshGeneratedPath ;;
    if present then
      ret [ input;
            {| path := fshGeneratedPath; extensions := resourceExtensions;
               recursive := true; fileFilter := Some ResourceFile |} ]
    else ret [ input ]
  else if String.eqb categoryName "inputPages" then
    ret [ {| path := path_join h [igFolder; "input"; "pagecontent"];
             extensions := []; recursive := true; fileFilter := None |} ]
  else if String.eqb categoryName "translations" then
    ret [ {| path := path_join h [igFolder; "input"; "translations"];
             extensions := []; recursive := true; fileFilter := Some TextFile |} ]
  else if String.eqb categoryName "outputResources" then
    ret [ {| path := path_join h [igFolder; "output"]; extensions := [".json"];
             recursive := true; fileFilter := Some ResourceFile |} ]
  else if String.eqb categoryName "outputHtml" then
    ret [ {| path := path_join h [igFolder; "output"]; extensions := [".html"];
             recursive := true; fileFilter := None |} ]
  else ret [].

(** [paths.filter(pathConfig => existsSync(pathConfig.path))] *)
Fixpoint filterExisting (paths : list SearchConfig) : M (list SearchConfig) :=
  match paths with
  | [] => ret []
  | pathConfig :: rest =>
      present <- fs_existsSync (path pathConfig) ;;
      kept <- filterExisting rest ;;
      ret (if present then pathConfig :: kept else kept)
  end.

(** [getCategoryPaths(igFolder, categoryName)] *)
Definition getCategoryPaths (igFolder categoryName : string) : M (list SearchConfig) :=
  paths <- categorySwitch igFolder categoryName ;;
  filterExisting paths.

(** *** File walker *)

Definition skipDirs : list string :=
  ["node_modules"; ".git"; ".svn"; ".hg";
   "temp"; "input-cache"; "txcache";
   "bin"; "obj"; "target"; "build"; "dist";
   ".vs"; ".vscode"; ".idea"].

(** [shouldSkipDirectory(dirName)] *)
Definition shouldSkipDirectory (dirName : string) : bool :=
  array_includes skipDirs (toLowerCase dirName).

(** The [for (const item of items)] loop of [findFilesInPath], run inside
    its [try]: the array [files] is a local that keeps what was pushed
    when the loop is left by a throw. [recurse] is the recursive call. *)
Fixpoint walkItems (recurse : string -> M (list string)) (dirPath : string)
    (extensions : list string) (recursive : bool)
    (items : list string) (files : list string) (w : World)
  : list string * Completion unit * World :=
  match items with
  | [] => (files, Normal tt, w)
  | item :: items' =>
      let fullPath := path_join h [dirPath; item] in
      match fs_statSync fullPath w with
      | (Throw _, w1) => walkItems recurse dirPath extensions recursive items' files w1
      | (Normal stat, w1) =>
          if isFile stat then
            let ext := toLowerCase (path_extname h item) in
            if (length extensions =? 0)%nat || array_includes extensions ext
            then walkItems recurse dirPath extensions recursive items' (files ++ [fullPath]) w1
            else walkItems recurse dirPath extensions recursive items' files w1
          else if isDirectory stat && recursive then
            if negb (shouldSkipDirectory item) then
              match recurse fullPath w1 with
              | (Normal found, w2) =>
                  walkItems recurse dirPath extensions recursive items' (files ++ found) w2
              | (Throw e, w2) => (files, Throw e, w2)
              end
            else walkItems recurse dirPath extensions recursive items' files w1
          else walkItems recurse dirPath extensions recursive items' files w1
      end
  end.

(** [findFilesInPath(dirPath, extensions, recursive)] with room for
    [depth] nested activations on the call stack. Whatever is thrown
    inside the [try] (by [readdirSync], or by a recursive call that finds
    the stack full) is caught, and the files pushed so far are
    returned. *)
Fixpoint findFilesInPath (depth : nat) (dirPath : string) (extensions : list string)
    (recursive : bool) {struct depth} : M (list string) :=
  match depth with
  | O => throw rangeError
  | S depth' =>
      present <- fs_existsSync dirPath ;;
      if negb present then ret []
      else fun w =>
        match fs_readdirSync dirPath w with
        | (Throw _, w1) => (Normal [], w1)
        | (Normal items, w1) =>
            let '(files, _, w2) :=
              walkItems (fun p => findFilesInPath depth' p extensions recursive)
                        dirPath extensions recursive items [] w1 in
            (Normal files, w2)
        end
  end.

(** *** Content filters *)

Definition dquote : string := String (ascii_of_nat 34) EmptyString.

(** [isResourceFile(filePath)] *)
Definition isResourceFile (filePath : string) : M bool :=
  try_catch
    (let ext := toLowerCase (path_extname h filePath) in
     if String.eqb ext ".json" then
       content <- fs_readFileSync filePath ;;
       let sample := substring0 (Nat.min 2000 (String.length content)) content in
       ret (includes sample (dquote +:+ "resourceType" +:+ dquote))
     else if String.eqb ext ".xml" then
       content <- fs_readFileSync filePath ;;
       let sample := substring0 (Nat.min 2000 (String.length content)) content in
       ret (includes sample ("xmlns=" +:+ dquote +:+ "http://hl7.org/fhir" +:+ dquote)
            || includes sample "http://hl7.org/fhir")
     else if String.eqb ext ".map" || String.eqb ext ".ttl" then ret true
     else ret false)
    (fun _ => ret false).

Definition textExtensions : list string :=
  [".txt"; ".md"; ".json"; ".xml"; ".html"; ".css"; ".js"; ".yaml"; ".yml"; ".properties"].

(** [isTextFile(filePath)] *)
Definition isTextFile (filePath : string) : M bool :=
  try_catch
    (let ext := toLowerCase (path_extname h filePath) in
     if array_includes textExtensions ext then ret true
     else
       buffer <- fs_readFileBuffer filePath ;;
       let sample := take (Nat.min 512 (length buffer)) buffer in
       ret (forallb (fun b => negb (b =? 0)%N) sample))
    (fun _ => ret false).

Definition applyFilter (f : FileFilter) (filePath : string) : M bool :=
  match f with
  | SushiConfigOnly => ret (String.eqb (path_basename h filePath) "sushi-config.yaml")
  | ResourceFile => isResourceFile filePath
  | TextFile => isTextFile filePath
  end.

(** *** Matcher *)

(** [getRelativePath(filePath)] *)
Definition getRelativePath (filePath : string) : M string :=
  t <- get_this ;;
  match currentIgFolder t with
  | Some folder =>
      if negb (is_empty folder) && startsWith filePath folder
      then ret (path_relative h folder filePath)
      else ret (path_basename h filePath)
  | None => ret (path_basename h filePath)
  end.

(** The line loop of [searchInFile]; [lineNum] is the 0-based index of
    the first of [lines]. *)
Fixpoint scanLines (pattern : RegExp) (lines : list string) (lineNum : Z)
  : Completion (list LineMatch) :=
  match lines with
  | [] => Normal []
  | ln :: rest =>
      cbind (matchAll ln pattern) (fun lineMatches =>
      cbind (scanLines pattern rest (lineNum + 1)) (fun more =>
      Normal (if (0 <? length lineMatches)%nat
              then {| lineNumber := lineNum + 1; line := trim ln;
                      matchCount := Z.of_nat (length lineMatches) |} :: more
              else more)))
  end.

Definition sumMatchCount (ms : list LineMatch) : Z :=
  fold_left (fun sum m => sum + matchCount m) ms 0.

(** [searchInFile(filePath, pattern, category)]; [None] is [null]. *)
Definition searchInFile (filePath : string) (pattern : RegExp) (category : string)
  : M (option FileMatchResult) :=
  try_catch
    (content <- fs_readFileSync filePath ;;
     let lines := split_lines content in
     found <- lift (scanLines pattern lines 0) ;;
     if (0 <? length found)%nat then
       rel <- getRelativePath filePath ;;
       ret (Some {| filePath := filePath;
                    fileName := path_basename h filePath;
                    relativePath := rel;
                    category := category;
                    matches := found;
                    fileTotalMatches := sumMatchCount found |})
     else ret None)
    (fun _ => ret None).

(** The loop over [files] of [searchCategory]. *)
Fixpoint searchFiles (searchConfig : SearchConfig) (pattern : RegExp)
    (categoryName : string) (maxResults : Z)
    (files : list string) (results : list FileMatchResult)
  : M (list FileMatchResult) :=
  match files with
  | [] => ret results
  | filePath :: rest =>
      if Z.of_nat (length results) >=? maxResults then ret results
      else
        keep <- match fileFilter searchConfig with
                | Some f => applyFilter f filePath
                | None => ret true
                end ;;
        if negb keep
        then searchFiles searchConfig pattern categoryName maxResults rest results
        else
          fileResults <- searchInFile filePath pattern categoryName ;;
          match fileResults with
          | Some r =>
              searchFiles searchConfig pattern categoryName maxResults rest (results ++ [r])
          | None =>
              searchFiles searchConfig pattern categoryName maxResults rest results
          end
  end.

(** The loop over [searchPaths] of [searchCategory]. *)
Fixpoint searchPathsLoop (pattern : RegExp) (categoryName : string) (maxResults : Z)
    (searchPaths : list SearchConfig) (results : list FileMatchResult)
  : M (list FileMatchResult) :=
  match searchPaths with
  | [] => ret results
  | searchConfig :: rest =>
      if Z.of_nat (length results) >=? maxResults then ret results
      else
        present <- fs_existsSync (path searchConfig) ;;
        if negb present
        then searchPathsLoop pattern categoryName maxResults rest results
        else
          files <- findFilesInPath (stackDepth h) (path searchConfig)
                     (extensions searchConfig) (recursive searchConfig) ;;
          results' <- searchFiles searchConfig pattern categoryName maxResults files results ;;
          searchPathsLoop pattern categoryName maxResults rest results'
  end.

(** [searchCategory(igFolder, categoryName, pattern, maxResults)] *)
Definition searchCategory (igFolder categoryName : string) (pattern : RegExp)
    (maxResults : Z) : M (list FileMatchResult) :=
  searchPaths <- getCategoryPaths igFolder categoryName ;;
  searchPathsLoop pattern categoryName maxResults searchPaths [].

(** *** Top-level search *)

(** [results.reduce((sum, result) => sum + result.matches.length, 0)] *)
Definition sumMatchLines (rs : list FileMatchResult) : Z :=
  fold_left (fun sum result => sum + Z.of_nat (length (matches result))) rs 0.

(** The loop over [Object.entries(categories)] of [performSearch]. *)
Fixpoint searchCategories (igFolder : string) (pattern : RegExp)
    (entries : list (string * bool))
    (results : list FileMatchResult) (totalMatches : Z)
  : M (list FileMatchResult * Z) :=
  match entries with
  | [] => ret (results, totalMatches)
  | (categoryName, enabled) :: rest =>
      if negb enabled
      then searchCategories igFolder pattern rest results totalMatches
      else
        t <- get_this ;;
        if totalMatches >=? maxResults t then ret (results, totalMatches)
        else
          categoryResults <- searchCategory igFolder categoryName pattern
                               (maxResults t - totalMatches) ;;
          searchCategories igFolder pattern rest (results ++ categoryResults)
            (totalMatches + sumMatchLines categoryResults)
  end.

(** The comparator of [results.sort]; the pattern carries [lastIndex]
    from one [test] to the next. *)
Definition compareResults (a b : FileMatchResult) (pattern : RegExp) : Z * RegExp :=
  let '(aFileMatch, pattern) := test pattern (path_basename h (filePath a)) in
  let '(bFileMatch, pattern) := test pattern (path_basename h (filePath b)) in
  if aFileMatch && negb bFileMatch then (-1, pattern)
  else if negb aFileMatch && bFileMatch then (1, pattern)
  else (Z.of_nat (length (matches b)) - Z.of_nat (length (matches a)), pattern).

(** [array.slice(0, n)] *)
Definition slice0 {A} (l : list A) (n : Z) : list A :=
  if n <? 0 then take (Z.to_nat (Z.max 0 (Z.of_nat (length l) + n))) l
  else take (Z.to_nat n) l.

(** The body of the [try] block of [performSearch]. *)
Definition performSearch_try (igFolder searchTerm : string)
    (caseSensitive wholeWords : bool) (categories : list (string * bool))
  : M SearchResult :=
  pattern <- lift (createSearchPattern searchTerm caseSensitive wholeWords) ;;
  scanned <- searchCategories igFolder pattern categories [] 0 ;;
  let '(results, totalMatches) := scanned in
  let sorted := fst (array_sort h _ _ compareResults results pattern) in
  t <- get_this ;;
  ret {| results := slice0 sorted (maxResults t);
         totalMatches := totalMatches;
         error := None;
         truncated := Some (totalMatches >? maxResults t) |}.

(** The [catch] block of [performSearch]. *)
Definition performSearch_catch (e : Error) : M SearchResult :=
  ret {| results := []; totalMatches := 0; error := Some (message e);
         truncated := None |}.

(** [performSearch(igFolder, searchTerm, options = {})] for a caller that
    keeps to the data model: the term is a string, the options are an
    object whose flags are booleans and whose [categories] map names to
    booleans, and the stack has room for the calls of the entry. What
    the method does for any arguments is [performSearch_call]. *)
Definition performSearch (igFolder searchTerm : string) (options : Options)
  : M SearchResult :=
  let caseSensitive := default false (optCaseSensitive options) in
  let wholeWords := default false (optWholeWords options) in
  let categories := default [] (optCategories options) in
  if is_empty searchTerm || is_empty (trim searchTerm) then
    ret {| results := []; totalMatches := 0; error := None; truncated := None |}
  else
    try_catch
      (performSearch_try igFolder searchTerm caseSensitive wholeWords categories)
      performSearch_catch.

(** A call that [performSearch] makes from its own frame. *)
Definition builtin_call : M unit :=
  if callRoom h then ret tt else throw rangeError.

(** The body of the [try] block of [performSearch] for options of any
    type: the flags are tested for their truth value, and the loop runs
    over [Object.entries(categories)]. *)
Definition performSearch_call_try (igFolder searchTerm : string)
    (caseSensitive wholeWords categories : Value) : M SearchResult :=
  pattern <- lift (createSearchPattern searchTerm (truthy caseSensitive)
                     (truthy wholeWords)) ;;
  entries <- lift (object_entries categories) ;;
  scanned <- searchCategories igFolder pattern
               (map (fun kv => (fst kv, truthy (snd kv))) entries) [] 0 ;;
  let '(results, totalMatches) := scanned in
  let sorted := fst (array_sort h _ _ compareResults results pattern) in
  t <- get_this ;;
  ret {| results := slice0 sorted (maxResults t);
         totalMatches := totalMatches;
         error := None;
         truncated := Some (totalMatches >? maxResults t) |}.

(** [performSearch(igFolder, searchTerm, options = {})] as a caller
    reaches it, with arguments of any type. A thrown error is the
    rejection of the promise that the [async] method returns. The
    parameter default replaces an [undefined] [options]; the object
    pattern of line 79 throws on [null]; [!searchTerm] short-circuits a
    term without truth; [searchTerm.trim()] throws when the term is not
    a string, and needs room on the stack, as [console.log] does. All
    of this runs before the [try]. *)
Definition performSearch_call (igFolder : string) (searchTerm options : Value)
  : M SearchResult :=
  let options := param_default options (VObject []) in
  match options with
  | VNull =>
      throw (typeError
               "Cannot destructure property 'caseSensitive' of 'options' as it is null.")
  | _ =>
      let caseSensitive := destructure options "caseSensitive" (VBool false) in
      let wholeWords := destructure options "wholeWords" (VBool false) in
      let categories := destructure options "categories" (VObject []) in
      let empty := {| results := []; totalMatches := 0; error := None;
                      truncated := None |} in
      match searchTerm with
      | VString s =>
          if is_empty s then ret empty
          else
            builtin_call ;;;
            if is_empty (trim s) then ret empty
            else
              builtin_call ;;;
              try_catch
                (performSearch_call_try igFolder s caseSensitive wholeWords categories)
                performSearch_catch
      | other =>
          if truthy other
          then throw (typeError "searchTerm.trim is not a function")
          else ret empty
      end
  end.

End Engine.

(** ** A concrete host

    Used to run the engine on explicit inputs: a file system given by
    two tables, the POSIX flavour of the path module on paths without a
    trailing separator, and the sort of V8 (the engine of Electron). *)

Module Posix.
Import JSString.

Definition sep : ascii := "/"%char.

Fixpoint unsplit (segs : list string) : string :=
  match segs with
  | [] => EmptyString
  | [x] => x
  | x :: rest => x +:+ "/" +:+ unsplit rest
  end.

(** Segments of a path with [""], ["."] and [".."] resolved. *)
Definition resolve (absolute : bool) (segs : list string) : list string :=
  fold_left
    (fun acc seg =>
       if String.eqb seg "" || String.eqb seg "." then acc
       else if String.eqb seg ".." then
         match rev acc with
         | [] => if absolute then acc else [".."]
         | lst :: before =>
             if String.eqb lst ".." then acc ++ [".."] else rev before
         end
       else acc ++ [seg])
    segs [].

(** [path.join(...parts)] *)
Definition join (parts : list string) : string :=
  let joined := unsplit (List.filter (fun p => negb (is_empty p)) parts) in
  let absolute := startsWith joined "/" in
  let segs := resolve absolute (split sep joined) in
  match segs, absolute with
  | [], false => "."
  | _, false => unsplit segs
  | _, true => "/" +:+ unsplit segs
  end.

(** [path.basename(p)] *)
Definition basename (p : string) : string :=
  match rev (List.filter (fun seg => negb (is_empty seg)) (split sep p)) with
  | [] => EmptyString
  | lst :: _ => lst
  end.

(** The suffix of [s] that starts at its last dot, if it has one after
    its first character. *)
Fixpoint last_dot_suffix (s : string) : option string :=
  match s with
  | EmptyString => None
  | String c rest =>
      match last_dot_suffix rest with
      | Some suffix => Some suffix
      | None => if Ascii.eqb c "."%char then Some s else None
      end
  end.

(** [path.extname(p)] *)
Definition extname (p : string) : string :=
  match basename p with
  | EmptyString => EmptyString
  | String c rest =>
      if String.eqb (String c rest) ".." then EmptyString
      else default EmptyString (last_dot_suffix rest)
  end.

(** The segments of two paths after their common prefix. *)
Fixpoint strip_common (from to : list string) : list string * list string :=
  match from, to with
  | x :: from', y :: to' =>
      if String.eqb x y then strip_common from' to' else (from, to)
  | _, _ => (from, to)
  end.

(** [path.relative(from, to)] for absolute paths: one [..] for each
    segment of [from] that [to] does not share, then the rest of [to]. *)
Definition relative (from to : string) : string :=
  let '(up, down) := strip_common (resolve true (split sep from))
                                  (resolve true (split sep to)) in
  unsplit (map (fun _ => "..") up ++ down).

End Posix.

(** The sort of V8 for arrays of fewer than 64 elements: the initial run
    is detected with the later element as first argument of the
    comparator, reversed when it descends, and the remaining elements are
    put in place by binary insertion. Longer arrays are cut into several
    runs that V8 merges; here they are sorted by the same insertion,
    which is what V8 does as well when the whole array is a single run
    that does not descend (it is then left as it is). *)
Section V8Sort.
Context {A St : Type} (cmp : A -> A -> St -> Z * St).

(** The number of elements after the first two that extend the run. *)
Fixpoint extendRun (isDescending : bool) (previousElement : A) (rest : list A) (s : St)
  : nat * St :=
  match rest with
  | [] => (O, s)
  | currentElement :: rest' =>
      let '(order, s1) := cmp currentElement previousElement s in
      if (if isDescending then order >=? 0 else order <? 0) then (O, s1)
      else let '(n, s2) := extendRun isDescending currentElement rest' s1 in
           (S n, s2)
  end.

Definition countAndMakeRun (arr : list A) (s : St) : list A * nat * St :=
  match arr with
  | elementHigh :: elementLow :: rest =>
      let '(order, s1) := cmp elementLow elementHigh s in
      let isDescending := order <? 0 in
      let '(n, s2) := extendRun isDescending elementLow rest s1 in
      let runLength := (2 + n)%nat in
      (if isDescending then rev (take runLength arr) ++ drop runLength arr else arr,
       runLength, s2)
  | _ => (arr, length arr, s)
  end.

(** The place of [pivot] in the sorted prefix [arr[left..right)]. *)
Fixpoint insertionPoint (fuel : nat) (pivot : A) (arr : list A) (lft rgt : nat) (s : St)
  : nat * St :=
  match fuel with
  | O => (lft, s)
  | S fuel' =>
      if (lft <? rgt)%nat then
        let mid := (lft + (rgt - lft) / 2)%nat in
        match arr !! mid with
        | Some x =>
            let '(order, s1) := cmp pivot x s in
            if order <? 0 then insertionPoint fuel' pivot arr lft mid s1
            else insertionPoint fuel' pivot arr (mid + 1)%nat rgt s1
        | None => (lft, s)
        end
      else (lft, s)
  end.

Fixpoint binaryInsertionSort (todo start : nat) (arr : list A) (s : St) : list A * St :=
  match todo with
  | O => (arr, s)
  | S todo' =>
      match arr !! start with
      | None => (arr, s)
      | Some pivot =>
          let '(lft, s1) := insertionPoint (S start) pivot arr O start s in
          let lft := Nat.min lft start in
          let arr' := take lft arr ++ pivot :: take (start - lft) (drop lft arr)
                        ++ drop (S start) arr in
          binaryInsertionSort todo' (S start) arr' s1
      end
  end.

Definition v8_sort (arr : list A) (s : St) : list A * St :=
  if (length arr <? 2)%nat then (arr, s)
  else
    let '(arr1, runLength, s1) := countAndMakeRun arr s in
    binaryInsertionSort (length arr - runLength) runLength arr1 s1.

End V8Sort.

Module Fixtures.
Import JSString.

Definition assoc {V} (table : list (string * V)) (key : string) : option V :=
  snd <$> List.find (fun kv => String.eqb (fst kv) key) table.

Definition enoent (p : string) : Error :=
  {| errName := "Error"; message := "ENOENT: no such file or directory, " +:+ p |}.

(** The host of a file system with the directories [dirs] (path and
    entry names) and the regular files [files] (path and content). *)
Definition host (dirs : list (string * list string)) (files : list (string * string))
    (depth : nat) : Host :=
  {| existsSync := fun p => bool_decide (is_Some (assoc dirs p)) || bool_decide (is_Some (assoc files p));
     statSync := fun p =>
       if bool_decide (is_Some (assoc dirs p))
       then Normal {| isFile := false; isDirectory := true |}
       else if bool_decide (is_Some (assoc files p))
       then Normal {| isFile := true; isDirectory := false |}
       else Throw (enoent p);
     readdirSync := fun p =>
       match assoc dirs p with Some items => Normal items | None => Throw (enoent p) end;
     readFileSync := fun p =>
       match assoc files p with Some content => Normal content | None => Throw (enoent p) end;
     readFileBuffer := fun p =>
       match assoc files p with
       | Some content => Normal (map code (chars content))
       | None => Throw (enoent p)
       end;
     path_join := Posix.join;
     path_basename := Posix.basename;
     path_extname := Posix.extname;
     path_relative := Posix.relative;
     array_sort := fun A St cmp arr s => v8_sort cmp arr s;
     stackDepth := depth;
     callRoom := true |}.

Definition world0 : World := {| this := constructor; fsTrace := [] |}.

Definition searchOptions (cats : list (string * bool)) : Options :=
  {| optCaseSensitive := None; optWholeWords := None; optCategories := Some cats |}.

Definition nl : string := String (ascii_of_nat 10) EmptyString.

Fixpoint repeat_string (n : nat) (s : string) : string :=
  match n with
  | O => EmptyString
  | S k => s +:+ repeat_string k s
  end.

(** A project with one directory of pages. *)
Definition pageDirs (names : list string) : list (string * list string) :=
  [("/ig", ["input"]); ("/ig/input", ["pagecontent"]);
   ("/ig/input/pagecontent", names)].

Definition pagesOnly : Options := searchOptions [("inputPages", true)].

(** One page with 201 lines that each hold the term [x] once. *)
Definition longPageHost : Host :=
  host (pageDirs ["long.md"])
       [("/ig/input/pagecontent/long.md", repeat_string 201 ("x" +:+ nl))] 8.

(** One page whose only line holds the term [foo] twice. *)
Definition twiceHost : Host :=
  host (pageDirs ["notes.md"]) [("/ig/input/pagecontent/notes.md", "foo foo")] 8.

(** Two pages whose names both hold the term [patient]: the first one
    listed has two matching lines, the second has one. *)
Definition patientFiles : list (string * string) :=
  [("/ig/input/pagecontent/patient-a.md", "Patient name" +:+ nl +:+ "Patient age");
   ("/ig/input/pagecontent/patient-b.md", "Patient" +:+ nl +:+ "nothing here")].

Definition patientHost (depth : nat) : Host :=
  host (pageDirs ["patient-a.md"; "patient-b.md"]) patientFiles depth.

(** A project without any directory. *)
Definition emptyHost : Host := host [] [] 8.

(** The names [p0.md], [p1.md], ... of [n] pages. *)
Definition pageNames (n : nat) : list string :=
  map (fun i => "p" +:+ NilZero.string_of_uint (Nat.to_uint i) +:+ ".md") (seq 0 n).

(** 201 pages of one line, which holds the term [x] once. No page name
    holds the term, so the comparator of [performSearch] answers 0 for
    every pair of these pages: the list is a single run and the sort
    leaves it as it is. *)
Definition manyPagesHost : Host :=
  host (pageDirs (pageNames 201))
       (map (fun name => ("/ig/input/pagecontent/" +:+ name, "x")) (pageNames 201)) 8.

(** A page directory with a repository directory and a subdirectory:
    all three files hold the term. *)
Definition prunedHost : Host :=
  host [("/ig", ["input"]); ("/ig/input", ["pagecontent"]);
        ("/ig/input/pagecontent", [".git"; "ok.md"; "sub"]);
        ("/ig/input/pagecontent/.git", ["x.md"]);
        ("/ig/input/pagecontent/sub", ["deep.md"])]
       [("/ig/input/pagecontent/.git/x.md", "patient");
        ("/ig/input/pagecontent/ok.md", "patient");
        ("/ig/input/pagecontent/sub/deep.md", "patient")] 8.

(** A project that has been built: one page, and an output directory
    with a page and a resource. *)
Definition builtHost : Host :=
  host [("/ig", ["input"; "output"]); ("/ig/input", ["pagecontent"]);
        ("/ig/input/pagecontent", ["patient.md"]);
        ("/ig/output", ["index.html"; "Patient-a.json"])]
       [("/ig/input/pagecontent/patient.md", "The Patient page");
        ("/ig/output/index.html", "<h1>Patient</h1>");
        ("/ig/output/Patient-a.json",
         "{" +:+ dquote +:+ "resourceType" +:+ dquote +:+ ": "
             +:+ dquote +:+ "Patient" +:+ dquote +:+ "}")] 8.

Definition builtOptions : Options :=
  searchOptions [("inputPages", true); ("outputResources", true); ("outputHtml", true)].

(** The same host with a call stack that has no room left when
    [performSearch] is entered. *)
Definition withoutRoom (h : Host) : Host :=
  {| existsSync := existsSync h; statSync := statSync h; readdirSync := readdirSync h;
     readFileSync := readFileSync h; readFileBuffer := readFileBuffer h;
     path_join := path_join h; path_basename := path_basename h;
     path_extname := path_extname h; path_relative := path_relative h;
     array_sort := array_sort h; stackDepth := stackDepth h; callRoom := false |}.

Definition sampleFile (name cat : string) : FileMatchResult :=
  {| filePath := "/ig/" +:+ name; fileName := name; relativePath := name;
     category := cat;
     matches := [{| lineNumber := 1; line := "hit"; matchCount := 1 |}];
     fileTotalMatches := 1 |}.

(** An engine that holds a state for ["/ig"] with results of four
    categories. *)
Definition storedWorld : World :=
  {| this :=
       {| maxResults := 200;
          searchStates :=
            {[ "/ig" :=
                 {| searchTerm := "hit"; caseSensitive := true; wholeWords := false;
                    categories := [("inputPages", true); ("outputHtml", true)];
                    stateResults :=
                      [sampleFile "a.md" "inputPages"; sampleFile "b.html" "outputHtml";
                       sampleFile "c.fsh" "fsh"; sampleFile "d.json" "outputResources"];
                    lastSearchTime := Some 1700000000000 |} ]};
          currentIgFolder := None |};
     fsTrace := [] |}.

End Fixtures.

(** ** Literal occurrences, stated without patterns *)

Module Literal.
Import JSString JSRegExp.

(** [term] is a prefix of [rest], character by character (up to case
    when [ic] is set). *)
Fixpoint prefix_of (ic : bool) (term rest : list ascii) : bool :=
  match term, rest with
  | [], _ => true
  | c :: term', x :: rest' => char_matches ic c x && prefix_of ic term' rest'
  | _ :: _, [] => false
  end.

(** The character before the position [n] characters into [rest], where
    [prev] is the character before [rest]. *)
Definition char_before (prev : option ascii) (rest : list ascii) (n : nat) : option ascii :=
  match n with O => prev | S k => rest !! k end.

(** A word boundary lies between [before] and [after]. *)
Definition boundary (before after : option ascii) : bool :=
  xorb (is_word before) (is_word after).

(** [term] occurs at the head of [rest]; with [ww], the occurrence starts
    and ends at a word boundary. *)
Definition occurs_here (ic ww : bool) (term : list ascii) (prev : option ascii)
    (rest : list ascii) : bool :=
  prefix_of ic term rest &&
  (negb ww ||
   boundary prev (head rest) &&
   boundary (char_before prev rest (length term)) (head (drop (length term) rest))).

Definition boundary_atoms (ww : bool) : list Atom :=
  if ww then [WordBoundary] else [].

End Literal.

(** ** Vocabulary of the properties *)

(** [searchTerm] is empty or consists of white space only. *)
Definition blank (searchTerm : string) : Prop :=
  Forall (fun c => JSString.is_whitespace c = true) (JSString.chars searchTerm).

(** The test at the head of [performSearch]:
    [!searchTerm || !searchTerm.trim()]. *)
Definition is_blank (searchTerm : string) : bool :=
  JSString.is_empty searchTerm || JSString.is_empty (JSString.trim searchTerm).

(** What [performSearch] returns for a blank term. *)
Definition emptyResult : SearchResult :=
  {| results := []; totalMatches := 0; error := None; truncated := None |}.

(** What [performSearch] returns from its [catch] block. *)
Definition errorResult (e : Error) : SearchResult :=
  {| results := []; totalMatches := 0; error := Some (message e); truncated := None |}.

(** A file record as [searchInFile] builds it: at least one line, every
    line with at least one match, and the total of the match counts. *)
Definition wellFormed (r : FileMatchResult) : Prop :=
  matches r <> [] /\
  Forall (fun m => 1 <= matchCount m) (matches r) /\
  fileTotalMatches r = sumMatchCount (matches r).

(** The sum of [matchCount] over all lines of all files of a list. *)
Definition sumMatchCounts (rs : list FileMatchResult) : Z :=
  fold_left (fun sum r => sum + sumMatchCount (matches r)) rs 0.

(** The record of a search that ran to its end on engine object [t]:
    [collected] is the list of files found by the scan, before it is
    sorted and cut. *)
Definition searchOutcome (h : Host) (t : IGSearch) (r : SearchResult) : Prop :=
  error r = None /\
  truncated r = Some (totalMatches r >? maxResults t) /\
  exists collected pattern,
    Forall wellFormed collected /\
    totalMatches r = sumMatchLines collected /\
    results r = slice0 (fst (array_sort h _ _ (compareResults h) collected pattern))
                       (maxResults t).

(** The six categories of the data model. *)
Definition categoryNames : list string :=
  ["fsh"; "inputResources"; "inputPages"; "translations"; "outputResources"; "outputHtml"].

Definition isCategory (c : string) : bool := JSString.array_includes categoryNames c.

(** The output group of categories. *)
Definition isOutputCategory (c : string) : bool :=
  String.eqb c "outputResources" || String.eqb c "outputHtml".

(** The options object of a caller that keeps to the data model. *)
Definition optionsValue (o : Options) : JSValue.Value :=
  JSValue.VObject
    (match optCaseSensitive o with
     | Some b => [("caseSensitive", JSValue.VBool b)]
     | None => []
     end ++
     match optWholeWords o with
     | Some b => [("wholeWords", JSValue.VBool b)]
     | None => []
     end ++
     match optCategories o with
     | Some cats =>
         [("categories",
           JSValue.VObject (map (fun kv => (fst kv, JSValue.VBool (snd kv))) cats))]
     | None => []
     end).

(** The state of a project as [getSearchState] gives it. *)
Definition storedState (t : IGSearch) (igFolder : string) : SearchState :=
  default defaultState (searchStates t !! igFolder).

(** The table of section 4.2 of the specification, row by row:
    category, location, extensions, recursive, filter. *)
Definition table_4_2 (h : Host) (igFolder : string) : list (string * SearchConfig) :=
  [ ("fsh", {| path := igFolder; extensions := [".yaml"]; recursive := false;
               fileFilter := Some SushiConfigOnly |});
    ("fsh", {| path := path_join h [igFolder; "input"]; extensions := [".fsh"];
               recursive := true; fileFilter := None |});
    ("inputResources",
     {| path := path_join h [igFolder; "input"];
        extensions := [".json"; ".xml"; ".map"; ".ttl"];
        recursive := true; fileFilter := Some ResourceFile |});
    ("inputResources",
     {| path := path_join h [igFolder; "fsh-generated"];
        extensions := [".json"; ".xml"; ".map"; ".ttl"];
        recursive := true; fileFilter := Some ResourceFile |});
    ("inputPages",
     {| path := path_join h [igFolder; "input"; "pagecontent"]; extensions := [];
        recursive := true; fileFilter := None |});
    ("translations",
     {| path := path_join h [igFolder; "input"; "translations"]; extensions := [];
        recursive := true; fileFilter := Some TextFile |});
    ("outputResources",
     {| path := path_join h [igFolder; "output"]; extensions := [".json"];
        recursive := true; fileFilter := Some ResourceFile |});
    ("outputHtml",
     {| path := path_join h [igFolder; "output"]; extensions := [".html"];
        recursive := true; fileFilter := None |}) ].

(** The locations of the table for one category, in table order. *)
Definition tableLocations (h : Host) (igFolder categoryName : string) : list SearchConfig :=
  map snd (List.filter (fun row => String.eqb categoryName (fst row)) (table_4_2 h igFolder)).

(** [hoare t m Q]: started with engine object [t], the computation [m]
    leaves the engine object as it is, and a value it returns satisfies
    [Q]. *)
Definition hoare {A} (t : IGSearch) (m : M A) (Q : A -> Prop) : Prop :=
  forall w, this w = t ->
    match m w with
    | (Normal a, w') => Q a /\ this w' = t
    | (Throw _, w') => this w' = t
    end.

(** [safe m]: the computation [m] never throws. *)
Definition safe {A} (m : M A) : Prop :=
  forall w, exists a w', m w = (Normal a, w').

(** An entry name passes the extension test of [findFilesInPath]. *)
Definition extensionAllowed (h : Host) (exts : list string) (item : string) : bool :=
  (length exts =? 0)%nat
  || JSString.array_includes exts (JSString.toLowerCase (path_extname h item)).

(** The walk lists directory [d]: it exists and [readdirSync] gives
    its entry names [items]. *)
Definition walked (h : Host) (d : string) (items : list string) : Prop :=
  existsSync h d = true /\ readdirSync h d = Normal items.

(** [d] is [root], or the walk reaches it from [root]: going down is
    allowed with the recursive flag only, each step enters an entry
    [item] of the listing of a directory that the walk lists, which
    [statSync] reports as a directory and not as a file, and whose name
    [shouldSkipDirectory] does not prune. *)
Inductive descends (h : Host) (rec : bool) (root : string) : string -> Prop :=
| descends_root : descends h rec root root
| descends_child (d item : string) (items : list string) (st : Stats) :
    descends h rec root d ->
    rec = true ->
    walked h d items ->
    In item items ->
    statSync h (path_join h [d; item]) = Normal st ->
    isFile st = false ->
    isDirectory st = true ->
    shouldSkipDirectory item = false ->
    descends h rec root (path_join h [d; item]).

(** [f] is an entry of the listing of a directory that the walk reaches
    from [root] and lists, a regular file according to [statSync], with
    an allowed extension. *)
Definition listedFile (h : Host) (exts : list string) (rec : bool) (root f : string)
  : Prop :=
  exists d items item st,
    descends h rec root d /\
    walked h d items /\
    In item items /\
    f = path_join h [d; item] /\
    statSync h f = Normal st /\ isFile st = true /\
    extensionAllowed h exts item = true.

(** The record of a search that ran to its end, with what the scan
    guarantees about the files it collected: they come from enabled
    categories of the data model only, and they are no more than the
    budget. *)
Definition scanOutcome (h : Host) (t : IGSearch) (cats : list (string * bool))
    (r : SearchResult) : Prop :=
  error r = None /\
  truncated r = Some (totalMatches r >? maxResults t) /\
  exists collected pattern,
    Forall wellFormed collected /\
    Forall (fun f => In (category f, true) cats /\ isCategory (category f) = true)
           collected /\
    (0 <= maxResults t -> Z.of_nat (length collected) <= maxResults t) /\
    totalMatches r = sumMatchLines collected /\
    results r = slice0 (fst (array_sort h _ _ (compareResults h) collected pattern))
                       (maxResults t).

(** The line [ln] holds at least one match of [pattern]. *)
Definition hasMatch (pattern : JSRegExp.RegExp) (ln : string) : bool :=
  match JSRegExp.matchAll ln pattern with
  | Normal (_ :: _) => true
  | _ => false
  end.

(** [m] is the record of a line of [lines] that holds a match: its
    1-based number, its trimmed text and the number of its matches. *)
Definition recordsLine (pattern : JSRegExp.RegExp) (lines : list string) (m : LineMatch)
  : Prop :=
  exists ln ms,
    1 <= lineNumber m /\
    lines !! Z.to_nat (lineNumber m - 1) = Some ln /\
    line m = JSString.trim ln /\
    JSRegExp.matchAll ln pattern = Normal ms /\
    ms <> [] /\
    matchCount m = Z.of_nat (length ms).

(** [term] occurs at the head of [rest] or further on ([prev] is the
    character before [rest]); see [Literal.occurs_here]. *)
Fixpoint occursFrom (ic ww : bool) (term : list ascii) (prev : option ascii)
    (rest : list ascii) : bool :=
  Literal.occurs_here ic ww term prev rest
  || match rest with
     | [] => false
     | x :: rest' => occursFrom ic ww term (Some x) rest'
     end.

(** [term] occurs somewhere in [s]. *)
Definition occursIn (ic ww : bool) (term s : string) : bool :=
  occursFrom ic ww (JSString.chars term) None (JSString.chars s).

(** The display path that [getRelativePath] computes for [file] on
    engine object [t]. *)
Definition displayPath (h : Host) (t : IGSearch) (file : string) : string :=
  match currentIgFolder t with
  | Some folder =>
      if negb (JSString.is_empty folder) && JSString.startsWith file folder
      then path_relative h folder file
      else path_basename h file
  | None => path_basename h file
  end.

(** [r] is the record of the file at its path, read at search time:
    one entry per line that holds a match of [pattern], in line order. *)
Definition fileRecord (h : Host) (t : IGSearch) (pattern : JSRegExp.RegExp)
    (r : FileMatchResult) : Prop :=
  fileName r = path_basename h (filePath r) /\
  relativePath r = displayPath h t (filePath r) /\
  fileTotalMatches r = sumMatchCount (matches r) /\
  exists content,
    readFileSync h (filePath r) = Normal content /\
    length (matches r)
      = length (List.filter (hasMatch pattern) (JSString.split_lines content)) /\
    StronglySorted Z.lt (map lineNumber (matches r)) /\
    Forall (recordsLine pattern (JSString.split_lines content)) (matches r).

(** The verdict of [isResourceFile] on [file]. *)
Definition resourceVerdict (h : Host) (file : string) : bool :=
  let ext := JSString.toLowerCase (path_extname h file) in
  if String.eqb ext ".json" then
    match readFileSync h file with
    | Normal content =>
        JSString.includes (JSString.substring0 2000 content)
                          (dquote +:+ "resourceType" +:+ dquote)
    | Throw _ => false
    end
  else if String.eqb ext ".xml" then
    match readFileSync h file with
    | Normal content =>
        JSString.includes (JSString.substring0 2000 content) "http://hl7.org/fhir"
    | Throw _ => false
    end
  else String.eqb ext ".map" || String.eqb ext ".ttl".

(** The verdict of [isTextFile] on [file]. *)
Definition textVerdict (h : Host) (file : string) : bool :=
  if JSString.array_includes textExtensions
       (JSString.toLowerCase (path_extname h file))
  then true
  else match readFileBuffer h file with
       | Normal buffer => forallb (fun x => negb (x =? 0)%N) (take 512 buffer)
       | Throw _ => false
       end.

(** The file passes the content filter of the location, if it has one. *)
Definition accepts (h : Host) (loc : SearchConfig) (file : string) : bool :=
  match fileFilter loc with
  | None => true
  | Some SushiConfigOnly => String.eqb (path_basename h file) "sushi-config.yaml"
  | Some ResourceFile => resourceVerdict h file
  | Some TextFile => textVerdict h file
  end.

(** The file of [r] lies in the scope of its category: a location that
    the table of section 4.2 gives for the category exists, the walk
    from it (recursive or not, as the table says) lists the file, with
    an allowed extension, and the filter of the location accepts it. *)
Definition inScope (h : Host) (igFolder : string) (r : FileMatchResult) : Prop :=
  exists loc,
    In loc (tableLocations h igFolder (category r)) /\
    existsSync h (path loc) = true /\
    listedFile h (extensions loc) (recursive loc) (path loc) (filePath r) /\
    accepts h loc (filePath r) = true.

(** The files that a search of the category [cat] reads when no budget
    stops it: for each location of the table that exists, the files
    that the walk lists and that the filter of the location accepts. *)
Definition filesInScope (h : Host) (igFolder cat : string) : list string :=
  flat_map
    (fun loc =>
       match fst (findFilesInPath h (stackDepth h) (path loc) (extensions loc)
                    (recursive loc) {| this := constructor; fsTrace := [] |}) with
       | Normal files => List.filter (accepts h loc) files
       | Throw _ => []
       end)
    (List.filter (fun loc => existsSync h (path loc)) (tableLocations h igFolder cat)).

(** The number of lines of [file] that hold a match of [pattern]. *)
Definition matchingLines (h : Host) (pattern : JSRegExp.RegExp) (file : string) : Z :=
  match readFileSync h file with
  | Normal content =>
      Z.of_nat (length (List.filter (hasMatch pattern) (JSString.split_lines content)))
  | Throw _ => 0
  end.

(** The true total of a search: the number of matching lines of all the
    files in the scope of the enabled categories, whatever the budget. *)
Definition trueTotal (h : Host) (igFolder : string) (pattern : JSRegExp.RegExp)
    (cats : list (string * bool)) : Z :=
  fold_left Z.add
    (map (matchingLines h pattern)
         (flat_map (fun entry : string * bool => if snd entry then filesInScope h igFolder (fst entry) else [])
                   cats))
    0.

(** * Properties *)

Module PatternFacts.
Import JSString JSRegExp Literal.

Lemma escape_class_is_syntax (c : ascii) :
  mem_ascii c escape_class = is_syntax c.
Proof. destruct c as [[] [] [] [] [] [] [] []]; reflexivity. Qed.

Lemma not_syntax_not_backslash (c : ascii) :
  is_syntax c = false -> Ascii.eqb c "\"%char = false.
Proof. destruct c as [[] [] [] [] [] [] [] []]; vm_compute; congruence. Qed.

Lemma chars_cons (c : ascii) (s : string) : chars (String c s) = c :: chars s.
Proof. reflexivity. Qed.

Lemma append_nil_l (s : string) : "" +:+ s = s.
Proof. reflexivity. Qed.

Lemma append_cons_l (c : ascii) (s t : string) : String c s +:+ t = String c (s +:+ t).
Proof. reflexivity. Qed.

(** The escaped term reads back as the characters of the term, each one
    a literal atom, whatever follows it in the source. *)
Lemma parse_atoms_escape (term suffix : string) :
  parse_atoms (replace_escape term +:+ suffix) =
  cbind (parse_atoms suffix) (fun ats => Normal (map Lit (chars term) ++ ats)).
Proof.
  induction term as [|c term IH].
  - cbn [replace_escape]. rewrite append_nil_l.
    destruct (parse_atoms suffix); reflexivity.
  - cbn [replace_escape]. rewrite escape_class_is_syntax.
    destruct (is_syntax c) eqn:Hc.
    + rewrite !append_cons_l. cbn [parse_atoms]. rewrite Ascii.eqb_refl, IH, Hc.
      destruct (parse_atoms suffix); reflexivity.
    + rewrite append_cons_l. cbn [parse_atoms].
      rewrite (not_syntax_not_backslash c Hc), IH, Hc.
      destruct (parse_atoms suffix); reflexivity.
Qed.

Lemma append_empty_r (s : string) : s +:+ "" = s.
Proof. induction s as [|c s IH]; [reflexivity | now rewrite append_cons_l, IH]. Qed.

Lemma parse_atoms_source (term : string) (ww : bool) :
  parse_atoms (if ww then "\b" +:+ replace_escape term +:+ "\b"
               else replace_escape term)
  = Normal (boundary_atoms ww ++ map Lit (chars term) ++ boundary_atoms ww).
Proof.
  destruct ww.
  - change ("\b" +:+ replace_escape term +:+ "\b")
      with (String "\"%char (String "b"%char (replace_escape term +:+ "\b"))).
    cbn [parse_atoms]. rewrite Ascii.eqb_refl, parse_atoms_escape. reflexivity.
  - rewrite <- (append_empty_r (replace_escape term)), parse_atoms_escape.
    simpl. reflexivity.
Qed.

Lemma match_here_literals (ic : bool) (term : list ascii) (ats : list Atom) :
  forall prev rest,
    match_here ic (map Lit term ++ ats) prev rest =
    if prefix_of ic term rest
    then (fun n => (length term + n)%nat) <$>
           match_here ic ats (char_before prev rest (length term))
                      (drop (length term) rest)
    else None.
Proof.
  induction term as [|c term IH]; intros prev rest.
  - cbn [map app prefix_of length char_before]. rewrite drop_0.
    destruct (match_here ic ats prev rest); reflexivity.
  - destruct rest as [|x rest]; [reflexivity|].
    cbn [map app match_here prefix_of].
    destruct (char_matches ic c x); [|reflexivity].
    rewrite IH. cbn [andb].
    destruct (prefix_of ic term rest); [|reflexivity].
    replace (char_before (Some x) rest (length term))
      with (char_before prev (x :: rest) (length (c :: term))).
    2:{ cbn [length char_before]. destruct term; reflexivity. }
    cbn [length drop].
    destruct (match_here ic ats _ _); reflexivity.
Qed.

Lemma match_here_boundary_atoms (ic ww : bool) (prev : option ascii) (rest : list ascii) :
  match_here ic (boundary_atoms ww) prev rest =
  if negb ww || boundary prev (head rest) then Some O else None.
Proof. destruct ww; simpl; [|reflexivity]. unfold boundary. now destruct (xorb _ _). Qed.

(** Matching the atoms built for a term is the literal occurrence of the
    term. *)
Lemma match_here_term (ic ww : bool) (term : list ascii) (prev : option ascii)
    (rest : list ascii) :
  match_here ic (boundary_atoms ww ++ map Lit term ++ boundary_atoms ww) prev rest =
  if occurs_here ic ww term prev rest then Some (length term) else None.
Proof.
  unfold occurs_here. destruct ww.
  - cbn [boundary_atoms app match_here negb orb].
    fold (boundary prev (head rest)).
    destruct (boundary prev (head rest)).
    + rewrite match_here_literals.
      destruct (prefix_of ic term rest); [|reflexivity].
      rewrite (match_here_boundary_atoms ic true). cbn [negb orb andb].
      destruct (boundary _ _); simpl; [|reflexivity].
      now rewrite Nat.add_0_r.
    + now rewrite andb_false_r.
  - cbn [boundary_atoms app negb orb]. rewrite andb_true_r.
    rewrite match_here_literals.
    destruct (prefix_of ic term rest); [|reflexivity].
    simpl. now rewrite Nat.add_0_r.
Qed.

(** With case-sensitive comparison, [prefix_of] is the prefix relation on
    character lists. *)
Lemma prefix_of_exact (term rest : list ascii) :
  prefix_of false term rest = true <-> exists tail, rest = term ++ tail.
Proof.
  revert rest. induction term as [|c term IH]; intros rest.
  - simpl. split; [intros _; now exists rest | reflexivity].
  - destruct rest as [|x rest]; simpl.
    + split; [discriminate | intros [tail H]; discriminate].
    + unfold char_matches. destruct (Ascii.eqb_spec c x) as [->|Hne]; simpl.
      * rewrite IH. split; intros [tail H]; exists tail; congruence.
      * split; [discriminate | intros [tail H]; congruence].
Qed.

End PatternFacts.


(** ** Reasoning about the monad *)

Section MonadLogic.

Context {A B : Type} (t : IGSearch).

Lemma hoare_ret (a : A) (Q : A -> Prop) : Q a -> hoare t (ret a) Q.
Proof. intros HQ w Hw. simpl. auto. Qed.

Lemma hoare_throw (e : Error) (Q : A -> Prop) : hoare t (throw e) Q.
Proof. intros w Hw. simpl. auto. Qed.

Lemma hoare_bind (m : M A) (f : A -> M B) (Q : A -> Prop) (R : B -> Prop) :
  hoare t m Q -> (forall a, Q a -> hoare t (f a) R) -> hoare t (bind m f) R.
Proof.
  intros Hm Hf w Hw. unfold bind. specialize (Hm w Hw).
  destruct (m w) as [[a|e] w1]; [|exact Hm].
  destruct Hm as [Ha Hw1]. exact (Hf a Ha w1 Hw1).
Qed.

Lemma hoare_try_catch (m : M A) (handler : Error -> M A) (Q : A -> Prop) :
  hoare t m Q -> (forall e, hoare t (handler e) Q) -> hoare t (try_catch m handler) Q.
Proof.
  intros Hm Hh w Hw. unfold try_catch. specialize (Hm w Hw).
  destruct (m w) as [[a|e] w1]; [exact Hm|]. exact (Hh e w1 Hm).
Qed.

Lemma hoare_lift (c : Completion A) (Q : A -> Prop) :
  (forall a, c = Normal a -> Q a) -> hoare t (lift c) Q.
Proof. intros HQ w Hw. unfold lift. destruct c; auto. Qed.

Lemma hoare_get_this : hoare t get_this (fun x => x = t).
Proof. intros w Hw. simpl. auto. Qed.

Lemma hoare_record_call (c : FsCall) : hoare t (record_call c) (fun _ => True).
Proof. intros w Hw. simpl. auto. Qed.

Lemma safe_ret (a : A) : safe (ret a).
Proof. intros w. now exists a, w. Qed.

Lemma safe_bind (m : M A) (f : A -> M B) :
  safe m -> (forall a, safe (f a)) -> safe (bind m f).
Proof.
  intros Hm Hf w. unfold bind. destruct (Hm w) as (a & w1 & ->). apply Hf.
Qed.

Lemma safe_try_catch (m : M A) (handler : Error -> M A) :
  (forall e, safe (handler e)) -> safe (try_catch m handler).
Proof.
  intros Hh w. unfold try_catch. destruct (m w) as [[a|e] w1]; [now exists a, w1|].
  apply Hh.
Qed.

End MonadLogic.

Lemma safe_record_call (c : FsCall) : safe (record_call c).
Proof. intros w. eexists _, _. reflexivity. Qed.

Lemma safe_get_this : safe get_this.
Proof. intros w. eexists _, _. reflexivity. Qed.

(** ** Facts about the engine *)

Section EngineFacts.
Import JSString JSRegExp.

Variable h : Host.
Variable t : IGSearch.

Lemma hoare_fs_existsSync (p : string) :
  hoare t (fs_existsSync h p) (fun b => b = existsSync h p).
Proof.
  eapply hoare_bind; [apply hoare_record_call|].
  intros _ _. now apply hoare_ret.
Qed.

Lemma hoare_fs_statSync (p : string) : hoare t (fs_statSync h p) (fun _ => True).
Proof.
  eapply hoare_bind; [apply hoare_record_call|].
  intros _ _. now apply hoare_lift.
Qed.

Lemma hoare_fs_readdirSync (p : string) : hoare t (fs_readdirSync h p) (fun _ => True).
Proof.
  eapply hoare_bind; [apply hoare_record_call|].
  intros _ _. now apply hoare_lift.
Qed.

Lemma hoare_fs_readFileSync (p : string) : hoare t (fs_readFileSync h p) (fun _ => True).
Proof.
  eapply hoare_bind; [apply hoare_record_call|].
  intros _ _. now apply hoare_lift.
Qed.

Lemma hoare_fs_readFileBuffer (p : string) :
  hoare t (fs_readFileBuffer h p) (fun _ => True).
Proof.
  eapply hoare_bind; [apply hoare_record_call|].
  intros _ _. now apply hoare_lift.
Qed.

Lemma safe_fs_existsSync (p : string) : safe (fs_existsSync h p).
Proof. apply safe_bind; [apply safe_record_call | intros; apply safe_ret]. Qed.

(** *** Category resolver *)

Lemma filterExisting_run (paths : list SearchConfig) (w : World) :
  exists w',
    filterExisting h paths w
    = (Normal (List.filter (fun c => existsSync h (path c)) paths), w')
    /\ this w' = this w.
Proof.
  revert w. induction paths as [|c paths IH]; intros w.
  - exists w. split; reflexivity.
  - cbn [filterExisting List.filter]. unfold bind at 1. unfold fs_existsSync at 1.
    unfold bind at 1. cbn [record_call ret].
    set (w1 := {| this := this w; fsTrace := fsTrace w ++ [ExistsSync (path c)] |}).
    destruct (IH w1) as (w2 & Hrun & Hthis).
    unfold bind at 1. rewrite Hrun. exists w2. split; [|exact Hthis].
    unfold ret. now destruct (existsSync h (path c)).
Qed.

Lemma hoare_getCategoryPaths (igFolder categoryName : string) :
  hoare t (getCategoryPaths h igFolder categoryName) (fun _ => True).
Proof.
  unfold getCategoryPaths.
  eapply hoare_bind with (Q := fun _ => True).
  - unfold categorySwitch.
    repeat match goal with |- context [if ?b then _ else _] => destruct b end;
      try (now apply hoare_ret).
    eapply hoare_bind; [apply hoare_fs_existsSync|].
    intros present _. destruct present; now apply hoare_ret.
  - intros paths _ w Hw.
    destruct (filterExisting_run paths w) as (w' & -> & Hthis). split; [exact I|congruence].
Qed.

Lemma safe_getCategoryPaths (igFolder categoryName : string) :
  safe (getCategoryPaths h igFolder categoryName).
Proof.
  unfold getCategoryPaths. apply safe_bind.
  - unfold categorySwitch.
    repeat match goal with |- context [if ?b then _ else _] => destruct b end;
      try (now apply safe_ret).
    apply safe_bind; [apply safe_fs_existsSync|].
    intros present. destruct present; apply safe_ret.
  - intros paths w. destruct (filterExisting_run paths w) as (w' & -> & _). eauto.
Qed.

(** *** File walker *)

Lemma walkItems_this (recurse : string -> M (list string)) (dirPath : string)
    (exts : list string) (rec : bool) :
  (forall p, hoare t (recurse p) (fun _ => True)) ->
  forall items files w, this w = t ->
    this (snd (walkItems h recurse dirPath exts rec items files w)) = t.
Proof.
  intros Hrec. induction items as [|item items IH]; intros files w Hw.
  - exact Hw.
  - cbn [walkItems].
    pose proof (hoare_fs_statSync (path_join h [dirPath; item]) w Hw) as Hstat.
    destruct (fs_statSync h (path_join h [dirPath; item]) w) as [[stat|e] w1].
    2:{ now apply IH. }
    destruct Hstat as [_ Hw1].
    destruct (isFile stat).
    { destruct (_ || _); now apply IH. }
    destruct (isDirectory stat && rec); [|now apply IH].
    destruct (negb (shouldSkipDirectory item)); [|now apply IH].
    pose proof (Hrec (path_join h [dirPath; item]) w1 Hw1) as Hsub.
    destruct (recurse (path_join h [dirPath; item]) w1) as [[found|e] w2].
    + destruct Hsub as [_ Hw2]. now apply IH.
    + exact Hsub.
Qed.

Lemma hoare_findFilesInPath (depth : nat) :
  forall dirPath exts rec,
    hoare t (findFilesInPath h depth dirPath exts rec) (fun _ => True).
Proof.
  induction depth as [|depth IH]; intros dirPath exts rec.
  - apply hoare_throw.
  - cbn [findFilesInPath].
    eapply hoare_bind; [apply hoare_fs_existsSync|].
    intros present _. destruct (negb present); [now apply hoare_ret|].
    intros w Hw.
    pose proof (hoare_fs_readdirSync dirPath w Hw) as Hdir.
    destruct (fs_readdirSync h dirPath w) as [[items|e] w1].
    + destruct Hdir as [_ Hw1].
      pose proof (walkItems_this (fun p => findFilesInPath h depth p exts rec)
                    dirPath exts rec (fun p => IH p exts rec) items [] w1 Hw1) as Hwalk.
      destruct (walkItems h _ dirPath exts rec items [] w1) as [[files c] w2].
      split; [exact I | exact Hwalk].
    + split; [exact I | exact Hdir].
Qed.

Lemma safe_findFilesInPath (depth : nat) (dirPath : string) (exts : list string)
    (rec : bool) :
  safe (findFilesInPath h (S depth) dirPath exts rec).
Proof.
  cbn [findFilesInPath]. apply safe_bind; [apply safe_fs_existsSync|].
  intros present. destruct (negb present); [apply safe_ret|].
  intros w. destruct (fs_readdirSync h dirPath w) as [[items|e] w1]; [|eauto].
  destruct (walkItems h _ dirPath exts rec items [] w1) as [[files c] w2]. eauto.
Qed.

(** *** Content filters *)

Lemma hoare_isResourceFile (filePath : string) :
  hoare t (isResourceFile h filePath) (fun _ => True).
Proof.
  unfold isResourceFile. apply hoare_try_catch; [|intros; now apply hoare_ret].
  repeat match goal with |- context [if ?b then _ else _] => destruct b end;
    try (now apply hoare_ret);
    (eapply hoare_bind; [apply hoare_fs_readFileSync | intros; now apply hoare_ret]).
Qed.

Lemma hoare_isTextFile (filePath : string) :
  hoare t (isTextFile h filePath) (fun _ => True).
Proof.
  unfold isTextFile. apply hoare_try_catch; [|intros; now apply hoare_ret].
  destruct (array_includes _ _); [now apply hoare_ret|].
  eapply hoare_bind; [apply hoare_fs_readFileBuffer | intros; now apply hoare_ret].
Qed.

Lemma hoare_applyFilter (f : FileFilter) (filePath : string) :
  hoare t (applyFilter h f filePath) (fun _ => True).
Proof.
  destruct f; [now apply hoare_ret | apply hoare_isResourceFile | apply hoare_isTextFile].
Qed.

Lemma safe_applyFilter (f : FileFilter) (filePath : string) :
  safe (applyFilter h f filePath).
Proof.
  destruct f; [apply safe_ret | |]; apply safe_try_catch; intros; apply safe_ret.
Qed.

(** *** Matcher *)

Lemma hoare_getRelativePath (filePath : string) :
  hoare t (getRelativePath h filePath) (fun _ => True).
Proof.
  unfold getRelativePath. eapply hoare_bind; [apply hoare_get_this|].
  intros x _. destruct (currentIgFolder x); [|now apply hoare_ret].
  destruct (_ && _); now apply hoare_ret.
Qed.

Lemma safe_getRelativePath (filePath : string) : safe (getRelativePath h filePath).
Proof.
  unfold getRelativePath. apply safe_bind; [apply safe_get_this|].
  intros x. destruct (currentIgFolder x); [|apply safe_ret].
  destruct (_ && _); apply safe_ret.
Qed.

Lemma scanLines_counts (pattern : RegExp) (lines : list string) :
  forall lineNum found,
    scanLines pattern lines lineNum = Normal found ->
    Forall (fun m => 1 <= matchCount m) found.
Proof.
  induction lines as [|ln lines IH]; intros lineNum found Hrun.
  - injection Hrun as <-. constructor.
  - cbn [scanLines] in Hrun.
    destruct (matchAll ln pattern) as [lineMatches|e]; [|discriminate].
    cbn [cbind] in Hrun.
    destruct (scanLines pattern lines (lineNum + 1)) as [more|e] eqn:Hmore; [|discriminate].
    cbn [cbind] in Hrun. specialize (IH _ _ Hmore).
    destruct (0 <? length lineMatches)%nat eqn:Hlen; injection Hrun as <-; [|exact IH].
    constructor; [|exact IH]. cbn [matchCount].
    apply Nat.ltb_lt in Hlen. lia.
Qed.

Lemma hoare_searchInFile (filePath : string) (pattern : RegExp) (cat : string) :
  hoare t (searchInFile h filePath pattern cat) (from_option wellFormed True).
Proof.
  unfold searchInFile. apply hoare_try_catch; [|intros; now apply hoare_ret].
  eapply hoare_bind; [apply hoare_fs_readFileSync|]. intros content _.
  eapply hoare_bind.
  { apply hoare_lift with (Q := fun found => Forall (fun m => 1 <= matchCount m) found).
    intros found Hrun. exact (scanLines_counts _ _ _ _ Hrun). }
  intros found Hfound.
  destruct (0 <? length found)%nat eqn:Hlen; [|now apply hoare_ret].
  eapply hoare_bind; [apply hoare_getRelativePath|]. intros rel _.
  apply hoare_ret. cbn [from_option]. unfold wellFormed. cbn [matches fileTotalMatches].
  repeat split; [|exact Hfound].
  intros ->. discriminate.
Qed.

Lemma safe_searchInFile (filePath : string) (pattern : RegExp) (cat : string) :
  safe (searchInFile h filePath pattern cat).
Proof. apply safe_try_catch. intros. apply safe_ret. Qed.

Lemma hoare_searchFiles (cfg : SearchConfig) (pattern : RegExp) (cat : string) (budget : Z) :
  forall files results,
    Forall wellFormed results ->
    hoare t (searchFiles h cfg pattern cat budget files results) (Forall wellFormed).
Proof.
  induction files as [|filePath files IH]; intros results Hres.
  - now apply hoare_ret.
  - cbn [searchFiles]. destruct (_ >=? _); [now apply hoare_ret|].
    eapply hoare_bind with (Q := fun _ => True).
    { destruct (fileFilter cfg); [apply hoare_applyFilter | now apply hoare_ret]. }
    intros keep _. destruct (negb keep); [now apply IH|].
    eapply hoare_bind; [apply hoare_searchInFile|].
    intros [r|] Hr; [|now apply IH].
    apply IH. apply Forall_app. split; [exact Hres|]. now constructor.
Qed.

Lemma safe_searchFiles (cfg : SearchConfig) (pattern : RegExp) (cat : string) (budget : Z) :
  forall files results, safe (searchFiles h cfg pattern cat budget files results).
Proof.
  induction files as [|filePath files IH]; intros results.
  - apply safe_ret.
  - cbn [searchFiles]. destruct (_ >=? _); [apply safe_ret|].
    apply safe_bind.
    { destruct (fileFilter cfg); [apply safe_applyFilter | apply safe_ret]. }
    intros keep. destruct (negb keep); [apply IH|].
    apply safe_bind; [apply safe_searchInFile|].
    intros [r|]; apply IH.
Qed.

Lemma hoare_searchPathsLoop (pattern : RegExp) (cat : string) (budget : Z) :
  forall searchPaths results,
    Forall wellFormed results ->
    hoare t (searchPathsLoop h pattern cat budget searchPaths results) (Forall wellFormed).
Proof.
  induction searchPaths as [|cfg searchPaths IH]; intros results Hres.
  - now apply hoare_ret.
  - cbn [searchPathsLoop]. destruct (_ >=? _); [now apply hoare_ret|].
    eapply hoare_bind; [apply hoare_fs_existsSync|].
    intros present _. destruct (negb present); [now apply IH|].
    eapply hoare_bind; [apply hoare_findFilesInPath|]. intros files _.
    eapply hoare_bind; [now apply hoare_searchFiles|].
    intros results' Hres'. now apply IH.
Qed.

Lemma safe_searchPathsLoop (pattern : RegExp) (cat : string) (budget : Z) :
  stackDepth h <> O ->
  forall searchPaths results,
    safe (searchPathsLoop h pattern cat budget searchPaths results).
Proof.
  intros Hdepth. destruct (stackDepth h) as [|depth] eqn:Hd; [congruence|].
  induction searchPaths as [|cfg searchPaths IH]; intros results.
  - apply safe_ret.
  - cbn [searchPathsLoop]. destruct (_ >=? _); [apply safe_ret|].
    apply safe_bind; [apply safe_fs_existsSync|].
    intros present. destruct (negb present); [apply IH|].
    rewrite Hd. apply safe_bind; [apply safe_findFilesInPath|]. intros files.
    apply safe_bind; [apply safe_searchFiles|]. intros results'. apply IH.
Qed.

Lemma hoare_searchCategory (igFolder cat : string) (pattern : RegExp) (budget : Z) :
  hoare t (searchCategory h igFolder cat pattern budget) (Forall wellFormed).
Proof.
  unfold searchCategory. eapply hoare_bind; [apply hoare_getCategoryPaths|].
  intros searchPaths _. apply hoare_searchPathsLoop. constructor.
Qed.

Lemma safe_searchCategory (igFolder cat : string) (pattern : RegExp) (budget : Z) :
  stackDepth h <> O -> safe (searchCategory h igFolder cat pattern budget).
Proof.
  intros Hdepth. unfold searchCategory. apply safe_bind; [apply safe_getCategoryPaths|].
  intros searchPaths. now apply safe_searchPathsLoop.
Qed.

(** *** Top-level search *)

Lemma fold_left_add_shift {X} (f : X -> Z) (l : list X) (a : Z) :
  fold_left (fun sum x => sum + f x) l a = a + fold_left (fun sum x => sum + f x) l 0.
Proof.
  revert a. induction l as [|x l IH]; intros a; cbn [fold_left].
  - lia.
  - rewrite (IH (a + f x)), (IH (0 + f x)). lia.
Qed.

Lemma sumMatchLines_app (l1 l2 : list FileMatchResult) :
  sumMatchLines (l1 ++ l2) = sumMatchLines l1 + sumMatchLines l2.
Proof.
  unfold sumMatchLines. rewrite fold_left_app.
  apply (fold_left_add_shift (fun r => Z.of_nat (length (matches r)))).
Qed.

Lemma hoare_searchCategories (igFolder : string) (pattern : RegExp) :
  forall entries results total,
    Forall wellFormed results ->
    total = sumMatchLines results ->
    hoare t (searchCategories h igFolder pattern entries results total)
      (fun scanned => Forall wellFormed (fst scanned)
                      /\ snd scanned = sumMatchLines (fst scanned)).
Proof.
  induction entries as [|[cat enabled] entries IH]; intros results total Hres Htot.
  - now apply hoare_ret.
  - cbn [searchCategories]. destruct (negb enabled); [now apply IH|].
    eapply hoare_bind; [apply hoare_get_this|]. intros x ->.
    destruct (_ >=? _); [now apply hoare_ret|].
    eapply hoare_bind; [apply hoare_searchCategory|].
    intros categoryResults Hcat. apply IH.
    + apply Forall_app. now split.
    + rewrite sumMatchLines_app. now rewrite Htot.
Qed.

Lemma safe_searchCategories (igFolder : string) (pattern : RegExp) :
  stackDepth h <> O ->
  forall entries results total,
    safe (searchCategories h igFolder pattern entries results total).
Proof.
  intros Hdepth. induction entries as [|[cat enabled] entries IH]; intros results total.
  - apply safe_ret.
  - cbn [searchCategories]. destruct (negb enabled); [apply IH|].
    apply safe_bind; [apply safe_get_this|]. intros x.
    destruct (_ >=? _); [apply safe_ret|].
    apply safe_bind; [now apply safe_searchCategory|]. intros. apply IH.
Qed.

Lemma hoare_performSearch_try (igFolder searchTerm : string) (cs ww : bool)
    (cats : list (string * bool)) :
  hoare t (performSearch_try h igFolder searchTerm cs ww cats) (searchOutcome h t).
Proof.
  unfold performSearch_try.
  eapply hoare_bind with (Q := fun _ => True); [now apply hoare_lift|].
  intros pattern _.
  eapply hoare_bind.
  { apply hoare_searchCategories; [constructor | reflexivity]. }
  intros [collected total] [Hwf Htot]. cbn [fst snd] in Hwf, Htot.
  eapply hoare_bind; [apply hoare_get_this|]. intros x ->.
  apply hoare_ret. unfold searchOutcome. cbn [error truncated totalMatches results].
  repeat split. exists collected, pattern. auto.
Qed.

Lemma createSearchPattern_normal (searchTerm : string) (cs ww : bool) :
  exists re, createSearchPattern searchTerm cs ww = Normal re.
Proof.
  unfold createSearchPattern, new_RegExp.
  replace (parse_flags (if cs then "g" else "gi") false false)
    with (Normal (true, negb cs) : Completion (bool * bool))
    by (destruct cs; reflexivity).
  cbn [cbind]. rewrite PatternFacts.parse_atoms_source. cbn [cbind]. eauto.
Qed.

Lemma safe_performSearch_try (igFolder searchTerm : string) (cs ww : bool)
    (cats : list (string * bool)) :
  stackDepth h <> O -> safe (performSearch_try h igFolder searchTerm cs ww cats).
Proof.
  intros Hdepth. unfold performSearch_try.
  destruct (createSearchPattern_normal searchTerm cs ww) as [re ->].
  apply safe_bind; [intros w; eexists _, _; reflexivity|]. intros pattern.
  apply safe_bind; [now apply safe_searchCategories|]. intros [collected total].
  apply safe_bind; [apply safe_get_this|]. intros x. apply safe_ret.
Qed.

(** The three ways [performSearch] returns. *)
Lemma performSearch_run (igFolder searchTerm : string) (options : Options) (w : World) :
  this w = t ->
  if is_blank searchTerm
  then performSearch h igFolder searchTerm options w = (Normal emptyResult, w)
  else
    match performSearch_try h igFolder searchTerm
            (default false (optCaseSensitive options))
            (default false (optWholeWords options))
            (default [] (optCategories options)) w with
    | (Normal r, w') =>
        performSearch h igFolder searchTerm options w = (Normal r, w')
        /\ searchOutcome h t r /\ this w' = t
    | (Throw e, w') =>
        performSearch h igFolder searchTerm options w = (Normal (errorResult e), w')
        /\ this w' = t
    end.
Proof.
  intros Hw. unfold performSearch. fold (is_blank searchTerm).
  destruct (is_blank searchTerm); [reflexivity|].
  pose proof (hoare_performSearch_try igFolder searchTerm
                (default false (optCaseSensitive options))
                (default false (optWholeWords options))
                (default [] (optCategories options)) w Hw) as Htry.
  unfold try_catch.
  destruct (performSearch_try h igFolder searchTerm _ _ _ w) as [[r|e] w'].
  - destruct Htry. auto.
  - split; [reflexivity | exact Htry].
Qed.

End EngineFacts.

(** *** Blank terms *)

Lemma trim_start_blank (s : string) : blank s -> JSString.trim_start s = "".
Proof.
  unfold blank. induction s as [|c s IH]; intros Hs; [reflexivity|].
  change (JSString.chars (String c s)) with (c :: JSString.chars s) in Hs.
  apply Forall_cons in Hs as [Hc Hs]. cbn [JSString.trim_start]. rewrite Hc. auto.
Qed.

Lemma blank_is_blank (s : string) : blank s -> is_blank s = true.
Proof.
  intros Hs. unfold is_blank, JSString.trim. rewrite (trim_start_blank s Hs).
  apply orb_true_r.
Qed.

(** *** Sums over result lists *)

Lemma sumMatchLines_cons (r : FileMatchResult) (l : list FileMatchResult) :
  sumMatchLines (r :: l) = Z.of_nat (length (matches r)) + sumMatchLines l.
Proof.
  unfold sumMatchLines. cbn [fold_left].
  rewrite (fold_left_add_shift (fun r => Z.of_nat (length (matches r)))). lia.
Qed.

Lemma sumMatchCounts_cons (r : FileMatchResult) (l : list FileMatchResult) :
  sumMatchCounts (r :: l) = sumMatchCount (matches r) + sumMatchCounts l.
Proof.
  unfold sumMatchCounts. cbn [fold_left].
  rewrite (fold_left_add_shift (fun r => sumMatchCount (matches r))). lia.
Qed.

Lemma sumMatchCount_cons (m : LineMatch) (l : list LineMatch) :
  sumMatchCount (m :: l) = matchCount m + sumMatchCount l.
Proof.
  unfold sumMatchCount. cbn [fold_left].
  rewrite (fold_left_add_shift matchCount). lia.
Qed.

Lemma sumMatchLines_nonneg (l : list FileMatchResult) : 0 <= sumMatchLines l.
Proof.
  induction l as [|r l IH]; [reflexivity|]. rewrite sumMatchLines_cons. lia.
Qed.

Lemma sumMatchLines_perm (l1 l2 : list FileMatchResult) :
  Permutation l1 l2 -> sumMatchLines l1 = sumMatchLines l2.
Proof.
  induction 1 as [|x l l' _ IH|x y l|l l' l'' _ IH1 _ IH2];
    rewrite ?sumMatchLines_cons; lia.
Qed.

Lemma sumMatchLines_take (n : nat) (l : list FileMatchResult) :
  sumMatchLines (take n l) <= sumMatchLines l.
Proof.
  revert n. induction l as [|r l IH]; intros [|n]; cbn [take];
    rewrite ?sumMatchLines_cons; try reflexivity.
  - pose proof (sumMatchLines_nonneg l). change (sumMatchLines []) with 0. lia.
  - specialize (IH n). lia.
Qed.

Lemma wellFormed_length (l : list FileMatchResult) :
  Forall wellFormed l -> Z.of_nat (length l) <= sumMatchLines l.
Proof.
  induction 1 as [|r l [Hne _] _ IH]; [reflexivity|].
  rewrite sumMatchLines_cons. cbn [length].
  destruct (matches r); [congruence|]. cbn [length]. lia.
Qed.

Lemma lines_le_counts (ms : list LineMatch) :
  Forall (fun m => 1 <= matchCount m) ms -> Z.of_nat (length ms) <= sumMatchCount ms.
Proof.
  induction 1 as [|m ms Hm _ IH]; [reflexivity|].
  rewrite sumMatchCount_cons. cbn [length]. lia.
Qed.

Lemma wellFormed_lines_le_counts (l : list FileMatchResult) :
  Forall wellFormed l -> sumMatchLines l <= sumMatchCounts l.
Proof.
  induction 1 as [|r l (_ & Hcounts & _) _ IH]; [reflexivity|].
  rewrite sumMatchLines_cons, sumMatchCounts_cons.
  pose proof (lines_le_counts _ Hcounts). lia.
Qed.

Lemma slice0_length {X} (l : list X) (n : Z) :
  0 <= n -> Z.of_nat (length (slice0 l n)) <= n.
Proof.
  intros Hn. unfold slice0. destruct (Z.ltb_spec n 0); [lia|].
  rewrite length_take. lia.
Qed.

Lemma slice0_take {X} (l : list X) (n : Z) :
  0 <= n -> slice0 l n = take (Z.to_nat n) l.
Proof. intros Hn. unfold slice0. destruct (Z.ltb_spec n 0); [lia|reflexivity]. Qed.

(** *** The sort of the concrete host *)

Section V8SortFacts.
Context {A St : Type} (cmp : A -> A -> St -> Z * St).

Lemma countAndMakeRun_perm (arr : list A) (s : St) :
  Permutation (fst (fst (countAndMakeRun cmp arr s))) arr.
Proof.
  unfold countAndMakeRun. destruct arr as [|x [|y rest]]; try reflexivity.
  destruct (cmp y x s) as [order s1].
  destruct (extendRun cmp (order <? 0) y rest s1) as [n s2].
  destruct (order <? 0); cbn [fst]; [|reflexivity].
  rewrite <- Permutation_rev. now rewrite take_drop.
Qed.

Lemma insert_pivot_perm (arr : list A) (start lft : nat) (pivot : A) :
  arr !! start = Some pivot ->
  (lft <= start)%nat ->
  Permutation (take lft arr ++ pivot :: take (start - lft) (drop lft arr)
                 ++ drop (S start) arr) arr.
Proof.
  intros Hpivot Hle.
  assert (Hprefix : take lft arr ++ take (start - lft) (drop lft arr) = take start arr).
  { rewrite <- (take_drop lft (take start arr)).
    rewrite take_take, Nat.min_l by lia.
    now rewrite skipn_firstn_comm. }
  rewrite <- Permutation_middle, app_assoc, Hprefix, Permutation_middle.
  now rewrite (take_drop_middle arr start pivot Hpivot).
Qed.

Lemma binaryInsertionSort_perm (todo : nat) :
  forall start arr s,
    Permutation (fst (binaryInsertionSort cmp todo start arr s)) arr.
Proof.
  induction todo as [|todo IH]; intros start arr s; [reflexivity|].
  cbn [binaryInsertionSort].
  destruct (arr !! start) as [pivot|] eqn:Hpivot; [|reflexivity].
  destruct (insertionPoint cmp (S start) pivot arr 0 start s) as [lft s1].
  rewrite IH. apply insert_pivot_perm; [exact Hpivot | lia].
Qed.

Lemma v8_sort_perm (arr : list A) (s : St) :
  Permutation (fst (v8_sort cmp arr s)) arr.
Proof.
  unfold v8_sort. destruct (length arr <? 2)%nat; [reflexivity|].
  pose proof (countAndMakeRun_perm arr s) as Hrun.
  destruct (countAndMakeRun cmp arr s) as [[arr1 runLength] s1]. cbn [fst] in Hrun.
  now rewrite binaryInsertionSort_perm.
Qed.

End V8SortFacts.

Lemma example_host_sort_permutes dirs files depth :
  sort_permutes (Fixtures.host dirs files depth).
Proof. intros A St cmp l s. apply v8_sort_perm. Qed.

(** *** Searches that succeed *)

Lemma performSearch_success (h : Host) (igFolder searchTerm : string) (options : Options)
    (w w' : World) (r : SearchResult) :
  is_blank searchTerm = false ->
  performSearch h igFolder searchTerm options w = (Normal r, w') ->
  error r = None ->
  searchOutcome h (this w) r /\ this w' = this w.
Proof.
  intros Hblank Hrun Herr.
  pose proof (performSearch_run h (this w) igFolder searchTerm options w eq_refl) as Hcases.
  rewrite Hblank in Hcases.
  destruct (performSearch_try h igFolder searchTerm _ _ _ w) as [[r1|e] w1].
  - destruct Hcases as (Hrun1 & Hout & Hthis).
    rewrite Hrun1 in Hrun. injection Hrun as <- <-. auto.
  - destruct Hcases as (Hrun1 & _).
    rewrite Hrun1 in Hrun. injection Hrun as <- <-. discriminate.
Qed.

(** A search on a host with room on the call stack succeeds. *)
Lemma performSearch_succeeds (h : Host) (igFolder searchTerm : string) (options : Options)
    (w : World) :
  stackDepth h <> O ->
  is_blank searchTerm = false ->
  exists r w', performSearch h igFolder searchTerm options w = (Normal r, w')
               /\ error r = None.
Proof.
  intros Hdepth Hblank.
  pose proof (performSearch_run h (this w) igFolder searchTerm options w eq_refl) as Hcases.
  rewrite Hblank in Hcases.
  destruct (safe_performSearch_try h igFolder searchTerm
              (default false (optCaseSensitive options))
              (default false (optWholeWords options))
              (default [] (optCategories options)) Hdepth w) as (r & w' & Htry).
  rewrite Htry in Hcases. destruct Hcases as (Hrun & (Herr & _) & _). eauto.
Qed.

(** *** State store *)

Lemma clearOutputResults_run (igFolder : string) (w : World) :
  exists w',
    clearOutputResults igFolder w = (Normal tt, w') /\
    searchStates (this w') !! igFolder =
      Some (set_results (storedState (this w) igFolder)
              (List.filter (fun r => negb (JSString.startsWith (category r) "output"))
                           (stateResults (storedState (this w) igFolder)))) /\
    maxResults (this w') = maxResults (this w) /\
    currentIgFolder (this w') = currentIgFolder (this w) /\
    fsTrace w' = fsTrace w.
Proof.
  unfold clearOutputResults, getSearchState, saveSearchState, storedState.
  unfold bind, get_this, set_this, ret.
  destruct (searchStates (this w) !! igFolder) as [st|] eqn:Hst;
    cbn [this fsTrace set_searchStates searchStates maxResults currentIgFolder default];
    eexists; (split; [reflexivity|]);
    cbn [this fsTrace set_searchStates searchStates maxResults currentIgFolder];
    rewrite lookup_insert_eq; auto.
Qed.

Lemma category_output_prefix (c : string) :
  isCategory c = true -> JSString.startsWith c "output" = isOutputCategory c.
Proof.
  unfold isCategory, JSString.array_includes, categoryNames. cbn [existsb].
  repeat match goal with
         | |- context [String.eqb c ?x] =>
             destruct (String.eqb_spec c x) as [->|_]; [intros _; reflexivity|]
         end.
  cbn [orb]. discriminate.
Qed.

Lemma filter_output_categories (l : list FileMatchResult) :
  Forall (fun r => isCategory (category r) = true) l ->
  List.filter (fun r => negb (JSString.startsWith (category r) "output")) l =
  List.filter (fun r => negb (isOutputCategory (category r))) l.
Proof.
  induction 1 as [|r l Hr _ IH]; [reflexivity|].
  cbn [List.filter]. rewrite (category_output_prefix _ Hr), IH. reflexivity.
Qed.

Lemma filter_none {X} (f : X -> bool) (l : list X) :
  Forall (fun x => f x = false) l -> List.filter f l = [].
Proof.
  induction 1 as [|x l Hx _ IH]; [reflexivity|].
  cbn [List.filter]. now rewrite Hx.
Qed.

(** The test at the head of [performSearch] holds exactly of the blank
    terms. *)
Lemma trim_end_empty (s : string) : JSString.trim_end s = "" -> blank s.
Proof.
  unfold blank. induction s as [|c s IH]; intros Hs; [constructor|].
  cbn [JSString.trim_end] in Hs.
  change (JSString.chars (String c s)) with (c :: JSString.chars s).
  destruct (JSString.trim_end s) eqn:Hrest; [|discriminate].
  destruct (JSString.is_whitespace c) eqn:Hc; [|discriminate].
  constructor; auto.
Qed.

Lemma trim_start_keeps_blank (s : string) : blank (JSString.trim_start s) -> blank s.
Proof.
  unfold blank. induction s as [|c s IH]; intros Hs; [constructor|].
  cbn [JSString.trim_start] in Hs.
  destruct (JSString.is_whitespace c) eqn:Hc; [|exact Hs].
  change (JSString.chars (String c s)) with (c :: JSString.chars s).
  constructor; auto.
Qed.

Lemma is_blank_iff (s : string) : is_blank s = true <-> blank s.
Proof.
  split; [|apply blank_is_blank].
  unfold is_blank. intros Hs. apply orb_true_iff in Hs as [Hs|Hs].
  - destruct s; [constructor | discriminate].
  - apply trim_start_keeps_blank, trim_end_empty.
    unfold JSString.trim in Hs. now destruct (JSString.trim_end _).
Qed.

(** *** The matcher on the examples of the specification *)

Example hello_case_insensitive :
  cbind (createSearchPattern "hello" false false) (JSRegExp.matchAll "Hello") =
  Normal [(0%nat, 5%nat)].
Proof. reflexivity. Qed.

Example hello_case_sensitive :
  cbind (createSearchPattern "hello" true false) (JSRegExp.matchAll "Hello") = Normal [].
Proof. reflexivity. Qed.

Example cat_whole_word :
  cbind (createSearchPattern "cat" false true)
        (JSRegExp.matchAll "a category for the cat") = Normal [(19%nat, 3%nat)].
Proof. reflexivity. Qed.

Example metacharacters_are_literal :
  cbind (createSearchPattern "a.b*" false false) (JSRegExp.matchAll "axb a.b* a.bb") =
  Normal [(4%nat, 4%nat)].
Proof. reflexivity. Qed.

(** ** What the scan collects *)

Section SearchProperties.
Import JSString JSRegExp.

Variable h : Host.
Variable t : IGSearch.

Lemma hoare_consequence {X} (m : M X) (Q R : X -> Prop) :
  hoare t m Q -> (forall a, Q a -> R a) -> hoare t m R.
Proof.
  intros Hm HQR w Hw. specialize (Hm w Hw).
  destruct (m w) as [[a|e] w1]; [|exact Hm]. destruct Hm; auto.
Qed.

Lemma hoare_searchInFile_category (file : string) (pattern : RegExp) (cat : string) :
  hoare t (searchInFile h file pattern cat)
    (from_option (fun r => wellFormed r /\ category r = cat) True).
Proof.
  unfold searchInFile. apply hoare_try_catch; [|intros; now apply hoare_ret].
  eapply hoare_bind; [apply hoare_fs_readFileSync|]. intros content _.
  eapply hoare_bind.
  { apply hoare_lift with (Q := fun found => Forall (fun m => 1 <= matchCount m) found).
    intros found Hrun. exact (scanLines_counts _ _ _ _ Hrun). }
  intros found Hfound.
  destruct (0 <? length found)%nat eqn:Hlen; [|now apply hoare_ret].
  eapply hoare_bind; [apply hoare_getRelativePath|]. intros rel _.
  apply hoare_ret. cbn [from_option]. unfold wellFormed.
  cbn [matches fileTotalMatches category].
  repeat split; [|exact Hfound]. intros ->. discriminate.
Qed.

(** What the loops of [searchCategory] keep true of the array [results]. *)
Lemma hoare_searchFiles_bounded (cfg : SearchConfig) (pattern : RegExp) (cat : string)
    (budget : Z) :
  forall files results,
    Forall (fun r => wellFormed r /\ category r = cat) results ->
    Z.of_nat (length results) <= Z.max 0 budget ->
    hoare t (searchFiles h cfg pattern cat budget files results)
      (fun rs => Forall (fun r => wellFormed r /\ category r = cat) rs /\
                 Z.of_nat (length rs) <= Z.max 0 budget).
Proof.
  induction files as [|file files IH]; intros results Hres Hlen.
  - now apply hoare_ret.
  - cbn [searchFiles]. destruct (Z.geb_spec (Z.of_nat (length results)) budget) as [Hge|Hlt];
      [now apply hoare_ret|].
    eapply hoare_bind with (Q := fun _ => True).
    { destruct (fileFilter cfg); [apply hoare_applyFilter | now apply hoare_ret]. }
    intros keep _. destruct (negb keep); [now apply IH|].
    eapply hoare_bind; [apply hoare_searchInFile_category|].
    intros [r|] Hr; [|now apply IH].
    apply IH.
    + apply Forall_app. split; [exact Hres|]. now constructor.
    + rewrite length_app. cbn [length]. lia.
Qed.

Lemma hoare_searchPathsLoop_bounded (pattern : RegExp) (cat : string) (budget : Z) :
  forall searchPaths results,
    Forall (fun r => wellFormed r /\ category r = cat) results ->
    Z.of_nat (length results) <= Z.max 0 budget ->
    hoare t (searchPathsLoop h pattern cat budget searchPaths results)
      (fun rs => Forall (fun r => wellFormed r /\ category r = cat) rs /\
                 Z.of_nat (length rs) <= Z.max 0 budget).
Proof.
  induction searchPaths as [|cfg searchPaths IH]; intros results Hres Hlen.
  - now apply hoare_ret.
  - cbn [searchPathsLoop]. destruct (_ >=? _); [now apply hoare_ret|].
    eapply hoare_bind; [apply hoare_fs_existsSync|].
    intros present _. destruct (negb present); [now apply IH|].
    eapply hoare_bind; [apply hoare_findFilesInPath|]. intros files _.
    eapply hoare_bind; [now apply hoare_searchFiles_bounded|].
    intros results' [Hres' Hlen']. now apply IH.
Qed.

Lemma getCategoryPaths_unknown (igFolder cat : string) (w : World) :
  isCategory cat = false -> getCategoryPaths h igFolder cat w = (Normal [], w).
Proof.
  unfold isCategory, array_includes, categoryNames. cbn [existsb]. intros Hcat.
  repeat (apply orb_false_elim in Hcat as [? Hcat]).
  unfold getCategoryPaths, categorySwitch.
  repeat match goal with
         | E : String.eqb cat _ = false |- _ => rewrite E; clear E
         end.
  reflexivity.
Qed.

Lemma searchCategory_unknown (igFolder cat : string) (pattern : RegExp) (budget : Z)
    (w : World) :
  isCategory cat = false ->
  searchCategory h igFolder cat pattern budget w = (Normal [], w).
Proof.
  intros Hcat. unfold searchCategory, bind.
  now rewrite (getCategoryPaths_unknown igFolder cat w Hcat).
Qed.

Lemma hoare_searchCategory_bounded (igFolder cat : string) (pattern : RegExp) (budget : Z) :
  hoare t (searchCategory h igFolder cat pattern budget)
    (fun rs => Forall (fun r => wellFormed r /\ category r = cat) rs /\
               Z.of_nat (length rs) <= Z.max 0 budget /\
               (isCategory cat = true \/ rs = [])).
Proof.
  destruct (isCategory cat) eqn:Hcat.
  - unfold searchCategory. eapply hoare_bind; [apply hoare_getCategoryPaths|].
    intros searchPaths _.
    eapply hoare_consequence;
      [apply hoare_searchPathsLoop_bounded; [constructor | cbn [length]; lia]|].
    intros rs [Hrs Hlen]. auto.
  - intros w Hw. rewrite (searchCategory_unknown igFolder cat pattern budget w Hcat).
    repeat split; [constructor | cbn [length]; lia | now right | exact Hw].
Qed.

Lemma hoare_searchCategories_scan (igFolder : string) (pattern : RegExp)
    (cats : list (string * bool)) :
  forall entries results total,
    Forall (fun e => In e cats) entries ->
    Forall wellFormed results ->
    Forall (fun f => In (category f, true) cats /\ isCategory (category f) = true) results ->
    total = sumMatchLines results ->
    (0 <= maxResults t -> Z.of_nat (length results) <= maxResults t) ->
    hoare t (searchCategories h igFolder pattern entries results total)
      (fun scanned =>
         Forall wellFormed (fst scanned) /\
         Forall (fun f => In (category f, true) cats /\ isCategory (category f) = true)
                (fst scanned) /\
         snd scanned = sumMatchLines (fst scanned) /\
         (0 <= maxResults t -> Z.of_nat (length (fst scanned)) <= maxResults t)).
Proof.
  induction entries as [|[cat enabled] entries IH];
    intros results total Hin Hwf Hcats Htot Hlen.
  - now apply hoare_ret.
  - apply Forall_cons in Hin as [Hentry Hin].
    cbn [searchCategories]. destruct enabled; cbn [negb]; [|now apply IH].
    eapply hoare_bind; [apply hoare_get_this|]. intros x ->.
    destruct (Z.geb_spec total (maxResults t)) as [Hge|Hlt]; [now apply hoare_ret|].
    eapply hoare_bind; [apply hoare_searchCategory_bounded|].
    intros crs (Hcrs & Hbound & Hknown).
    apply IH; try assumption.
    + apply Forall_app. split; [exact Hwf|].
      eapply Forall_impl; [exact Hcrs|]. now intros r [Hr _].
    + apply Forall_app. split; [exact Hcats|].
      destruct Hknown as [Hknown | ->]; [|constructor].
      eapply Forall_impl; [exact Hcrs|]. cbn beta. intros r [_ ->]. auto.
    + rewrite sumMatchLines_app. now rewrite Htot.
    + intros _. rewrite length_app.
      pose proof (wellFormed_length _ Hwf). lia.
Qed.

Lemma hoare_performSearch_try_scan (igFolder searchTerm : string) (cs ww : bool)
    (cats : list (string * bool)) :
  hoare t (performSearch_try h igFolder searchTerm cs ww cats) (scanOutcome h t cats).
Proof.
  unfold performSearch_try.
  eapply hoare_bind with (Q := fun _ => True); [now apply hoare_lift|].
  intros pattern _.
  eapply hoare_bind.
  { apply (hoare_searchCategories_scan igFolder pattern cats cats [] 0);
      try constructor; try reflexivity.
    - apply List.Forall_forall. auto.
    - intros Hmax. cbn [length]. lia. }
  intros [collected total] (Hwf & Hcats & Htot & Hlen). cbn [fst snd] in *.
  eapply hoare_bind; [apply hoare_get_this|]. intros x ->.
  apply hoare_ret. unfold scanOutcome. cbn [error truncated totalMatches results].
  split; [reflexivity|]. split; [reflexivity|]. exists collected, pattern. auto.
Qed.

(** The three ways [performSearch] returns, with what the scan
    guarantees. *)
Lemma performSearch_scan (igFolder searchTerm : string) (options : Options) (w : World) :
  this w = t ->
  if is_blank searchTerm
  then performSearch h igFolder searchTerm options w = (Normal emptyResult, w)
  else
    match performSearch_try h igFolder searchTerm
            (default false (optCaseSensitive options))
            (default false (optWholeWords options))
            (default [] (optCategories options)) w with
    | (Normal r, w') =>
        performSearch h igFolder searchTerm options w = (Normal r, w')
        /\ scanOutcome h t (default [] (optCategories options)) r
    | (Throw e, w') =>
        performSearch h igFolder searchTerm options w = (Normal (errorResult e), w')
    end.
Proof.
  intros Hw. unfold performSearch. fold (is_blank searchTerm).
  destruct (is_blank searchTerm); [reflexivity|].
  pose proof (hoare_performSearch_try_scan igFolder searchTerm
                (default false (optCaseSensitive options))
                (default false (optWholeWords options))
                (default [] (optCategories options)) w Hw) as Htry.
  unfold try_catch.
  destruct (performSearch_try h igFolder searchTerm _ _ _ w) as [[r|e] w'].
  - destruct Htry. auto.
  - reflexivity.
Qed.

End SearchProperties.

Lemma slice0_prefix {X} (l : list X) (n : Z) : exists k, slice0 l n = take k l.
Proof. unfold slice0. destruct (n <? 0); eauto. Qed.

Lemma performSearch_outcomes (h : Host) (igFolder searchTerm : string) (options : Options)
    (w w' : World) (r : SearchResult) :
  performSearch h igFolder searchTerm options w = (Normal r, w') ->
  r = emptyResult \/ (exists e, r = errorResult e) \/
  scanOutcome h (this w) (default [] (optCategories options)) r.
Proof.
  intros Hrun.
  pose proof (performSearch_scan h (this w) igFolder searchTerm options w eq_refl) as Hcases.
  destruct (is_blank searchTerm).
  - rewrite Hcases in Hrun. injection Hrun as <- _. now left.
  - destruct (performSearch_try h igFolder searchTerm _ _ _ w) as [[r1|e] w1].
    + destruct Hcases as [Hrun1 Hout]. rewrite Hrun1 in Hrun. injection Hrun as <- _.
      now right; right.
    + rewrite Hcases in Hrun. injection Hrun as <- _. right; left. now exists e.
Qed.

(** With a budget that is not negative the scan collects no more files
    than the budget, so that the [slice] of the result drops nothing. *)
Lemma performSearch_all_collected (h : Host) (igFolder searchTerm : string)
    (options : Options) (w w' : World) (r : SearchResult) :
  sort_permutes h ->
  0 <= maxResults (this w) ->
  performSearch h igFolder searchTerm options w = (Normal r, w') ->
  totalMatches r = sumMatchLines (results r) /\
  Z.of_nat (length (results r)) <= maxResults (this w) /\
  Forall wellFormed (results r).
Proof.
  intros Hsort Hmax Hrun.
  destruct (performSearch_outcomes h igFolder searchTerm options w w' r Hrun)
    as [-> | [[e ->] | Hout]];
    [cbn [results totalMatches emptyResult errorResult length];
     repeat split; try constructor; try exact Hmax; reflexivity ..|].
  destruct Hout as (_ & _ & collected & pattern & Hwf & _ & Hlen & Htot & Hres).
  set (sorted := fst (array_sort h _ _ (compareResults h) collected pattern)) in *.
  assert (Hperm : Permutation sorted collected) by apply Hsort.
  specialize (Hlen Hmax).
  assert (Hall : results r = sorted).
  { rewrite Hres, slice0_take by exact Hmax. apply take_ge.
    rewrite (Permutation_length Hperm). lia. }
  rewrite Hall, Htot, <- (sumMatchLines_perm _ _ Hperm).
  repeat split.
  - rewrite (Permutation_length Hperm). exact Hlen.
  - now rewrite Hperm.
Qed.

(** The lines of a file are as many as its matches exactly when every
    line holds one match. *)
Lemma lines_eq_counts (ms : list LineMatch) :
  Forall (fun m => 1 <= matchCount m) ms ->
  (Z.of_nat (length ms) = sumMatchCount ms <-> Forall (fun m => matchCount m = 1) ms).
Proof.
  induction 1 as [|m ms Hm Hms IH].
  - split; [constructor | reflexivity].
  - rewrite sumMatchCount_cons. cbn [length].
    pose proof (lines_le_counts _ Hms) as Hle. split.
    + intros Heq. constructor; [lia|]. apply IH. lia.
    + intros Hall. apply Forall_cons in Hall as [H1 Hall]. apply IH in Hall. lia.
Qed.

Lemma wellFormed_lines_eq_counts (l : list FileMatchResult) :
  Forall wellFormed l ->
  (sumMatchLines l = sumMatchCounts l <->
   Forall (fun f => Forall (fun m => matchCount m = 1) (matches f)) l).
Proof.
  induction 1 as [|r l (_ & Hcounts & _) Hl IH].
  - split; [constructor | reflexivity].
  - rewrite sumMatchLines_cons, sumMatchCounts_cons.
    pose proof (lines_le_counts _ Hcounts) as Hle.
    pose proof (wellFormed_lines_le_counts _ Hl) as Hle'.
    pose proof (lines_eq_counts _ Hcounts) as Hone. split.
    + intros Heq. constructor; [apply Hone; lia | apply IH; lia].
    + intros Hall. apply Forall_cons in Hall as [H1 Hall].
      apply Hone in H1. apply IH in Hall. lia.
Qed.

(** ** The entry of [performSearch] *)

Section EntryFacts.
Import JSString JSRegExp JSValue.

Variable h : Host.

(** A record that the [try] block returns has no error. *)
Lemma performSearch_call_try_error (igFolder searchTerm : string)
    (cs ww cats : Value) (w w' : World) (r : SearchResult) :
  performSearch_call_try h igFolder searchTerm cs ww cats w = (Normal r, w') ->
  error r = None.
Proof.
  unfold performSearch_call_try, bind, lift.
  destruct (createSearchPattern searchTerm (truthy cs) (truthy ww)) as [pattern|e];
    [|discriminate].
  destruct (object_entries cats) as [entries|e]; [|discriminate].
  destruct (searchCategories h igFolder pattern _ [] 0 w) as [[[collected total]|e] w1];
    [|discriminate].
  cbn [get_this ret]. now intros [= <- _].
Qed.

Lemma flags_of_data (cats : list (string * bool)) :
  map (fun kv : string * Value => (fst kv, truthy (snd kv)))
      (map (fun kv : string * bool => (fst kv, VBool (snd kv))) cats) = cats.
Proof.
  induction cats as [|[name enabled] cats IH]; [reflexivity|].
  cbn [map fst snd truthy]. now rewrite IH.
Qed.

(** For a caller that keeps to the data model the [try] block is
    [performSearch_try]. *)
Lemma performSearch_call_try_data (igFolder searchTerm : string) (cs ww : bool)
    (cats : list (string * bool)) (w : World) :
  performSearch_call_try h igFolder searchTerm (VBool cs) (VBool ww)
    (VObject (map (fun kv => (fst kv, VBool (snd kv))) cats)) w =
  performSearch_try h igFolder searchTerm cs ww cats w.
Proof.
  unfold performSearch_call_try, performSearch_try, bind, lift.
  cbn [truthy object_entries]. rewrite flags_of_data. reflexivity.
Qed.

(** With room on the stack, a call with a string and an options object
    of the data model is [performSearch]. *)
Lemma performSearch_call_data (igFolder searchTerm : string) (options : Options)
    (w : World) :
  callRoom h = true ->
  performSearch_call h igFolder (VString searchTerm) (optionsValue options) w =
  performSearch h igFolder searchTerm options w.
Proof.
  intros Hroom. unfold performSearch_call, performSearch, builtin_call, optionsValue.
  rewrite Hroom. cbn [param_default].
  destruct (is_empty searchTerm); cbn [orb]; [reflexivity|].
  unfold bind at 1. cbn [ret].
  destruct (is_empty (trim searchTerm)); [reflexivity|].
  unfold bind at 1. cbn [ret]. unfold try_catch.
  destruct options as [[cs|] [ww|] [cats|]];
    cbn [optCaseSensitive optWholeWords optCategories default app destructure get_own
         List.find fst snd String.eqb Ascii.eqb Bool.eqb];
    try rewrite performSearch_call_try_data; try reflexivity;
    rewrite <- (performSearch_call_try_data igFolder searchTerm _ _ [] w); reflexivity.
Qed.

End EntryFacts.

(** * The claims *)

Section Claims.
Import JSString JSRegExp JSValue Literal PatternFacts.

(** C5. For every search term, [createSearchPattern] returns a pattern
    (it never throws) whose source is the term with every regex syntax
    character escaped, wrapped in [\b] assertions exactly when
    [wholeWords] is set; the compiled pattern is the sequence of the
    term's characters as literals, so at every position it matches
    exactly a literal occurrence of the term (up to case without
    [caseSensitive], between word boundaries with [wholeWords]); the
    pattern carries the global flag, and the case-insensitive flag iff
    [caseSensitive] is false. *)
Theorem createSearchPattern_atoms (searchTerm : string) (caseSensitive wholeWords : bool) :
  exists re,
    createSearchPattern searchTerm caseSensitive wholeWords = Normal re /\
    source re = (if wholeWords then "\b" +:+ replace_escape searchTerm +:+ "\b"
                 else replace_escape searchTerm) /\
    atoms re = boundary_atoms wholeWords ++ map Lit (chars searchTerm)
                 ++ boundary_atoms wholeWords /\
    global re = true /\
    ignoreCase re = negb caseSensitive /\
    lastIndex re = O /\
    (forall prev rest,
        match_here (ignoreCase re) (atoms re) prev rest =
        if occurs_here (negb caseSensitive) wholeWords (chars searchTerm) prev rest
        then Some (length (chars searchTerm)) else None) /\
    (forall rest,
        prefix_of false (chars searchTerm) rest = true <->
        exists tail, rest = chars searchTerm ++ tail).
Proof.
  unfold createSearchPattern, new_RegExp.
  assert (Hflags : parse_flags (if caseSensitive then "g" else "gi") false false
                   = Normal (true, negb caseSensitive))
    by (destruct caseSensitive; reflexivity).
  rewrite Hflags. cbn [cbind]. rewrite parse_atoms_source. cbn [cbind].
  eexists. split; [reflexivity|]. cbn [source atoms global ignoreCase lastIndex fst snd].
  repeat split; try reflexivity.
  - intros prev rest. apply match_here_term.
  - apply prefix_of_exact.
  - apply prefix_of_exact.
Qed.

(** C7. For every project root, every categories and flags
    configuration and every search term that is empty or consists of
    white space only, [performSearch] returns exactly
    [{results: [], totalMatches: 0, error: null}] and performs no
    file-system call: the engine object and the trace of calls are left
    as they were. *)
Theorem performSearch_blank_term (h : Host) (igFolder searchTerm : string)
    (options : Options) (w : World) :
  blank searchTerm ->
  performSearch h igFolder searchTerm options w =
  (Normal {| results := []; totalMatches := 0; error := None; truncated := None |}, w).
Proof.
  intros Hblank.
  pose proof (performSearch_run h (this w) igFolder searchTerm options w eq_refl) as Hrun.
  now rewrite (blank_is_blank _ Hblank) in Hrun.
Qed.

Lemma performSearch_blank_term_witness :
  blank "   " /\
  performSearch (Fixtures.patientHost 8) "/ig" "   " Fixtures.pagesOnly Fixtures.world0 =
  (Normal {| results := []; totalMatches := 0; error := None; truncated := None |},
   Fixtures.world0).
Proof.
  assert (Hblank : blank "   ") by (repeat constructor).
  split; [exact Hblank|].
  exact (performSearch_blank_term (Fixtures.patientHost 8) "/ig" "   "
           Fixtures.pagesOnly Fixtures.world0 Hblank).
Defined.

(** C10. [performSearch] always returns a record. When it returns through
    the blank-term short-circuit, or through the handler of its [try]
    block, the property [truncated] is absent from the record; when the
    [try] block runs to its end the record holds [truncated] (and a
    [null] error). *)
Theorem performSearch_truncated_presence (h : Host) (igFolder searchTerm : string)
    (options : Options) (w : World) :
  exists r w',
    performSearch h igFolder searchTerm options w = (Normal r, w') /\
    if is_blank searchTerm
    then r = {| results := []; totalMatches := 0; error := None; truncated := None |}
    else
      match fst (performSearch_try h igFolder searchTerm
                   (default false (optCaseSensitive options))
                   (default false (optWholeWords options))
                   (default [] (optCategories options)) w) with
      | Throw e =>
          r = {| results := []; totalMatches := 0; error := Some (message e);
                 truncated := None |}
      | Normal _ => error r = None /\ exists b, truncated r = Some b
      end.
Proof.
  pose proof (performSearch_run h (this w) igFolder searchTerm options w eq_refl) as Hrun.
  destruct (is_blank searchTerm).
  - eexists _, _. split; [exact Hrun | reflexivity].
  - destruct (performSearch_try h igFolder searchTerm _ _ _ w) as [[r|e] w'].
    + destruct Hrun as (Hrun & (Herr & Htrunc & _) & _).
      exists r, w'. cbn [fst]. eauto.
    + destruct Hrun as (Hrun & _). eexists _, _. split; [exact Hrun | reflexivity].
Qed.

(** C4, as the code has it. For every project root, for a search term
    that is a string or has no truth value, and for options that are
    omitted or are not [null], when the call stack has room for the
    calls that [performSearch] makes in its own frame, and whatever the
    file-system calls do, [performSearch] returns a record and throws
    nothing: either a record without error, or the record
    [{results: [], totalMatches: 0, error: <message>}]. Whatever the
    [try] block (pattern construction, the entries of [categories], scan
    loop and sort) throws is caught and returned as that record with
    the message of the thrown error. *)
Theorem performSearch_never_throws (h : Host) (igFolder : string)
    (term options : Value) (w : World) :
  callRoom h = true ->
  options <> VNull ->
  (truthy term = true -> exists s, term = VString s) ->
  (exists r w',
      performSearch_call h igFolder term options w = (Normal r, w') /\
      (error r = None \/
       exists msg, r = {| results := []; totalMatches := 0; error := Some msg;
                          truncated := None |})) /\
  (forall s e w',
      term = VString s ->
      is_blank s = false ->
      performSearch_call_try h igFolder s
        (destructure (param_default options (VObject [])) "caseSensitive" (VBool false))
        (destructure (param_default options (VObject [])) "wholeWords" (VBool false))
        (destructure (param_default options (VObject [])) "categories" (VObject []))
        w = (Throw e, w') ->
      performSearch_call h igFolder term options w =
      (Normal {| results := []; totalMatches := 0; error := Some (message e);
                 truncated := None |}, w')).
Proof.
  intros Hroom Hnull Hterm.
  assert (Hcall : performSearch_call h igFolder term options w =
    match term with
    | VString s =>
        if is_blank s then (Normal emptyResult, w)
        else try_catch
               (performSearch_call_try h igFolder s
                  (destructure (param_default options (VObject [])) "caseSensitive"
                     (VBool false))
                  (destructure (param_default options (VObject [])) "wholeWords"
                     (VBool false))
                  (destructure (param_default options (VObject [])) "categories"
                     (VObject [])))
               (performSearch_catch) w
    | _ => (Normal emptyResult, w)
    end).
  { unfold performSearch_call, builtin_call, is_blank. rewrite Hroom.
    assert (Hopt : param_default options (VObject []) <> VNull)
      by (destruct options; cbn [param_default]; congruence).
    destruct (param_default options (VObject [])) as [| |ob|on| |os|oprops] eqn:Hdef;
      try congruence;
      (destruct term as [| |b|n| |s|props]; cbn [truthy] in *;
       [reflexivity | reflexivity
       | destruct b; [destruct (Hterm eq_refl); discriminate | reflexivity]
       | destruct (n =? 0); cbn [negb] in *;
           [reflexivity | destruct (Hterm eq_refl); discriminate]
       | reflexivity
       | destruct (is_empty s); cbn [orb]; [reflexivity|];
           unfold bind at 1; cbn [ret];
           destruct (is_empty (trim s)); reflexivity
       | destruct (Hterm eq_refl); discriminate]). }
  split.
  - rewrite Hcall. destruct term as [| |b|n| |s|props];
      try (eexists _, _; split; [reflexivity | now left]).
    destruct (is_blank s); [eexists _, _; split; [reflexivity | now left]|].
    unfold try_catch.
    destruct (performSearch_call_try h igFolder s _ _ _ w) as [[r|e] w'] eqn:Htry.
    + eexists _, _. split; [reflexivity|]. left.
      exact (performSearch_call_try_error h _ _ _ _ _ _ _ _ Htry).
    + eexists _, _. split; [reflexivity|]. right. now exists (message e).
  - intros s e w' -> Hblank Htry. rewrite Hcall, Hblank. unfold try_catch.
    now rewrite Htry.
Qed.

Lemma performSearch_never_throws_witness :
  exists w',
    performSearch_call (Fixtures.patientHost 8) "/ig" (VString "patient")
      (VObject [("categories", VNull)]) Fixtures.world0 =
    (Normal {| results := []; totalMatches := 0;
               error := Some "Cannot convert undefined or null to object";
               truncated := None |}, w').
Proof.
  eexists.
  apply (proj2 (performSearch_never_throws (Fixtures.patientHost 8) "/ig"
                  (VString "patient") (VObject [("categories", VNull)]) Fixtures.world0
                  eq_refl ltac:(discriminate) ltac:(intros _; now exists "patient"))
               "patient" (typeError "Cannot convert undefined or null to object")).
  - reflexivity.
  - reflexivity.
  - vm_compute. reflexivity.
Defined.

(** C4 fails as stated: [performSearch] throws (its promise is rejected)
    for a term that is a number, for options that are [null], and for a
    call stack without room for the call of [trim]. *)
Lemma performSearch_rejects_arguments :
  (exists w',
      performSearch_call (Fixtures.patientHost 8) "/ig" (VNumber 42) VUndefined
        Fixtures.world0 =
      (Throw (typeError "searchTerm.trim is not a function"), w')) /\
  (exists e w',
      performSearch_call (Fixtures.patientHost 8) "/ig" (VString "patient") VNull
        Fixtures.world0 = (Throw e, w') /\ errName e = "TypeError") /\
  (exists w',
      performSearch_call (Fixtures.withoutRoom (Fixtures.patientHost 8)) "/ig"
        (VString "patient") (optionsValue Fixtures.pagesOnly) Fixtures.world0 =
      (Throw rangeError, w')).
Proof.
  split; [|split].
  - eexists. reflexivity.
  - eexists _, _. split; reflexivity.
  - eexists. reflexivity.
Qed.

(** C1, as the code has it. For every search on an engine with the
    budget of 200 that returns without error, the returned list holds
    at most 200 files, and whenever the returned files hold more than
    200 matching lines between them, the [truncated] flag is true. The
    budget caps the number of files, not [totalMatches]. *)
Theorem performSearch_budget (h : Host) (igFolder searchTerm : string)
    (options : Options) (w w' : World) (r : SearchResult) :
  sort_permutes h ->
  maxResults (this w) = 200 ->
  performSearch h igFolder searchTerm options w = (Normal r, w') ->
  error r = None ->
  (length (results r) <= 200)%nat /\
  (200 < sumMatchLines (results r) -> truncated r = Some true).
Proof.
  intros Hsort Hmax Hrun Herr.
  assert (Hroom : 0 <= maxResults (this w)) by lia.
  destruct (performSearch_all_collected h igFolder searchTerm options w w' r Hsort Hroom Hrun)
    as (Htot & Hlen & _).
  split; [lia|]. intros Hover.
  destruct (performSearch_outcomes h igFolder searchTerm options w w' r Hrun)
    as [-> | [[e ->] | Hout]]; try discriminate.
  destruct Hout as (_ & -> & _). f_equal. apply Z.gtb_lt. lia.
Qed.

Lemma performSearch_budget_witness :
  exists r w',
    performSearch Fixtures.longPageHost "/ig" "x" Fixtures.pagesOnly Fixtures.world0
    = (Normal r, w') /\
    sumMatchLines (results r) = 201 /\
    (length (results r) <= 200)%nat /\
    truncated r = Some true.
Proof.
  eexists _, _. split; [vm_compute; reflexivity|]. split; [reflexivity|].
  edestruct (performSearch_budget Fixtures.longPageHost "/ig" "x" Fixtures.pagesOnly
               Fixtures.world0) as (Hlen & Hflag).
  - apply example_host_sort_permutes.
  - reflexivity.
  - vm_compute. reflexivity.
  - reflexivity.
  - split; [exact Hlen|]. apply Hflag. reflexivity.
Defined.

(** C1 fails as stated, in both of its parts. A page with 201 lines that
    each hold the term once gives a search without error whose
    [totalMatches] is 201. And with 201 pages of one matching line each,
    the true total is 201, but the scan stops after 200 files: the
    search returns the first 200 pages without error, a [totalMatches]
    of 200, and a [truncated] flag that is false. *)
Lemma performSearch_total_over_budget :
  (exists r w',
      performSearch Fixtures.longPageHost "/ig" "x" Fixtures.pagesOnly Fixtures.world0
      = (Normal r, w') /\
      error r = None /\ totalMatches r = 201 /\ ~ totalMatches r <= 200) /\
  match createSearchPattern "x" false false,
        fst (performSearch Fixtures.manyPagesHost "/ig" "x" Fixtures.pagesOnly
               Fixtures.world0) with
  | Normal pattern, Normal r =>
      error r = None /\
      trueTotal Fixtures.manyPagesHost "/ig" pattern [("inputPages", true)] = 201 /\
      map fileName (results r) = take 200 (Fixtures.pageNames 201) /\
      totalMatches r = 200 /\
      truncated r = Some false /\
      ~ (200 < trueTotal Fixtures.manyPagesHost "/ig" pattern [("inputPages", true)] ->
         truncated r = Some true)
  | _, _ => False
  end.
Proof.
  split.
  - eexists _, _. split; [vm_compute; reflexivity|].
    cbn [error totalMatches]. repeat split. lia.
  - vm_compute. repeat split. intros Hflag. specialize (Hflag eq_refl). discriminate.
Qed.

(** C2, as the code has it. For every search that returns a record (on
    an engine whose budget is not negative), [totalMatches] equals the
    number of [LineMatch] entries, one for each matching line, of all
    the files of the returned list. It is at most the sum of
    [matchCount] over these entries, and equal to it exactly when every
    returned line holds a single match. *)
Theorem performSearch_totalMatches (h : Host) (igFolder searchTerm : string)
    (options : Options) (w w' : World) (r : SearchResult) :
  sort_permutes h ->
  0 <= maxResults (this w) ->
  performSearch h igFolder searchTerm options w = (Normal r, w') ->
  totalMatches r = sumMatchLines (results r) /\
  totalMatches r <= sumMatchCounts (results r) /\
  (totalMatches r = sumMatchCounts (results r) <->
   Forall (fun f => Forall (fun m => matchCount m = 1) (matches f)) (results r)).
Proof.
  intros Hsort Hmax Hrun.
  destruct (performSearch_all_collected h igFolder searchTerm options w w' r Hsort Hmax Hrun)
    as (Htot & _ & Hwf).
  rewrite Htot. split; [reflexivity|].
  split; [now apply wellFormed_lines_le_counts | now apply wellFormed_lines_eq_counts].
Qed.

Lemma performSearch_totalMatches_witness :
  exists r w',
    performSearch Fixtures.twiceHost "/ig" "foo" Fixtures.pagesOnly Fixtures.world0
    = (Normal r, w') /\
    totalMatches r = 1 /\
    totalMatches r = sumMatchLines (results r) /\
    totalMatches r <= sumMatchCounts (results r).
Proof.
  eexists _, _. split; [vm_compute; reflexivity|]. split; [reflexivity|].
  edestruct (performSearch_totalMatches Fixtures.twiceHost "/ig" "foo" Fixtures.pagesOnly
               Fixtures.world0) as (Htot & Hle & _).
  - apply example_host_sort_permutes.
  - vm_compute. discriminate.
  - vm_compute. reflexivity.
  - split; [exact Htot | exact Hle].
Defined.

(** C2 fails as stated: for a page whose only line holds the term twice,
    [totalMatches] is 1 while the sum of [matchCount] over the returned
    list is 2. *)
Lemma performSearch_total_counts_lines :
  exists r w',
    performSearch Fixtures.twiceHost "/ig" "foo" Fixtures.pagesOnly Fixtures.world0
    = (Normal r, w') /\
    error r = None /\
    totalMatches r = 1 /\ sumMatchCounts (results r) = 2 /\
    totalMatches r <> sumMatchCounts (results r).
Proof.
  eexists _, _. split; [vm_compute; reflexivity|].
  vm_compute. repeat split. discriminate.
Qed.

(** C3, as the code has it. [performSearch] does not write to the state
    store: after the call the engine object, and with it the stored
    state of every project, is what it was before. A state saved with
    [saveSearchState] is the one the store then holds for the project,
    and after [clearOutputResults] the stored results are the previously
    stored list without the entries whose category starts with
    [output]. *)
Theorem performSearch_leaves_store (h : Host) (igFolder searchTerm : string)
    (options : Options) (w : World) :
  this (snd (performSearch h igFolder searchTerm options w)) = this w /\
  (forall state,
      storedState (this (snd (saveSearchState igFolder state w))) igFolder = state) /\
  stateResults (storedState (this (snd (clearOutputResults igFolder w))) igFolder) =
  List.filter (fun result => negb (startsWith (category result) "output"))
              (stateResults (storedState (this w) igFolder)).
Proof.
  split; [|split].
  - pose proof (performSearch_run h (this w) igFolder searchTerm options w eq_refl) as Hrun.
    destruct (is_blank searchTerm); [now rewrite Hrun|].
    destruct (performSearch_try h igFolder searchTerm _ _ _ w) as [[r|e] w'].
    + destruct Hrun as (-> & _ & Hthis). exact Hthis.
    + destruct Hrun as (-> & Hthis). exact Hthis.
  - intros state. unfold saveSearchState, bind, get_this, set_this, storedState.
    cbn [snd this set_searchStates searchStates]. now rewrite lookup_insert_eq.
  - destruct (clearOutputResults_run igFolder w) as (w' & -> & Hlookup & _).
    cbn [snd]. unfold storedState at 1. now rewrite Hlookup.
Qed.

(** C3 fails as stated: after a search that returns two files, the
    engine holds no state for the project, and the state
    [getSearchState] then gives has an empty [results]. *)
Lemma performSearch_does_not_store :
  exists r w',
    performSearch (Fixtures.patientHost 8) "/ig" "patient" Fixtures.pagesOnly Fixtures.world0
    = (Normal r, w') /\
    length (results r) = 2%nat /\
    searchStates (this w') !! "/ig" = None /\
    (exists st w'', getSearchState "/ig" w' = (Normal st, w'') /\ stateResults st = []) /\
    stateResults (storedState (this w') "/ig") <> results r.
Proof.
  eexists _, _. split; [vm_compute; reflexivity|].
  split; [reflexivity|]. split; [reflexivity|]. split.
  - eexists _, _. split; reflexivity.
  - vm_compute. discriminate.
Qed.

(** C6. For every project root and every stored result list whose
    entries carry category names of the data model,
    [clearOutputResults] (the operation [invalidateOutput]) returns
    normally and leaves for that project a state whose results are the
    previous ones, in order, without exactly those of category
    [outputResources] or [outputHtml]; [searchTerm], [caseSensitive],
    [wholeWords] and the [categories] mapping (and [lastSearchTime]) are
    unchanged. *)
Theorem clearOutputResults_removes_output (igFolder : string) (w : World) :
  Forall (fun result => isCategory (category result) = true)
         (stateResults (storedState (this w) igFolder)) ->
  exists w',
    clearOutputResults igFolder w = (Normal tt, w') /\
    searchStates (this w') !! igFolder = Some (storedState (this w') igFolder) /\
    stateResults (storedState (this w') igFolder) =
      List.filter (fun result => negb (isOutputCategory (category result)))
                  (stateResults (storedState (this w) igFolder)) /\
    searchTerm (storedState (this w') igFolder)
      = searchTerm (storedState (this w) igFolder) /\
    caseSensitive (storedState (this w') igFolder)
      = caseSensitive (storedState (this w) igFolder) /\
    wholeWords (storedState (this w') igFolder)
      = wholeWords (storedState (this w) igFolder) /\
    categories (storedState (this w') igFolder)
      = categories (storedState (this w) igFolder) /\
    lastSearchTime (storedState (this w') igFolder)
      = lastSearchTime (storedState (this w) igFolder).
Proof.
  intros Hcats.
  destruct (clearOutputResults_run igFolder w) as (w' & Hrun & Hlookup & _).
  exists w'. split; [exact Hrun|].
  unfold storedState at 1 2 4 6 8 10 12. rewrite Hlookup. cbn [default].
  split; [reflexivity|].
  cbn [set_results stateResults searchTerm caseSensitive wholeWords categories
       lastSearchTime].
  split; [now apply filter_output_categories | auto 10].
Qed.

Lemma clearOutputResults_removes_output_witness :
  exists w',
    clearOutputResults "/ig" Fixtures.storedWorld = (Normal tt, w') /\
    stateResults (storedState (this w') "/ig") =
      [Fixtures.sampleFile "a.md" "inputPages"; Fixtures.sampleFile "c.fsh" "fsh"] /\
    searchTerm (storedState (this w') "/ig") = "hit" /\
    caseSensitive (storedState (this w') "/ig") = true.
Proof.
  assert (Hcats : Forall (fun result => isCategory (category result) = true)
                    (stateResults (storedState (this Fixtures.storedWorld) "/ig")))
    by (vm_compute; repeat constructor).
  destruct (clearOutputResults_removes_output "/ig" Fixtures.storedWorld Hcats)
    as (w' & Hrun & _ & Hres & Hterm & Hcase & _).
  exists w'. split; [exact Hrun|]. split; [exact Hres|]. split; [exact Hterm | exact Hcase].
Defined.

(** C9. For every project root and category name, [getCategoryPaths]
    returns normally, and returns exactly the locations that the table
    of section 4.2 gives for that category, in table order, that exist
    on disk; when none of them exists the result is the empty list. *)
Theorem getCategoryPaths_table (h : Host) (igFolder categoryName : string) (w : World) :
  exists w',
    getCategoryPaths h igFolder categoryName w =
    (Normal (List.filter (fun loc => existsSync h (path loc))
                         (tableLocations h igFolder categoryName)), w') /\
    (Forall (fun loc => existsSync h (path loc) = false)
            (tableLocations h igFolder categoryName) ->
     getCategoryPaths h igFolder categoryName w = (Normal [], w')).
Proof.
  assert (Hrun : exists w',
             getCategoryPaths h igFolder categoryName w =
             (Normal (List.filter (fun loc => existsSync h (path loc))
                                  (tableLocations h igFolder categoryName)), w')).
  { unfold getCategoryPaths, categorySwitch.
    destruct (String.eqb categoryName "fsh") eqn:E1;
      [|destruct (String.eqb categoryName "inputResources") eqn:E2;
        [|destruct (String.eqb categoryName "inputPages") eqn:E3;
          [|destruct (String.eqb categoryName "translations") eqn:E4;
            [|destruct (String.eqb categoryName "outputResources") eqn:E5;
              [|destruct (String.eqb categoryName "outputHtml") eqn:E6]]]]];
      unfold tableLocations, table_4_2; cbn [List.filter fst snd map];
      rewrite ?E1, ?E2, ?E3, ?E4, ?E5, ?E6;
      try (match goal with
           | E : String.eqb categoryName _ = true |- _ =>
               apply String.eqb_eq in E; subst categoryName
           end);
      cbn [List.filter fst snd map String.eqb Ascii.eqb Bool.eqb];
      cbv [bind fs_existsSync record_call ret];
      try (destruct (existsSync h (path_join h [igFolder; "fsh-generated"])) eqn:Egen);
      match goal with
      | |- exists w', filterExisting h ?paths ?w0 = _ =>
          destruct (filterExisting_run h paths w0) as (w' & Hw' & _);
          exists w'; rewrite Hw'
      end;
      cbn [List.filter path]; rewrite ?Egen; reflexivity. }
  destruct Hrun as (w' & Hrun). exists w'. split; [exact Hrun|].
  intros Hnone. rewrite Hrun. now rewrite (filter_none _ _ Hnone).
Qed.

Lemma getCategoryPaths_table_witness :
  exists w',
    getCategoryPaths Fixtures.emptyHost "/ig" "fsh" Fixtures.world0 = (Normal [], w').
Proof.
  destruct (getCategoryPaths_table Fixtures.emptyHost "/ig" "fsh" Fixtures.world0)
    as (w' & _ & Hnone).
  exists w'. apply Hnone. vm_compute. repeat constructor.
Defined.

(** C8 does not hold of the code. The comparator calls [test] on a
    pattern with the global flag, which resumes at the [lastIndex] left
    by the previous call. With two pages whose names both match
    [patient], the comparator puts its first argument first whichever
    way round it is asked, and the search returns the page with one
    matching line before the page with two. *)
Theorem performSearch_ranking_failure :
  exists pattern r w' fewer more,
    createSearchPattern "patient" false false = Normal pattern /\
    performSearch (Fixtures.patientHost 8) "/ig" "patient" Fixtures.pagesOnly Fixtures.world0
    = (Normal r, w') /\
    error r = None /\
    results r = [fewer; more] /\
    fileName fewer = "patient-b.md" /\ fileName more = "patient-a.md" /\
    fst (test pattern (path_basename (Fixtures.patientHost 8) (filePath fewer))) = true /\
    fst (test pattern (path_basename (Fixtures.patientHost 8) (filePath more))) = true /\
    length (matches fewer) = 1%nat /\ length (matches more) = 2%nat /\
    fst (compareResults (Fixtures.patientHost 8) fewer more pattern) = -1 /\
    fst (compareResults (Fixtures.patientHost 8) more fewer pattern) = -1.
Proof.
  eexists _, _, _, _, _.
  split; [vm_compute; reflexivity|].
  split; [vm_compute; reflexivity|].
  split; [reflexivity|].
  split; [reflexivity|].
  repeat split; vm_compute; reflexivity.
Qed.

End Claims.

(** * Further properties of the engine *)

Section StateStoreProperties.

Lemma filter_filter {X} (f : X -> bool) (l : list X) :
  List.filter f (List.filter f l) = List.filter f l.
Proof.
  induction l as [|x l IH]; [reflexivity|]. cbn [List.filter].
  destruct (f x) eqn:Hx; [|exact IH]. cbn [List.filter]. now rewrite Hx, IH.
Qed.

Lemma filter_length_le {X} (f : X -> bool) (l : list X) :
  (length (List.filter f l) <= length l)%nat.
Proof.
  induction l as [|x l IH]; [reflexivity|]. cbn [List.filter].
  destruct (f x); cbn [length]; lia.
Qed.

Lemma filter_all_pass {X} (f : X -> bool) (l : list X) :
  Forall (fun x => f x = true) (List.filter f l).
Proof.
  induction l as [|x l IH]; [constructor|]. cbn [List.filter].
  destruct (f x) eqn:Hx; [constructor|]; auto.
Qed.

Lemma world_eta (w : World) :
  {| this := {| maxResults := maxResults (this w);
                searchStates := searchStates (this w);
                currentIgFolder := currentIgFolder (this w) |};
     fsTrace := fsTrace w |} = w.
Proof. destruct w as [[] ?]. reflexivity. Qed.

Lemma save_stored_state (igFolder : string) (st : SearchState) (w : World) :
  searchStates (this w) !! igFolder = Some st ->
  saveSearchState igFolder st w = (Normal tt, w).
Proof.
  intros Hst. unfold saveSearchState, bind, get_this, set_this, set_searchStates.
  rewrite (insert_id _ _ _ Hst). now rewrite world_eta.
Qed.

(** X1. [getSearchState] never throws. For a project that has a state it
    returns that state and changes nothing; for a project that has none
    it returns the default state and stores it. Either way the project
    has the returned state afterwards, the states of the other projects
    and the rest of the engine are as before, a second call returns the
    same state and changes nothing more, and saving the returned state
    back is a no-op. *)
Theorem getSearchState_lazy (igFolder : string) (w : World) :
  exists st w',
    getSearchState igFolder w = (Normal st, w') /\
    match searchStates (this w) !! igFolder with
    | Some stored => st = stored /\ w' = w
    | None => st = defaultState
    end /\
    searchStates (this w') !! igFolder = Some st /\
    delete igFolder (searchStates (this w')) = delete igFolder (searchStates (this w)) /\
    maxResults (this w') = maxResults (this w) /\
    currentIgFolder (this w') = currentIgFolder (this w) /\
    fsTrace w' = fsTrace w /\
    getSearchState igFolder w' = (Normal st, w') /\
    saveSearchState igFolder st w' = (Normal tt, w').
Proof.
  unfold getSearchState at 1. unfold bind, get_this, set_this, ret.
  destruct (searchStates (this w) !! igFolder) as [stored|] eqn:Hst.
  - exists stored, w. repeat split; try assumption.
    + unfold getSearchState, bind, get_this, ret. now rewrite Hst.
    + now apply save_stored_state.
  - eexists _, _. split; [reflexivity|].
    cbn [this fsTrace set_searchStates searchStates maxResults currentIgFolder].
    assert (Hnew : (<[igFolder := defaultState]> (searchStates (this w)) : gmap string SearchState)
                     !! igFolder = Some defaultState) by apply lookup_insert_eq.
    repeat split; try assumption.
    + apply delete_insert_eq.
    + unfold getSearchState, bind, get_this, ret.
      cbn [this set_searchStates searchStates]. now rewrite Hnew.
    + now apply save_stored_state.
Qed.

(** X2. [saveSearchState] never throws and replaces the state of the
    project: [getSearchState] then returns exactly the saved state
    without changing anything, the states of the other projects and the
    rest of the engine are as before, and of two saves for one project
    the last one wins. *)
Theorem saveSearchState_roundtrip (igFolder : string) (state state2 : SearchState)
    (w : World) :
  exists w1,
    saveSearchState igFolder state w = (Normal tt, w1) /\
    getSearchState igFolder w1 = (Normal state, w1) /\
    delete igFolder (searchStates (this w1)) = delete igFolder (searchStates (this w)) /\
    maxResults (this w1) = maxResults (this w) /\
    currentIgFolder (this w1) = currentIgFolder (this w) /\
    fsTrace w1 = fsTrace w /\
    saveSearchState igFolder state2 w1 = saveSearchState igFolder state2 w.
Proof.
  eexists. split; [reflexivity|].
  cbn [this fsTrace set_searchStates searchStates maxResults currentIgFolder].
  repeat split.
  - unfold getSearchState, bind, get_this, ret.
    cbn [this set_searchStates searchStates]. now rewrite lookup_insert_eq.
  - apply delete_insert_eq.
  - unfold saveSearchState, bind, get_this, set_this, set_searchStates.
    cbn [this fsTrace searchStates maxResults currentIgFolder].
    now rewrite insert_insert_eq.
Qed.

Lemma set_results_same (st : SearchState) : set_results st (stateResults st) = st.
Proof. now destruct st. Qed.

(** X3. [clearOutputResults] never throws and always leaves a state for
    the project (the default one, with no results, for a project never
    seen). Afterwards no stored result of the project has a category
    that starts with [output], no result was added, no file-system call
    was made, and running it again changes nothing. *)
Theorem clearOutputResults_idempotent (igFolder : string) (w : World) :
  exists w1,
    clearOutputResults igFolder w = (Normal tt, w1) /\
    is_Some (searchStates (this w1) !! igFolder) /\
    Forall (fun r => JSString.startsWith (category r) "output" = false)
           (stateResults (storedState (this w1) igFolder)) /\
    (length (stateResults (storedState (this w1) igFolder))
     <= length (stateResults (storedState (this w) igFolder)))%nat /\
    match searchStates (this w) !! igFolder with
    | Some _ => True
    | None => storedState (this w1) igFolder = defaultState
    end /\
    fsTrace w1 = fsTrace w /\
    clearOutputResults igFolder w1 = (Normal tt, w1).
Proof.
  destruct (clearOutputResults_run igFolder w) as (w1 & Hrun & Hlookup & _ & _ & Htrace).
  exists w1. split; [exact Hrun|].
  assert (Hstored : storedState (this w1) igFolder =
                    set_results (storedState (this w) igFolder)
                      (List.filter (fun r => negb (JSString.startsWith (category r) "output"))
                                   (stateResults (storedState (this w) igFolder)))).
  { unfold storedState at 1. now rewrite Hlookup. }
  split; [rewrite Hlookup; eauto|].
  rewrite Hstored. cbn [set_results stateResults].
  split.
  { eapply Forall_impl; [apply filter_all_pass|]. cbn beta.
    intros r Hr. now apply negb_true_iff. }
  split; [apply filter_length_le|].
  split.
  { unfold storedState. destruct (searchStates (this w) !! igFolder); [exact I|reflexivity]. }
  split; [exact Htrace|].
  unfold clearOutputResults, getSearchState.
  unfold bind at 1 2. unfold get_this at 1. cbn [ret]. rewrite Hlookup. cbn [ret].
  cbn [set_results stateResults searchTerm caseSensitive wholeWords categories lastSearchTime].
  rewrite filter_filter.
  apply save_stored_state. exact Hlookup.
Qed.

End StateStoreProperties.

Section ProbeAndWalkProperties.
Import JSString.

Variable h : Host.

Lemma fs_existsSync_run (p : string) (w : World) :
  fs_existsSync h p w =
  (Normal (existsSync h p), {| this := this w; fsTrace := fsTrace w ++ [ExistsSync p] |}).
Proof. reflexivity. Qed.

Lemma fs_statSync_run (p : string) (w : World) :
  fs_statSync h p w =
  (statSync h p, {| this := this w; fsTrace := fsTrace w ++ [StatSync p] |}).
Proof. reflexivity. Qed.

Lemma fs_readdirSync_run (p : string) (w : World) :
  fs_readdirSync h p w =
  (readdirSync h p, {| this := this w; fsTrace := fsTrace w ++ [ReaddirSync p] |}).
Proof. reflexivity. Qed.

Lemma fs_readFileSync_run (p : string) (w : World) :
  fs_readFileSync h p w =
  (readFileSync h p, {| this := this w; fsTrace := fsTrace w ++ [ReadFileSync p] |}).
Proof. reflexivity. Qed.

Lemma fs_readFileBuffer_run (p : string) (w : World) :
  fs_readFileBuffer h p w =
  (readFileBuffer h p, {| this := this w; fsTrace := fsTrace w ++ [ReadFileBuffer p] |}).
Proof. reflexivity. Qed.

(** X4. [getCategoryAvailability] never throws, whatever the file
    system does, and leaves the engine object as it is. It reports [fsh]
    exactly when [sushi-config.yaml] exists in the project folder,
    always reports [inputResources], [inputPages] and [translations],
    and reports [outputResources] and [outputHtml] together, exactly
    when [output] exists and [statSync] returns it as a directory (a
    throwing [statSync] counts as not available). *)
Theorem getCategoryAvailability_probe (igFolder : string) (w : World) :
  exists av w',
    getCategoryAvailability h igFolder w = (Normal av, w') /\
    this w' = this w /\
    fsh av = existsSync h (path_join h [igFolder; "sushi-config.yaml"]) /\
    inputResources av = true /\ inputPages av = true /\ translations av = true /\
    outputHtml av = outputResources av /\
    outputResources av =
      existsSync h (path_join h [igFolder; "output"])
      && match statSync h (path_join h [igFolder; "output"]) with
         | Normal outputStats => isDirectory outputStats
         | Throw _ => false
         end.
Proof.
  unfold getCategoryAvailability, availabilityTry.
  rewrite !fs_existsSync_run.
  destruct (existsSync h (path_join h [igFolder; "output"])).
  - rewrite fs_statSync_run.
    destruct (statSync h (path_join h [igFolder; "output"])) as [st|e].
    + destruct (isDirectory st); eexists _, _; repeat split.
    + eexists _, _; repeat split.
  - eexists _, _; repeat split.
Qed.

(** *** File walker *)

Lemma walkItems_listed (root : string) (exts : list string) (rec : bool)
    (recurse : string -> M (list string)) (dirPath : string) (listing : list string) :
  descends h rec root dirPath ->
  walked h dirPath listing ->
  (forall p, descends h rec root p -> forall w,
      match recurse p w with
      | (Normal found, _) => Forall (listedFile h exts rec root) found
      | (Throw _, _) => True
      end) ->
  forall items files w,
    (forall item, In item items -> In item listing) ->
    Forall (listedFile h exts rec root) files ->
    Forall (listedFile h exts rec root)
           (fst (fst (walkItems h recurse dirPath exts rec items files w))).
Proof.
  intros Hdir Hlist Hrec. induction items as [|item items IH]; intros files w Hsub Hfiles.
  - exact Hfiles.
  - assert (Hitem : In item listing) by (apply Hsub; now left).
    assert (Hsub' : forall i, In i items -> In i listing) by (intros i Hi; apply Hsub; now right).
    cbn [walkItems]. rewrite fs_statSync_run.
    destruct (statSync h (path_join h [dirPath; item])) as [stat|e] eqn:Hstat;
      [|now apply IH].
    destruct (isFile stat) eqn:Hfile.
    { destruct (_ || _) eqn:Hext; [|now apply IH].
      apply IH; [exact Hsub'|]. apply Forall_app. split; [exact Hfiles|].
      constructor; [|constructor].
      exists dirPath, listing, item, stat. auto 10. }
    destruct (isDirectory stat) eqn:Hisdir; cbn [andb]; [|now apply IH].
    destruct rec eqn:Hflag; [|now apply IH].
    destruct (shouldSkipDirectory item) eqn:Hskip; cbn [negb]; [now apply IH|].
    assert (Hchild : descends h true root (path_join h [dirPath; item]))
      by (eapply descends_child; eauto).
    specialize (Hrec _ Hchild {| this := this w;
                                 fsTrace := fsTrace w ++ [StatSync (path_join h [dirPath; item])] |}).
    destruct (recurse _ _) as [[found|e] w2].
    + apply IH; [exact Hsub'|]. apply Forall_app. now split.
    + exact Hfiles.
Qed.

Lemma findFilesInPath_listed (root : string) (exts : list string) (rec : bool)
    (depth : nat) :
  forall dirPath, descends h rec root dirPath -> forall w,
    match findFilesInPath h depth dirPath exts rec w with
    | (Normal files, _) => Forall (listedFile h exts rec root) files
    | (Throw _, _) => True
    end.
Proof.
  induction depth as [|depth IH]; intros dirPath Hdir w; [exact I|].
  cbn [findFilesInPath]. unfold bind. rewrite fs_existsSync_run.
  destruct (existsSync h dirPath) eqn:Hexists; cbn [negb]; [|constructor].
  rewrite fs_readdirSync_run.
  destruct (readdirSync h dirPath) as [items|e] eqn:Hitems; [|constructor].
  pose proof (walkItems_listed root exts rec
                (fun p => findFilesInPath h depth p exts rec) dirPath items Hdir
                (conj Hexists Hitems) IH items []
                {| this := this w;
                   fsTrace := (fsTrace w ++ [ExistsSync dirPath]) ++ [ReaddirSync dirPath] |}
                (fun _ Hin => Hin) (List.Forall_nil _)) as Hwalk.
  cbn [this fsTrace] in *.
  destruct (walkItems h _ dirPath exts rec items [] _) as [[files c] w2]. exact Hwalk.
Qed.

(** X5. Every path returned by [findFilesInPath] is the join of a
    directory and of a name that [readdirSync] lists in it, where the
    directory exists and is the one asked for or, with the recursive
    flag, one reached from it by entering, listing after listing, only
    entries that [statSync] reports as directories and whose names
    [shouldSkipDirectory] does not prune; the path is a regular file
    according to [statSync], and the extension of the name passes the
    test (an empty extension list, or the lower-cased extension in the
    list). The call throws only when the call stack has no room for
    it. *)
Theorem findFilesInPath_sound (depth : nat) (dirPath : string) (exts : list string)
    (rec : bool) (w : World) :
  match fst (findFilesInPath h depth dirPath exts rec w) with
  | Normal files => Forall (listedFile h exts rec dirPath) files
  | Throw _ => depth = O
  end.
Proof.
  destruct depth as [|depth].
  - reflexivity.
  - pose proof (findFilesInPath_listed dirPath exts rec (S depth) dirPath
                  (descends_root h rec dirPath) w) as Hlisted.
    destruct (safe_findFilesInPath h depth dirPath exts rec w) as (files & w' & Hrun).
    rewrite Hrun in Hlisted |- *. exact Hlisted.
Qed.

(** X6. With room on the call stack, [findFilesInPath] never throws and
    leaves the engine object as it is. A directory that does not exist
    gives the empty list after the single [existsSync] call; a directory
    that [readdirSync] cannot list gives the empty list as well. *)
Theorem findFilesInPath_contains_errors (depth : nat) (dirPath : string)
    (exts : list string) (rec : bool) (w : World) :
  exists files w',
    findFilesInPath h (S depth) dirPath exts rec w = (Normal files, w') /\
    this w' = this w /\
    if existsSync h dirPath then
      match readdirSync h dirPath with
      | Throw _ =>
          files = [] /\
          fsTrace w' = fsTrace w ++ [ExistsSync dirPath; ReaddirSync dirPath]
      | Normal _ => True
      end
    else files = [] /\ fsTrace w' = fsTrace w ++ [ExistsSync dirPath].
Proof.
  destruct (safe_findFilesInPath h depth dirPath exts rec w) as (files & w' & Hrun).
  exists files, w'. split; [exact Hrun|].
  pose proof (hoare_findFilesInPath h (this w) (S depth) dirPath exts rec w eq_refl) as Hthis.
  rewrite Hrun in Hthis. split; [now destruct Hthis|].
  revert Hrun. cbn [findFilesInPath]. unfold bind. rewrite fs_existsSync_run.
  destruct (existsSync h dirPath); cbn [negb].
  - rewrite fs_readdirSync_run. destruct (readdirSync h dirPath) as [items|e]; [easy|].
    intros [= <- <-]. cbn [fsTrace]. now rewrite <- app_assoc.
  - intros [= <- <-]. auto.
Qed.

Lemma walkItems_flat (r1 r2 : string -> M (list string)) (dirPath : string)
    (exts : list string) :
  forall items files w,
    walkItems h r1 dirPath exts false items files w =
    walkItems h r2 dirPath exts false items files w.
Proof.
  induction items as [|item items IH]; intros files w; [reflexivity|].
  cbn [walkItems]. destruct (fs_statSync h _ w) as [[stat|e] w1]; [|apply IH].
  destruct (isFile stat); [destruct (_ || _); apply IH|].
  rewrite andb_false_r. apply IH.
Qed.

Lemma walkItems_children (recurse : string -> M (list string)) (dirPath : string)
    (exts : list string) (P : string -> Prop) :
  forall items files w,
    Forall (fun item => P (path_join h [dirPath; item])) items ->
    Forall P files ->
    Forall P (fst (fst (walkItems h recurse dirPath exts false items files w))).
Proof.
  induction items as [|item items IH]; intros files w Hitems Hfiles; [exact Hfiles|].
  apply Forall_cons in Hitems as [Hitem Hitems].
  cbn [walkItems]. destruct (fs_statSync h _ w) as [[stat|e] w1]; [|now apply IH].
  destruct (isFile stat).
  - destruct (_ || _); [|now apply IH].
    apply IH; [exact Hitems|]. apply Forall_app. split; [exact Hfiles|]. now constructor.
  - rewrite andb_false_r. now apply IH.
Qed.

(** X7. Without the recursive flag [findFilesInPath] does not descend:
    the result does not depend on the room on the call stack, and every
    returned path is a direct entry of the directory, joined to it. *)
Theorem findFilesInPath_flat (depth : nat) (dirPath : string) (exts : list string)
    (w : World) :
  findFilesInPath h (S depth) dirPath exts false w =
  findFilesInPath h 1 dirPath exts false w /\
  exists files w',
    findFilesInPath h 1 dirPath exts false w = (Normal files, w') /\
    Forall (fun f => exists item,
                f = path_join h [dirPath; item] /\
                match readdirSync h dirPath with
                | Normal items => In item items
                | Throw _ => False
                end) files.
Proof.
  split.
  - cbn [findFilesInPath]. unfold bind. destruct (fs_existsSync h dirPath w) as [[present|e] w1];
      [|reflexivity].
    destruct (negb present); [reflexivity|].
    destruct (fs_readdirSync h dirPath w1) as [[items|e] w2]; [|reflexivity].
    now rewrite (walkItems_flat _ (fun p => findFilesInPath h 0 p exts false)).
  - cbn [findFilesInPath]. unfold bind. rewrite fs_existsSync_run.
    destruct (existsSync h dirPath); cbn [negb]; [|eexists _, _; split; [reflexivity|constructor]].
    rewrite fs_readdirSync_run.
    destruct (readdirSync h dirPath) as [items|e] eqn:Hitems;
      [|eexists _, _; split; [reflexivity|constructor]].
    pose proof (walkItems_children (fun p => findFilesInPath h 0 p exts false) dirPath exts
                  (fun f => exists item, f = path_join h [dirPath; item] /\ In item items)
                  items []
                  {| this := this w;
                     fsTrace := (fsTrace w ++ [ExistsSync dirPath]) ++ [ReaddirSync dirPath] |})
      as Hwalk.
    cbn [this fsTrace] in *.
    destruct (walkItems h _ dirPath exts false items [] _) as [[files c] w2].
    eexists _, _. split; [reflexivity|]. apply Hwalk; [|constructor].
    apply Forall_forall. intros item Hin. exists item. split; [reflexivity|].
    now apply list_elem_of_In.
Qed.

End ProbeAndWalkProperties.

Section FilterProperties.
Import JSString.

Variable h : Host.

Lemma substring0_min (n : nat) (s : string) :
  substring0 (Nat.min n (String.length s)) s = substring0 n s.
Proof.
  revert n. induction s as [|c s IH]; intros [|n]; try reflexivity.
  cbn [String.length Nat.min substring0]. now rewrite IH.
Qed.

Lemma take_min_length {X} (n : nat) (l : list X) : take (Nat.min n (length l)) l = take n l.
Proof.
  destruct (Nat.le_ge_cases n (length l)) as [Hle|Hge].
  - now rewrite Nat.min_l.
  - rewrite Nat.min_r by exact Hge. now rewrite !take_ge by lia.
Qed.

Lemma prefix_append_l (x q s : string) :
  String.prefix (x +:+ q) s = true -> String.prefix x s = true.
Proof.
  revert s. induction x as [|c x IH]; intros s Hs; [now destruct s|].
  rewrite PatternFacts.append_cons_l in Hs. destruct s as [|b s]; [discriminate|].
  cbn [String.prefix] in *. destruct (ascii_dec c b); [auto | discriminate].
Qed.

Lemma includes_here (s needle : string) :
  String.prefix needle s = true -> includes s needle = true.
Proof. intros Hp. destruct s; cbn [includes]; now rewrite Hp. Qed.

Lemma includes_later (c : ascii) (s needle : string) :
  includes s needle = true -> includes (String c s) needle = true.
Proof. intros Hs. cbn [includes]. rewrite Hs. apply orb_true_r. Qed.

Lemma includes_append_l (x q s : string) :
  includes s (x +:+ q) = true -> includes s x = true.
Proof.
  induction s as [|b s IH]; cbn [includes]; intros Hs.
  - apply orb_true_iff in Hs as [Hs|Hs]; [|discriminate].
    rewrite (prefix_append_l _ _ _ Hs). reflexivity.
  - apply orb_true_iff in Hs as [Hs|Hs].
    + now rewrite (prefix_append_l _ _ _ Hs).
    + rewrite (IH Hs). apply orb_true_r.
Qed.

Lemma includes_tail (c : ascii) (needle s : string) :
  includes s (String c needle) = true -> includes s needle = true.
Proof.
  induction s as [|b s IH]; cbn [includes String.prefix]; intros Hs.
  - discriminate.
  - apply orb_true_iff in Hs as [Hs|Hs].
    + destruct (ascii_dec c b); [|discriminate].
      change (includes (String b s) needle = true).
      apply includes_later, includes_here, Hs.
    + change (includes (String b s) needle = true). apply includes_later, IH, Hs.
Qed.

Lemma includes_append_r (p x s : string) :
  includes s (p +:+ x) = true -> includes s x = true.
Proof.
  induction p as [|c p IH]; intros Hs; [exact Hs|].
  rewrite PatternFacts.append_cons_l in Hs. now apply includes_tail, IH in Hs.
Qed.

Lemma namespace_test_redundant (sample : string) :
  includes sample ("xmlns=" +:+ dquote +:+ "http://hl7.org/fhir" +:+ dquote)
  || includes sample "http://hl7.org/fhir"
  = includes sample "http://hl7.org/fhir".
Proof.
  destruct (includes sample "http://hl7.org/fhir") eqn:Hurl; [apply orb_true_r|].
  rewrite orb_false_r.
  destruct (includes sample ("xmlns=" +:+ dquote +:+ "http://hl7.org/fhir" +:+ dquote))
    eqn:Hfull; [|reflexivity].
  apply includes_append_r, includes_append_r, includes_append_l in Hfull. congruence.
Qed.

(** X8. [isResourceFile] never throws and leaves the engine object as it
    is. It reads the file only for the extensions [.json] and [.xml]
    (compared in lower case), and then only the first 2000 characters of
    the content decide: a [.json] file is a resource when they hold
    the quoted word [resourceType], an [.xml] file when they hold
    [http://hl7.org/fhir] (the test for the namespace attribute adds
    nothing to it). A file that cannot be read is not a resource; [.map]
    and [.ttl] files always are; any other extension never is. *)
Theorem isResourceFile_cases (filePath : string) (w : World) :
  exists b w',
    isResourceFile h filePath w = (Normal b, w') /\
    this w' = this w /\
    let ext := toLowerCase (path_extname h filePath) in
    if String.eqb ext ".json" then
      fsTrace w' = fsTrace w ++ [ReadFileSync filePath] /\
      b = match readFileSync h filePath with
          | Normal content =>
              includes (substring0 2000 content) (dquote +:+ "resourceType" +:+ dquote)
          | Throw _ => false
          end
    else if String.eqb ext ".xml" then
      fsTrace w' = fsTrace w ++ [ReadFileSync filePath] /\
      b = match readFileSync h filePath with
          | Normal content => includes (substring0 2000 content) "http://hl7.org/fhir"
          | Throw _ => false
          end
    else
      fsTrace w' = fsTrace w /\ b = (String.eqb ext ".map" || String.eqb ext ".ttl").
Proof.
  unfold isResourceFile, try_catch. cbn zeta.
  destruct (String.eqb _ ".json").
  { unfold bind. rewrite fs_readFileSync_run.
    destruct (readFileSync h filePath) as [content|e]; cbn [ret];
      eexists _, _; (split; [reflexivity|]); repeat split.
    now rewrite substring0_min. }
  destruct (String.eqb _ ".xml").
  { unfold bind. rewrite fs_readFileSync_run.
    destruct (readFileSync h filePath) as [content|e]; cbn [ret];
      eexists _, _; (split; [reflexivity|]); repeat split.
    now rewrite substring0_min, namespace_test_redundant. }
  destruct (_ || _); eexists _, _; repeat split.
Qed.

(** X9. [isTextFile] never throws and leaves the engine object as it is.
    A file with one of the ten text extensions (compared in lower case)
    is text and is not read; any other file is read as bytes and is text
    exactly when none of its first 512 bytes is zero; a file that cannot
    be read is not text. *)
Theorem isTextFile_cases (filePath : string) (w : World) :
  exists b w',
    isTextFile h filePath w = (Normal b, w') /\
    this w' = this w /\
    if array_includes textExtensions (toLowerCase (path_extname h filePath)) then
      b = true /\ fsTrace w' = fsTrace w
    else
      fsTrace w' = fsTrace w ++ [ReadFileBuffer filePath] /\
      b = match readFileBuffer h filePath with
          | Normal buffer => forallb (fun x => negb (x =? 0)%N) (take 512 buffer)
          | Throw _ => false
          end.
Proof.
  unfold isTextFile, try_catch. cbn zeta.
  destruct (array_includes _ _); [eexists _, _; repeat split|].
  unfold bind. rewrite fs_readFileBuffer_run.
  destruct (readFileBuffer h filePath) as [buffer|e]; cbn [ret];
    eexists _, _; (split; [reflexivity|]); repeat split.
  now rewrite take_min_length.
Qed.

End FilterProperties.

Section MatcherProperties.
Import JSString JSRegExp.

Variable h : Host.

Lemma split_lines_not_nil (s : string) : split_lines s <> [].
Proof.
  unfold split_lines. destruct s as [|c s]; cbn [split]; [discriminate|].
  destruct (Ascii.eqb c _); [discriminate|]. now destruct (split _ s).
Qed.

Lemma scanLines_global (pattern : RegExp) (lines : list string) (base : Z) :
  if global pattern
  then exists found, scanLines pattern lines base = Normal found
  else lines = [] \/ exists e, scanLines pattern lines base = Throw e.
Proof.
  destruct (global pattern) eqn:Hg.
  - revert base. induction lines as [|ln lines IH]; intros base; [now eexists|].
    cbn [scanLines]. unfold matchAll. rewrite Hg. cbn [negb cbind].
    destruct (IH (base + 1)) as [more ->]. cbn [cbind]. now eexists.
  - destruct lines as [|ln lines]; [now left|]. right.
    cbn [scanLines]. unfold matchAll. rewrite Hg. cbn [negb cbind]. now eexists.
Qed.

Lemma hasMatch_length (pattern : RegExp) (ln : string) (ms : list (nat * nat)) :
  matchAll ln pattern = Normal ms -> hasMatch pattern ln = (0 <? length ms)%nat.
Proof. intros Hms. unfold hasMatch. rewrite Hms. now destruct ms. Qed.

Lemma scanLines_records (pattern : RegExp) (lines : list string) :
  forall base found,
    scanLines pattern lines base = Normal found ->
    Forall (fun m => base < lineNumber m) found /\
    StronglySorted Z.lt (map lineNumber found) /\
    length found = length (List.filter (hasMatch pattern) lines) /\
    Forall (fun m => exists ln ms,
                lines !! Z.to_nat (lineNumber m - base - 1) = Some ln /\
                line m = trim ln /\
                matchAll ln pattern = Normal ms /\
                ms <> [] /\
                matchCount m = Z.of_nat (length ms)) found.
Proof.
  induction lines as [|ln lines IH]; intros base found Hrun.
  - injection Hrun as <-. repeat split; constructor.
  - cbn [scanLines] in Hrun.
    destruct (matchAll ln pattern) as [ms|e] eqn:Hms; [|discriminate].
    cbn [cbind] in Hrun.
    destruct (scanLines pattern lines (base + 1)) as [more|e] eqn:Hmore; [|discriminate].
    cbn [cbind] in Hrun.
    destruct (IH _ _ Hmore) as (Hlow & Hsorted & Hlen & Hrec).
    assert (Hlow' : Forall (fun m => base < lineNumber m) more).
    { eapply Forall_impl; [exact Hlow|]. cbn beta. intros m Hm. lia. }
    assert (Hrec' : Forall (fun m => exists ln0 ms0,
                           (ln :: lines) !! Z.to_nat (lineNumber m - base - 1) = Some ln0 /\
                           line m = trim ln0 /\
                           matchAll ln0 pattern = Normal ms0 /\
                           ms0 <> [] /\
                           matchCount m = Z.of_nat (length ms0)) more).
    { apply Forall_forall. intros m Hin.
      pose proof (proj1 (Forall_forall _ _) Hlow m Hin) as Hm. cbn beta in Hm.
      destruct (proj1 (Forall_forall _ _) Hrec m Hin) as (ln0 & ms0 & Hidx & Hrest).
      exists ln0, ms0. split; [|exact Hrest].
      replace (Z.to_nat (lineNumber m - base - 1))
        with (S (Z.to_nat (lineNumber m - (base + 1) - 1))) by lia.
      exact Hidx. }
    cbn [List.filter]. rewrite (hasMatch_length _ _ _ Hms).
    destruct (0 <? length ms)%nat eqn:Hpos; injection Hrun as <-.
    + cbn [map length]. repeat split.
      * constructor; [cbn [lineNumber]; lia | exact Hlow'].
      * constructor; [exact Hsorted|].
        apply List.Forall_map. eapply Forall_impl; [exact Hlow|].
        cbn beta. cbn [lineNumber]. intros m Hm. exact Hm.
      * now rewrite Hlen.
      * constructor; [|exact Hrec'].
        exists ln, ms. cbn [lineNumber line matchCount].
        replace (Z.to_nat (base + 1 - base - 1)) with O by lia.
        repeat split; try assumption.
        intros ->. discriminate.
    + repeat split; assumption.
Qed.

Lemma getRelativePath_run (file : string) (w : World) :
  exists rel, getRelativePath h file w = (Normal rel, w).
Proof.
  unfold getRelativePath, bind, get_this.
  destruct (currentIgFolder (this w)); [|now eexists].
  destruct (_ && _); now eexists.
Qed.

(** X10. [searchInFile] never throws and leaves the engine object as it
    is. It returns [null] for a file that cannot be read, for a pattern
    without the global flag, and for a file none of whose lines holds a
    match. Otherwise the record carries the path, its base name and the
    category it was given; it has one entry for each line that holds a
    match and no other, in strictly increasing line order; each entry
    holds the 1-based number of its line, the trimmed text of that line
    and the number of matches on it, and the total of the record is the
    sum of these numbers. *)
Theorem searchInFile_record (file : string) (pattern : RegExp) (cat : string) (w : World) :
  exists o w',
    searchInFile h file pattern cat w = (Normal o, w') /\
    this w' = this w /\
    match readFileSync h file with
    | Throw _ => o = None
    | Normal content =>
        let lines := split_lines content in
        match o with
        | None => global pattern = false \/ List.filter (hasMatch pattern) lines = []
        | Some r =>
            global pattern = true /\
            filePath r = file /\
            fileName r = path_basename h file /\
            category r = cat /\
            fileTotalMatches r = sumMatchCount (matches r) /\
            matches r <> [] /\
            length (matches r) = length (List.filter (hasMatch pattern) lines) /\
            StronglySorted Z.lt (map lineNumber (matches r)) /\
            Forall (recordsLine pattern lines) (matches r)
        end
    end.
Proof.
  unfold searchInFile, try_catch, bind. rewrite fs_readFileSync_run.
  destruct (readFileSync h file) as [content|e]; [|eexists _, _; repeat split].
  unfold lift. cbn zeta.
  pose proof (scanLines_global pattern (split_lines content) 0) as Hglobal.
  destruct (scanLines pattern (split_lines content) 0) as [found|e] eqn:Hscan.
  - destruct (scanLines_records _ _ _ _ Hscan) as (Hlow & Hsorted & Hlen & Hrec).
    destruct (0 <? length found)%nat eqn:Hpos.
    + destruct (getRelativePath_run file
                  {| this := this w; fsTrace := fsTrace w ++ [ReadFileSync file] |})
        as (rel & ->).
      eexists _, _. split; [reflexivity|]. split; [reflexivity|].
      cbn [filePath fileName category fileTotalMatches matches].
      repeat split; try assumption.
      * destruct (global pattern); [reflexivity|].
        destruct Hglobal as [Hnil | (e & He)]; [|congruence].
        now apply split_lines_not_nil in Hnil.
      * intros ->. discriminate.
      * apply Forall_forall. intros m Hin.
        pose proof (proj1 (Forall_forall _ _) Hlow m Hin) as Hm. cbn beta in Hm.
        destruct (proj1 (Forall_forall _ _) Hrec m Hin) as (ln & ms & Hidx & Hrest).
        exists ln, ms. split; [lia|].
        replace (lineNumber m - 1) with (lineNumber m - 0 - 1) by lia. auto.
    + eexists _, _. split; [reflexivity|]. split; [reflexivity|]. right.
      destruct found; [|discriminate]. cbn [length] in Hlen.
      now destruct (List.filter _ _).
  - eexists _, _. split; [reflexivity|]. split; [reflexivity|]. left.
    destruct (global pattern); [|reflexivity].
    destruct Hglobal as [found Hfound]. congruence.
Qed.

End MatcherProperties.

Section SearchTheorems.
Import JSString JSRegExp.

Lemma searchCategories_disabled (h : Host) (igFolder : string) (pattern : RegExp) :
  forall entries results total w,
    Forall (fun e => snd e = false) entries ->
    searchCategories h igFolder pattern entries results total w
    = (Normal (results, total), w).
Proof.
  induction entries as [|[cat enabled] entries IH]; intros results total w Hoff;
    [reflexivity|].
  apply Forall_cons in Hoff as [Hcat Hoff]. cbn [snd] in Hcat. subst enabled.
  cbn [searchCategories negb]. now apply IH.
Qed.

(** X11. [searchCategory] returns at most as many files as its budget
    (none for a budget of zero or less), every one of them well formed
    and carrying the category name it was asked for; it throws only when
    the call stack has no room for the file walk. For a name that is
    none of the six categories it returns the empty list without any
    file-system call. *)
Theorem searchCategory_bounded (h : Host) (igFolder cat : string) (pattern : RegExp)
    (budget : Z) (w : World) :
  match fst (searchCategory h igFolder cat pattern budget w) with
  | Normal rs =>
      Z.of_nat (length rs) <= Z.max 0 budget /\
      Forall (fun r => category r = cat) rs /\
      Forall wellFormed rs
  | Throw _ => stackDepth h = O
  end /\
  (if isCategory cat then True
   else searchCategory h igFolder cat pattern budget w = (Normal [], w)).
Proof.
  split.
  - pose proof (hoare_searchCategory_bounded h (this w) igFolder cat pattern budget w eq_refl)
      as Hpost.
    destruct (searchCategory h igFolder cat pattern budget w) as [[rs|e] w'] eqn:Hrun;
      cbn [fst].
    + destruct Hpost as ((Hrs & Hlen & _) & _). split; [exact Hlen|].
      split; (eapply Forall_impl; [exact Hrs|]); now intros r [? ?].
    + destruct (stackDepth h) as [|depth] eqn:Hdepth; [reflexivity|].
      assert (Hroom : stackDepth h <> O) by (rewrite Hdepth; discriminate).
      destruct (safe_searchCategory h igFolder cat pattern budget Hroom w) as (rs & w1 & Hok).
      congruence.
  - destruct (isCategory cat) eqn:Hcat; [exact I|].
    now apply searchCategory_unknown.
Qed.

(** X12. When no category is enabled (no entry, or every flag false), a
    search of a non-blank term returns an empty list with [totalMatches]
    0 and a [null] error, [truncated] being the comparison of 0 with
    the budget, and makes no file-system call. *)
Theorem performSearch_nothing_enabled (h : Host) (igFolder searchTerm : string)
    (options : Options) (w : World) :
  sort_permutes h ->
  is_blank searchTerm = false ->
  Forall (fun e => snd e = false) (default [] (optCategories options)) ->
  performSearch h igFolder searchTerm options w =
  (Normal {| results := []; totalMatches := 0; error := None;
             truncated := Some (0 >? maxResults (this w)) |}, w).
Proof.
  intros Hsort Hblank Hoff. unfold performSearch. fold (is_blank searchTerm).
  rewrite Hblank. unfold try_catch, performSearch_try, bind, lift.
  destruct (createSearchPattern_normal searchTerm
              (default false (optCaseSensitive options))
              (default false (optWholeWords options))) as [re ->].
  rewrite (searchCategories_disabled h igFolder re _ [] 0 w Hoff).
  cbn [get_this ret].
  assert (Hnil : fst (array_sort h _ _ (compareResults h) [] re) = []).
  { apply Permutation_nil, Permutation_sym, Hsort. }
  rewrite Hnil. destruct (slice0_prefix (@nil FileMatchResult) (maxResults (this w))) as [k ->].
  now rewrite take_nil.
Qed.

Lemma performSearch_nothing_enabled_witness :
  performSearch (Fixtures.patientHost 8) "/ig" "patient"
    (Fixtures.searchOptions [("fsh", false); ("inputPages", false)]) Fixtures.world0 =
  (Normal {| results := []; totalMatches := 0; error := None; truncated := Some false |},
   Fixtures.world0).
Proof.
  apply (performSearch_nothing_enabled (Fixtures.patientHost 8) "/ig" "patient"
           (Fixtures.searchOptions [("fsh", false); ("inputPages", false)])
           Fixtures.world0).
  - apply example_host_sort_permutes.
  - reflexivity.
  - repeat constructor.
Defined.

(** X13. Every file that [performSearch] returns comes from a category
    whose flag is set in the [categories] option, and that category is
    one of the six of the data model: a disabled category, and a key
    that names no category, contribute nothing. *)
Theorem performSearch_only_enabled (h : Host) (igFolder searchTerm : string)
    (options : Options) (w w' : World) (r : SearchResult) :
  sort_permutes h ->
  performSearch h igFolder searchTerm options w = (Normal r, w') ->
  Forall (fun f => In (category f, true) (default [] (optCategories options)) /\
                   isCategory (category f) = true)
         (results r).
Proof.
  intros Hsort Hrun.
  destruct (performSearch_outcomes h igFolder searchTerm options w w' r Hrun)
    as [-> | [[e ->] | Hout]]; try constructor.
  destruct Hout as (_ & _ & collected & pattern & _ & Hcats & _ & _ & ->).
  destruct (slice0_prefix (fst (array_sort h _ _ (compareResults h) collected pattern))
              (maxResults (this w))) as [k ->].
  apply Forall_take. now rewrite (Hsort _ _ (compareResults h) collected pattern).
Qed.

Lemma performSearch_only_enabled_witness :
  exists r w',
    performSearch (Fixtures.patientHost 8) "/ig" "patient"
      (Fixtures.searchOptions [("fsh", false); ("inputPages", true); ("pages", true)])
      Fixtures.world0 = (Normal r, w') /\
    length (results r) = 2%nat /\
    Forall (fun f => category f = "inputPages") (results r).
Proof.
  eexists _, _. split; [vm_compute; reflexivity|].
  split; [reflexivity|].
  eapply Forall_impl.
  - eapply (performSearch_only_enabled (Fixtures.patientHost 8) "/ig" "patient"
              (Fixtures.searchOptions [("fsh", false); ("inputPages", true); ("pages", true)])
              Fixtures.world0).
    + apply example_host_sort_permutes.
    + vm_compute. reflexivity.
  - cbn beta. intros f [Hin Hcat].
    cbn [default Fixtures.searchOptions optCategories In] in Hin.
    destruct Hin as [Hin | [Hin | [Hin | []]]]; try (injection Hin as <-; reflexivity).
    + discriminate.
    + injection Hin as Hin. rewrite <- Hin in Hcat. discriminate.
Defined.

(** X14. With a budget that is not negative, the scan of [performSearch]
    never collects more files than the budget, so the final [slice]
    drops nothing: the returned list holds every file that was found,
    at most as many files as the budget, each of them well formed, and
    [totalMatches] is exactly the number of [LineMatch] entries of the
    returned files, which is at least the number of files. *)
Theorem performSearch_returns_all_collected (h : Host) (igFolder searchTerm : string)
    (options : Options) (w w' : World) (r : SearchResult) :
  sort_permutes h ->
  0 <= maxResults (this w) ->
  performSearch h igFolder searchTerm options w = (Normal r, w') ->
  totalMatches r = sumMatchLines (results r) /\
  Z.of_nat (length (results r)) <= totalMatches r /\
  Z.of_nat (length (results r)) <= maxResults (this w) /\
  Forall wellFormed (results r).
Proof.
  intros Hsort Hmax Hrun.
  destruct (performSearch_outcomes h igFolder searchTerm options w w' r Hrun)
    as [-> | [[e ->] | Hout]];
    [cbn [results totalMatches emptyResult errorResult length];
     repeat split; try constructor; try exact Hmax; reflexivity ..|].
  destruct Hout as (_ & _ & collected & pattern & Hwf & _ & Hlen & Htot & Hres).
  set (sorted := fst (array_sort h _ _ (compareResults h) collected pattern)) in *.
  assert (Hperm : Permutation sorted collected) by apply Hsort.
  specialize (Hlen Hmax).
  assert (Hall : results r = sorted).
  { rewrite Hres, slice0_take by exact Hmax. apply take_ge.
    rewrite (Permutation_length Hperm). lia. }
  assert (Hwf' : Forall wellFormed (results r)) by now rewrite Hall, Hperm.
  rewrite Hall in *. rewrite Htot, <- (sumMatchLines_perm _ _ Hperm).
  repeat split.
  - now apply wellFormed_length.
  - rewrite (Permutation_length Hperm). exact Hlen.
  - exact Hwf'.
Qed.

Lemma performSearch_returns_all_collected_witness :
  exists r w',
    performSearch Fixtures.longPageHost "/ig" "x" Fixtures.pagesOnly Fixtures.world0
    = (Normal r, w') /\
    totalMatches r = 201 /\
    totalMatches r = sumMatchLines (results r) /\
    Z.of_nat (length (results r)) <= totalMatches r.
Proof.
  eexists _, _. split; [vm_compute; reflexivity|].
  split; [reflexivity|].
  edestruct (performSearch_returns_all_collected Fixtures.longPageHost "/ig" "x"
               Fixtures.pagesOnly Fixtures.world0) as (Htot & Hlen & _).
  - apply example_host_sort_permutes.
  - vm_compute. discriminate.
  - vm_compute. reflexivity.
  - split; [exact Htot | exact Hlen].
Defined.

End SearchTheorems.

Section PatternProperties.
Import JSString JSRegExp Literal.

Lemma createSearchPattern_run (searchTerm : string) (cs ww : bool) :
  createSearchPattern searchTerm cs ww =
  Normal {| source := (if ww then "\b" +:+ replace_escape searchTerm +:+ "\b"
                       else replace_escape searchTerm);
            atoms := boundary_atoms ww ++ map Lit (chars searchTerm) ++ boundary_atoms ww;
            global := true;
            ignoreCase := negb cs;
            lastIndex := O |}.
Proof.
  unfold createSearchPattern, new_RegExp.
  replace (parse_flags (if cs then "g" else "gi") false false)
    with (Normal (true, negb cs) : Completion (bool * bool))
    by (destruct cs; reflexivity).
  cbn [cbind]. rewrite PatternFacts.parse_atoms_source. reflexivity.
Qed.

Lemma scan_matches_found (ic : bool) (ats : list Atom) (rest : list ascii) :
  forall prev idx,
    match scan_matches ic ats prev rest idx O with [] => false | _ :: _ => true end =
    match search_from ic ats prev rest idx with Some _ => true | None => false end.
Proof.
  induction rest as [|x rest IH]; intros prev idx; cbn [scan_matches search_from].
  - now destruct (match_here ic ats prev []).
  - destruct (match_here ic ats prev (x :: rest)); [reflexivity|]. apply IH.
Qed.

Lemma search_from_occurs (ic ww : bool) (term rest : list ascii) :
  forall prev idx,
    match search_from ic (boundary_atoms ww ++ map Lit term ++ boundary_atoms ww)
            prev rest idx with
    | Some _ => true
    | None => false
    end = occursFrom ic ww term prev rest.
Proof.
  induction rest as [|x rest IH]; intros prev idx; cbn [search_from occursFrom];
    rewrite PatternFacts.match_here_term.
  - destruct (occurs_here ic ww term prev []); reflexivity.
  - destruct (occurs_here ic ww term prev (x :: rest)); [reflexivity|]. apply IH.
Qed.

(** X15. For every term and flags, the pattern that
    [createSearchPattern] builds finds a match in a string exactly when
    the term occurs in it literally (up to case without
    [caseSensitive], between word boundaries with [wholeWords]): this
    is what [matchAll] reports for a line, and what [test] answers on
    the fresh pattern. *)
Theorem createSearchPattern_finds_occurrences (searchTerm : string) (cs ww : bool)
    (s : string) :
  match createSearchPattern searchTerm cs ww with
  | Normal re =>
      hasMatch re s = occursIn (negb cs) ww searchTerm s /\
      fst (test re s) = occursIn (negb cs) ww searchTerm s
  | Throw _ => False
  end.
Proof.
  rewrite createSearchPattern_run. unfold hasMatch, matchAll, test, occursIn.
  cbn [global ignoreCase atoms lastIndex negb prev_at].
  replace (length (chars s) <? 0)%nat with false by (symmetry; apply Nat.ltb_ge; lia).
  rewrite drop_0. split.
  - rewrite <- (search_from_occurs (negb cs) ww (chars searchTerm) (chars s) None O).
    apply scan_matches_found.
  - rewrite <- (search_from_occurs (negb cs) ww (chars searchTerm) (chars s) None O).
    now destruct (search_from _ _ _ _ _) as [[idx len]|].
Qed.

(** X17. On a fresh pattern the comparator of the sort is reliable as
    long as the base name of its first argument does not hold the term:
    it then answers 1 when the base name of the second argument holds
    the term, and otherwise the difference of the numbers of matching
    lines (second minus first), leaving the pattern as it was. *)
Theorem compareResults_first_name_without_term (h : Host) (searchTerm : string)
    (cs ww : bool) (a b : FileMatchResult) :
  match createSearchPattern searchTerm cs ww with
  | Normal re =>
      if occursIn (negb cs) ww searchTerm (path_basename h (filePath a)) then True
      else if occursIn (negb cs) ww searchTerm (path_basename h (filePath b))
           then fst (compareResults h a b re) = 1
           else compareResults h a b re =
                (Z.of_nat (length (matches b)) - Z.of_nat (length (matches a)), re)
  | Throw _ => False
  end.
Proof.
  rewrite createSearchPattern_run.
  set (re := {| source := _; atoms := _; global := true; ignoreCase := negb cs;
                lastIndex := O |}).
  assert (Htest : forall s,
             test re s = (false, re) /\ occursIn (negb cs) ww searchTerm s = false
             \/ fst (test re s) = true /\ occursIn (negb cs) ww searchTerm s = true).
  { intros s. unfold test, occursIn. subst re.
    cbn [global ignoreCase atoms lastIndex prev_at source].
    replace (length (chars s) <? 0)%nat with false by (symmetry; apply Nat.ltb_ge; lia).
    rewrite drop_0.
    rewrite <- (search_from_occurs (negb cs) ww (chars searchTerm) (chars s) None O).
    destruct (search_from _ _ _ _ _) as [[idx len]|]; [right | left]; now split. }
  destruct (Htest (path_basename h (filePath a))) as [[Ha ->] | [_ ->]]; [|exact I].
  unfold compareResults. rewrite Ha.
  destruct (Htest (path_basename h (filePath b))) as [[Hb ->] | [Hb ->]].
  - rewrite Hb. reflexivity.
  - destruct (test re (path_basename h (filePath b))) as [bm re']. cbn [fst] in Hb.
    subst bm. reflexivity.
Qed.

End PatternProperties.

Section CaseProperties.
Import JSString JSRegExp Literal.

Lemma canonicalize_lower (c : ascii) : canonicalize (lower_char c) = canonicalize c.
Proof. destruct c as [[] [] [] [] [] [] [] []]; reflexivity. Qed.

Lemma is_word_char_lower (c : ascii) : is_word_char (lower_char c) = is_word_char c.
Proof. destruct c as [[] [] [] [] [] [] [] []]; reflexivity. Qed.

Lemma chars_toLowerCase (s : string) : chars (toLowerCase s) = map lower_char (chars s).
Proof.
  induction s as [|c s IH]; [reflexivity|].
  cbn [toLowerCase]. unfold chars in *. cbn [list_ascii_of_string map]. now rewrite IH.
Qed.

Lemma is_word_lower (c : option ascii) : is_word (lower_char <$> c) = is_word c.
Proof. destruct c; [apply is_word_char_lower | reflexivity]. Qed.

Lemma match_here_lower_subject (ats : list Atom) :
  forall prev rest,
    match_here true ats (lower_char <$> prev) (map lower_char rest) =
    match_here true ats prev rest.
Proof.
  induction ats as [|[c| |c|c] ats IH]; intros prev rest; cbn [match_here]; try reflexivity.
  - destruct rest as [|x rest]; [reflexivity|]. cbn [map].
    unfold char_matches. rewrite canonicalize_lower.
    destruct (Ascii.eqb _ _); [|reflexivity].
    now rewrite <- (IH (Some x) rest).
  - rewrite is_word_lower.
    replace (head (map lower_char rest)) with (lower_char <$> head rest)
      by (now destruct rest).
    rewrite is_word_lower. destruct (xorb _ _); [apply IH | reflexivity].
Qed.

Lemma scan_matches_lower_subject (ats : list Atom) (rest : list ascii) :
  forall prev idx skip,
    scan_matches true ats (lower_char <$> prev) (map lower_char rest) idx skip =
    scan_matches true ats prev rest idx skip.
Proof.
  induction rest as [|x rest IH]; intros prev idx skip.
  - destruct skip; [|reflexivity]. cbn [scan_matches map].
    now rewrite <- (match_here_lower_subject ats prev []).
  - destruct skip as [|k]; cbn [scan_matches map].
    + rewrite <- (match_here_lower_subject ats prev (x :: rest)). cbn [map].
      destruct (match_here true ats _ _);
        now rewrite <- (IH (Some x)).
    + now rewrite <- (IH (Some x)).
Qed.

Lemma scan_matches_ext (ic : bool) (ats1 ats2 : list Atom) :
  (forall prev rest, match_here ic ats1 prev rest = match_here ic ats2 prev rest) ->
  forall rest prev idx skip,
    scan_matches ic ats1 prev rest idx skip = scan_matches ic ats2 prev rest idx skip.
Proof.
  intros Hext. induction rest as [|x rest IH]; intros prev idx skip.
  - destruct skip; [|reflexivity]. cbn [scan_matches]. now rewrite Hext.
  - destruct skip as [|k]; cbn [scan_matches]; [|apply IH].
    rewrite Hext. destruct (match_here ic ats2 prev (x :: rest)); now rewrite IH.
Qed.

Lemma prefix_of_lower_term (term : list ascii) :
  forall rest, prefix_of true (map lower_char term) rest = prefix_of true term rest.
Proof.
  induction term as [|c term IH]; intros rest; [reflexivity|].
  destruct rest as [|x rest]; [reflexivity|]. cbn [map prefix_of].
  unfold char_matches. now rewrite canonicalize_lower, IH.
Qed.

(** X16. For a term and a line whose code units are all below 256
    (Latin-1, the characters of a [string] here), and without
    [caseSensitive], the case of the letters does not matter on either
    side: the pattern built for the term and the pattern built for its
    lower-case form report the same matches in the line, and the line
    and its lower-case form hold the same matches. Nothing is said of
    text outside Latin-1, where lower-casing and the case folding of a
    pattern without the unicode flag part ways (the Kelvin sign, the
    dotted capital I). *)
Theorem case_insensitive_matches (searchTerm : string) (ww : bool) (s : string) :
  match createSearchPattern searchTerm false ww,
        createSearchPattern (toLowerCase searchTerm) false ww with
  | Normal re, Normal re' =>
      matchAll s re' = matchAll s re /\
      matchAll (toLowerCase s) re = matchAll s re
  | _, _ => False
  end.
Proof.
  rewrite !createSearchPattern_run. unfold matchAll.
  cbn [global ignoreCase atoms lastIndex negb prev_at].
  rewrite !drop_0, (chars_toLowerCase s), length_map.
  replace (length (chars s) <? 0)%nat with false by (symmetry; apply Nat.ltb_ge; lia).
  split; f_equal.
  - rewrite chars_toLowerCase. apply scan_matches_ext.
    intros prev rest. rewrite !PatternFacts.match_here_term.
    unfold occurs_here. now rewrite prefix_of_lower_term, length_map.
  - apply (scan_matches_lower_subject _ (chars s) None).
Qed.

End CaseProperties.

Section MatchListProperties.
Import JSString JSRegExp Literal.

Lemma drop_cons_inv {X} (s : list X) (i : nat) (x : X) (r : list X) :
  drop i s = x :: r -> s !! i = Some x /\ drop (S i) s = r.
Proof.
  intros Hdrop.
  assert (Hx : s !! i = Some x).
  { pose proof (lookup_drop s i O) as Hl. rewrite Hdrop, Nat.add_0_r in Hl.
    now rewrite <- Hl. }
  split; [exact Hx|]. rewrite (drop_S _ _ _ Hx) in Hdrop. congruence.
Qed.

Lemma scan_matches_sound (ic : bool) (ats : list Atom) (s : list ascii) :
  forall rest idx prev skip,
    rest = drop idx s ->
    prev = prev_at s idx ->
    Forall (fun m => (idx + skip <= fst m)%nat /\
                     match_here ic ats (prev_at s (fst m)) (drop (fst m) s) = Some (snd m))
           (scan_matches ic ats prev rest idx skip) /\
    StronglySorted (fun a b => (fst a + snd a <= fst b)%nat /\ (fst a < fst b)%nat)
                   (scan_matches ic ats prev rest idx skip).
Proof.
  induction rest as [|x rest IH]; intros idx prev skip Hrest Hprev.
  - destruct skip; cbn [scan_matches]; [|split; constructor].
    destruct (match_here ic ats prev []) as [len|] eqn:Hm; [|split; constructor].
    split; [|repeat constructor].
    constructor; [|constructor]. cbn [fst snd].
    split; [lia|]. now rewrite <- Hrest, <- Hprev.
  - symmetry in Hrest. destruct (drop_cons_inv _ _ _ _ Hrest) as [Hx Hnext].
    assert (Hprev' : Some x = prev_at s (S idx)) by (now cbn [prev_at]).
    destruct skip as [|k]; cbn [scan_matches].
    + destruct (match_here ic ats prev (x :: rest)) as [len|] eqn:Hm.
      * destruct (IH (S idx) (Some x) (Nat.pred len) (eq_sym Hnext) Hprev') as [Hall Hsorted].
        split; constructor.
        -- cbn [fst snd]. split; [lia|]. now rewrite Hrest, <- Hprev.
        -- eapply Forall_impl; [exact Hall|]. cbn beta. intros m [Hge Hmatch].
           split; [lia | exact Hmatch].
        -- exact Hsorted.
        -- eapply Forall_impl; [exact Hall|]. cbn beta. cbn [fst snd].
           intros m [Hge _]. lia.
      * destruct (IH (S idx) (Some x) O (eq_sym Hnext) Hprev') as [Hall Hsorted].
        split; [|exact Hsorted].
        eapply Forall_impl; [exact Hall|]. cbn beta. intros m [Hge Hmatch].
        split; [lia | exact Hmatch].
    + destruct (IH (S idx) (Some x) k (eq_sym Hnext) Hprev') as [Hall Hsorted].
      split; [|exact Hsorted].
      eapply Forall_impl; [exact Hall|]. cbn beta. intros m [Hge Hmatch].
      split; [lia | exact Hmatch].
Qed.

(** X18. For every term and flags, [matchAll] with the pattern of
    [createSearchPattern] never throws, and every match it reports has
    the length of the term and sits at a literal occurrence of the term
    (up to case without [caseSensitive], between word boundaries with
    [wholeWords]); the matches are reported from left to right and do
    not overlap. *)
Theorem matchAll_reports_occurrences (searchTerm : string) (cs ww : bool) (s : string) :
  match createSearchPattern searchTerm cs ww with
  | Normal re =>
      exists ms,
        matchAll s re = Normal ms /\
        Forall (fun m =>
                  snd m = length (chars searchTerm) /\
                  occurs_here (negb cs) ww (chars searchTerm)
                    (prev_at (chars s) (fst m)) (drop (fst m) (chars s)) = true) ms /\
        StronglySorted (fun a b => (fst a + snd a <= fst b)%nat /\ (fst a < fst b)%nat) ms
  | Throw _ => False
  end.
Proof.
  rewrite createSearchPattern_run. unfold matchAll.
  cbn [global ignoreCase atoms lastIndex negb].
  replace (length (chars s) <? 0)%nat with false by (symmetry; apply Nat.ltb_ge; lia).
  eexists. split; [reflexivity|].
  destruct (scan_matches_sound (negb cs)
              (boundary_atoms ww ++ map Lit (chars searchTerm) ++ boundary_atoms ww)
              (chars s) (drop 0 (chars s)) O (prev_at (chars s) 0) O eq_refl eq_refl)
    as [Hall Hsorted].
  split; [|exact Hsorted].
  eapply Forall_impl; [exact Hall|]. cbn beta. intros m [_ Hmatch].
  rewrite PatternFacts.match_here_term in Hmatch.
  destruct (occurs_here _ _ _ _ _); [|discriminate].
  injection Hmatch as <-. now split.
Qed.

End MatchListProperties.

Section ScanProperties.
Import JSString JSRegExp.

Variable h : Host.
Variable t : IGSearch.

Lemma hoare_getRelativePath_value (file : string) :
  hoare t (getRelativePath h file) (fun rel => rel = displayPath h t file).
Proof.
  unfold getRelativePath, displayPath. eapply hoare_bind; [apply hoare_get_this|].
  intros x ->. destruct (currentIgFolder t); [destruct (_ && _)|]; now apply hoare_ret.
Qed.

Lemma hoare_fs_readFileSync_value (file : string) :
  hoare t (fs_readFileSync h file) (fun content => readFileSync h file = Normal content).
Proof.
  intros w Hw. rewrite fs_readFileSync_run. now destruct (readFileSync h file).
Qed.

Lemma hoare_searchInFile_record (file : string) (pattern : RegExp) (cat : string) :
  hoare t (searchInFile h file pattern cat)
    (from_option (fun r => filePath r = file /\ category r = cat /\
                           fileRecord h t pattern r) True).
Proof.
  unfold searchInFile. apply hoare_try_catch; [|intros; now apply hoare_ret].
  eapply hoare_bind; [apply hoare_fs_readFileSync_value|]. intros content Hcontent.
  eapply hoare_bind.
  { apply hoare_lift
      with (Q := fun found => scanLines pattern (split_lines content) 0 = Normal found).
    auto. }
  intros found Hscan.
  destruct (0 <? length found)%nat; [|now apply hoare_ret].
  eapply hoare_bind; [apply hoare_getRelativePath_value|]. intros rel ->.
  apply hoare_ret. cbn [from_option]. unfold fileRecord.
  cbn [filePath fileName relativePath category matches fileTotalMatches].
  destruct (scanLines_records _ _ _ _ Hscan) as (Hlow & Hsorted & Hlen & Hrec).
  repeat split. exists content. repeat split; try assumption.
  apply Forall_forall. intros m Hin.
  pose proof (proj1 (Forall_forall _ _) Hlow m Hin) as Hm. cbn beta in Hm.
  destruct (proj1 (Forall_forall _ _) Hrec m Hin) as (ln & ms & Hidx & Hrest).
  exists ln, ms. split; [lia|].
  replace (lineNumber m - 1) with (lineNumber m - 0 - 1) by lia. auto.
Qed.

Lemma hoare_isResourceFile_value (file : string) :
  hoare t (isResourceFile h file) (fun b => b = resourceVerdict h file).
Proof.
  intros w Hw. unfold isResourceFile, try_catch, resourceVerdict. cbn zeta.
  destruct (String.eqb _ ".json").
  { unfold bind. rewrite fs_readFileSync_run.
    destruct (readFileSync h file) as [content|e]; cbn [ret]; split; try exact Hw;
      try reflexivity.
    now rewrite substring0_min. }
  destruct (String.eqb _ ".xml").
  { unfold bind. rewrite fs_readFileSync_run.
    destruct (readFileSync h file) as [content|e]; cbn [ret]; split; try exact Hw;
      try reflexivity.
    now rewrite substring0_min, namespace_test_redundant. }
  destruct (_ || _); split; auto.
Qed.

Lemma hoare_isTextFile_value (file : string) :
  hoare t (isTextFile h file) (fun b => b = textVerdict h file).
Proof.
  intros w Hw. unfold isTextFile, try_catch, textVerdict. cbn zeta.
  destruct (array_includes _ _); [split; auto|].
  unfold bind. rewrite fs_readFileBuffer_run.
  destruct (readFileBuffer h file) as [buffer|e]; cbn [ret]; split; try exact Hw;
    try reflexivity.
  now rewrite take_min_length.
Qed.

Lemma hoare_filter_value (cfg : SearchConfig) (file : string) :
  hoare t (match fileFilter cfg with
           | Some f => applyFilter h f file
           | None => ret true
           end)
    (fun keep => keep = accepts h cfg file).
Proof.
  unfold accepts. destruct (fileFilter cfg) as [[| |]|]; cbn [applyFilter].
  - now apply hoare_ret.
  - apply hoare_isResourceFile_value.
  - apply hoare_isTextFile_value.
  - now apply hoare_ret.
Qed.

Lemma hoare_findFilesInPath_listed (depth : nat) (dirPath : string) (exts : list string)
    (rec : bool) :
  hoare t (findFilesInPath h depth dirPath exts rec) (Forall (listedFile h exts rec dirPath)).
Proof.
  intros w Hw.
  pose proof (hoare_findFilesInPath h t depth dirPath exts rec w Hw) as Hthis.
  pose proof (findFilesInPath_listed h dirPath exts rec depth dirPath
                (descends_root h rec dirPath) w) as Hlisted.
  destruct (findFilesInPath h depth dirPath exts rec w) as [[files|e] w']; [|exact Hthis].
  destruct Hthis as [_ Hthis]. now split.
Qed.

Lemma hoare_searchFiles_scope (cfg : SearchConfig) (pattern : RegExp) (cat : string)
    (budget : Z) (Good : FileMatchResult -> Prop) :
  (forall r, category r = cat -> fileRecord h t pattern r ->
             listedFile h (extensions cfg) (recursive cfg) (path cfg) (filePath r) ->
             accepts h cfg (filePath r) = true -> Good r) ->
  forall files results,
    Forall (listedFile h (extensions cfg) (recursive cfg) (path cfg)) files ->
    Forall Good results ->
    hoare t (searchFiles h cfg pattern cat budget files results) (Forall Good).
Proof.
  intros HGood. induction files as [|file files IH]; intros results Hfiles Hres.
  - now apply hoare_ret.
  - apply Forall_cons in Hfiles as [Hfile Hfiles].
    cbn [searchFiles]. destruct (_ >=? _); [now apply hoare_ret|].
    eapply hoare_bind; [apply hoare_filter_value|].
    intros keep ->. destruct (accepts h cfg file) eqn:Hacc; cbn [negb]; [|now apply IH].
    eapply hoare_bind; [apply hoare_searchInFile_record|].
    intros [r|] Hr; [|now apply IH].
    cbn [from_option] in Hr. destruct Hr as (Hpath & Hcat & Hrec).
    apply IH; [exact Hfiles|].
    apply Forall_app. split; [exact Hres|]. constructor; [|constructor].
    apply HGood; try assumption; now rewrite Hpath.
Qed.

Lemma hoare_searchPathsLoop_scope (pattern : RegExp) (cat : string) (budget : Z)
    (Good : FileMatchResult -> Prop) :
  forall searchPaths,
    (forall cfg, In cfg searchPaths ->
       forall r, category r = cat -> fileRecord h t pattern r ->
                 listedFile h (extensions cfg) (recursive cfg) (path cfg) (filePath r) ->
                 accepts h cfg (filePath r) = true -> Good r) ->
    forall results,
      Forall Good results ->
      hoare t (searchPathsLoop h pattern cat budget searchPaths results) (Forall Good).
Proof.
  induction searchPaths as [|cfg searchPaths IH]; intros HGood results Hres.
  - now apply hoare_ret.
  - cbn [searchPathsLoop]. destruct (_ >=? _); [now apply hoare_ret|].
    assert (HGood' : forall cfg0, In cfg0 searchPaths ->
              forall r, category r = cat -> fileRecord h t pattern r ->
                        listedFile h (extensions cfg0) (recursive cfg0) (path cfg0) (filePath r) ->
                        accepts h cfg0 (filePath r) = true -> Good r).
    { intros cfg0 Hin. apply HGood. now right. }
    eapply hoare_bind; [apply hoare_fs_existsSync|].
    intros present _. destruct (negb present); [now apply IH|].
    eapply hoare_bind; [apply hoare_findFilesInPath_listed|]. intros files Hfiles.
    eapply hoare_bind.
    { apply (hoare_searchFiles_scope cfg pattern cat budget Good); try assumption.
      apply HGood. now left. }
    intros results' Hres'. now apply IH.
Qed.

Lemma getCategoryPaths_run (igFolder categoryName : string) (w : World) :
  exists w',
    getCategoryPaths h igFolder categoryName w =
    (Normal (List.filter (fun loc => existsSync h (path loc))
                         (tableLocations h igFolder categoryName)), w') /\
    this w' = this w.
Proof.
  unfold getCategoryPaths, categorySwitch.
  destruct (String.eqb categoryName "fsh") eqn:E1;
    [|destruct (String.eqb categoryName "inputResources") eqn:E2;
      [|destruct (String.eqb categoryName "inputPages") eqn:E3;
        [|destruct (String.eqb categoryName "translations") eqn:E4;
          [|destruct (String.eqb categoryName "outputResources") eqn:E5;
            [|destruct (String.eqb categoryName "outputHtml") eqn:E6]]]]];
    unfold tableLocations, table_4_2; cbn [List.filter fst snd map];
    rewrite ?E1, ?E2, ?E3, ?E4, ?E5, ?E6;
    try (match goal with
         | E : String.eqb categoryName _ = true |- _ =>
             apply String.eqb_eq in E; subst categoryName
         end);
    cbn [List.filter fst snd map String.eqb Ascii.eqb Bool.eqb];
    cbv [bind fs_existsSync record_call ret];
    try (destruct (existsSync h (path_join h [igFolder; "fsh-generated"])) eqn:Egen);
    match goal with
    | |- exists w', filterExisting h ?paths ?w0 = _ /\ _ =>
        destruct (filterExisting_run h paths w0) as (w' & Hw' & Hthis);
        exists w'; rewrite Hw'
    end;
    (split; [cbn [List.filter path]; rewrite ?Egen; reflexivity | exact Hthis]).
Qed.

Lemma hoare_searchCategory_scope (igFolder cat : string) (pattern : RegExp) (budget : Z) :
  hoare t (searchCategory h igFolder cat pattern budget)
    (Forall (fun r => fileRecord h t pattern r /\ inScope h igFolder r)).
Proof.
  unfold searchCategory. intros w Hw. unfold bind.
  destruct (getCategoryPaths_run igFolder cat w) as (w1 & -> & Hw1).
  apply hoare_searchPathsLoop_scope; [|constructor | congruence].
  intros cfg Hin r Hcat Hrec Hlisted Hacc. split; [exact Hrec|].
  apply filter_In in Hin as [Htable Hexists].
  exists cfg. rewrite Hcat. auto.
Qed.

Lemma hoare_searchCategories_scope (igFolder : string) (pattern : RegExp) :
  forall entries results total,
    Forall (fun r => fileRecord h t pattern r /\ inScope h igFolder r) results ->
    hoare t (searchCategories h igFolder pattern entries results total)
      (fun scanned =>
         Forall (fun r => fileRecord h t pattern r /\ inScope h igFolder r) (fst scanned)).
Proof.
  induction entries as [|[cat enabled] entries IH]; intros results total Hres.
  - now apply hoare_ret.
  - cbn [searchCategories]. destruct (negb enabled); [now apply IH|].
    eapply hoare_bind; [apply hoare_get_this|]. intros x ->.
    destruct (_ >=? _); [now apply hoare_ret|].
    eapply hoare_bind; [apply hoare_searchCategory_scope|].
    intros crs Hcrs. apply IH. apply Forall_app. now split.
Qed.

Lemma hoare_performSearch_try_scope (igFolder searchTerm : string) (cs ww : bool)
    (cats : list (string * bool)) :
  hoare t (performSearch_try h igFolder searchTerm cs ww cats)
    (fun r => exists collected pattern,
         createSearchPattern searchTerm cs ww = Normal pattern /\
         Forall (fun f => fileRecord h t pattern f /\ inScope h igFolder f) collected /\
         results r = slice0 (fst (array_sort h _ _ (compareResults h) collected pattern))
                            (maxResults t)).
Proof.
  unfold performSearch_try.
  eapply hoare_bind.
  { apply hoare_lift
      with (Q := fun pattern => createSearchPattern searchTerm cs ww = Normal pattern).
    auto. }
  intros pattern Hpattern.
  eapply hoare_bind; [apply hoare_searchCategories_scope; constructor|].
  intros [collected total] Hcollected. cbn [fst] in Hcollected.
  eapply hoare_bind; [apply hoare_get_this|]. intros x ->.
  apply hoare_ret. exists collected, pattern. cbn [results]. auto.
Qed.

End ScanProperties.

Section ScanTheorems.
Import JSString JSRegExp.

(** Every file returned by [performSearch] is the record of its file
    and lies in the scope of its category. *)
Lemma performSearch_files (h : Host) (igFolder searchTerm : string) (options : Options)
    (w w' : World) (r : SearchResult) :
  sort_permutes h ->
  performSearch h igFolder searchTerm options w = (Normal r, w') ->
  exists pattern,
    createSearchPattern searchTerm (default false (optCaseSensitive options))
      (default false (optWholeWords options)) = Normal pattern /\
    Forall (fun f => fileRecord h (this w) pattern f /\ inScope h igFolder f) (results r).
Proof.
  intros Hsort Hrun.
  destruct (createSearchPattern_normal searchTerm
              (default false (optCaseSensitive options))
              (default false (optWholeWords options))) as [re Hre].
  revert Hrun. unfold performSearch.
  destruct (_ || _).
  { intros [= <- _]. exists re. split; [exact Hre | constructor]. }
  unfold try_catch.
  pose proof (hoare_performSearch_try_scope h (this w) igFolder searchTerm
                (default false (optCaseSensitive options))
                (default false (optWholeWords options))
                (default [] (optCategories options)) w eq_refl) as Htry.
  destruct (performSearch_try h igFolder searchTerm _ _ _ w) as [[r1|e] w1].
  - intros [= <- _]. destruct Htry as ((collected & pattern & Hpat & Hall & Hres) & _).
    exists pattern. split; [exact Hpat|]. rewrite Hres.
    destruct (slice0_prefix (fst (array_sort h _ _ (compareResults h) collected pattern))
                (maxResults (this w))) as [k ->].
    apply Forall_take. now rewrite (Hsort _ _ (compareResults h) collected pattern).
  - intros [= <- _]. exists re. split; [exact Hre | constructor].
Qed.

(** X19. Every file that [performSearch] returns is the record of a file
    that could be read at search time: its name is the base name of its
    path and its display path is what [getRelativePath] gives; it has
    exactly one entry for each line of the content that holds a match of
    the search pattern, in line order, each with the number of the line,
    its trimmed text and its number of matches; its own total is the sum
    of these numbers. *)
Theorem performSearch_records_reflect_files (h : Host) (igFolder searchTerm : string)
    (options : Options) (w w' : World) (r : SearchResult) :
  sort_permutes h ->
  performSearch h igFolder searchTerm options w = (Normal r, w') ->
  exists pattern,
    createSearchPattern searchTerm (default false (optCaseSensitive options))
      (default false (optWholeWords options)) = Normal pattern /\
    Forall (fileRecord h (this w) pattern) (results r).
Proof.
  intros Hsort Hrun.
  destruct (performSearch_files h igFolder searchTerm options w w' r Hsort Hrun)
    as (pattern & Hpat & Hall).
  exists pattern. split; [exact Hpat|].
  eapply Forall_impl; [exact Hall|]. now intros f [Hrec _].
Qed.

Lemma performSearch_records_reflect_files_witness :
  exists r w' pattern,
    performSearch (Fixtures.patientHost 8) "/ig" "patient" Fixtures.pagesOnly Fixtures.world0
    = (Normal r, w') /\
    length (results r) = 2%nat /\
    createSearchPattern "patient" false false = Normal pattern /\
    Forall (fileRecord (Fixtures.patientHost 8) (this Fixtures.world0) pattern) (results r).
Proof.
  eexists _, _.
  edestruct (performSearch_records_reflect_files (Fixtures.patientHost 8) "/ig" "patient"
               Fixtures.pagesOnly Fixtures.world0) as (pattern & Hpat & Hall).
  - apply example_host_sort_permutes.
  - vm_compute. reflexivity.
  - exists pattern. split; [reflexivity|]. split; [reflexivity|].
    split; [exact Hpat | exact Hall].
Defined.

(** On the host [Fixtures.prunedHost] the walk from the page directory
    reaches that directory and its subdirectory [sub], and nothing
    else. *)
Lemma prunedHost_descends (d : string) :
  descends Fixtures.prunedHost true "/ig/input/pagecontent" d ->
  d = "/ig/input/pagecontent" \/ d = "/ig/input/pagecontent/sub".
Proof.
  induction 1 as [|d item items st _ IH _ [_ Hlist] Hin Hstat Hfile Hdir Hskip];
    [now left|].
  destruct IH as [-> | ->]; vm_compute in Hlist; injection Hlist as <-;
    repeat (destruct Hin as [<- | Hin]); try contradiction;
    vm_compute in Hstat; injection Hstat as <-;
    try discriminate Hdir; try discriminate Hskip.
  now right.
Qed.

(** The file inside the repository directory [.git] is not listed,
    although it is a regular file below the page directory. *)
Lemma prunedHost_repository_file :
  ~ listedFile Fixtures.prunedHost [] true "/ig/input/pagecontent"
      "/ig/input/pagecontent/.git/x.md".
Proof.
  intros (d & items & item & st & Hd & [_ Hlist] & Hin & Hf & _).
  apply prunedHost_descends in Hd as [-> | ->]; vm_compute in Hlist;
    injection Hlist as <-;
    repeat (destruct Hin as [<- | Hin]); try contradiction;
    vm_compute in Hf; discriminate Hf.
Qed.

(** X20. Every file that [performSearch] returns lies in the scope of
    its category: a location that the table of section 4.2 gives for
    that category exists, and the walk from it lists the file, that is,
    the file is the join of a directory and of a name that
    [readdirSync] lists in it, the directory being the location or
    (with the recursive flag of the table) one reached from it by
    entering only listed entries that are directories and that
    [shouldSkipDirectory] does not prune; the file is a regular file
    with an extension the location allows, and the content filter of
    the location accepts it. *)
Theorem performSearch_results_in_scope (h : Host) (igFolder searchTerm : string)
    (options : Options) (w w' : World) (r : SearchResult) :
  sort_permutes h ->
  performSearch h igFolder searchTerm options w = (Normal r, w') ->
  Forall (inScope h igFolder) (results r).
Proof.
  intros Hsort Hrun.
  destruct (performSearch_files h igFolder searchTerm options w w' r Hsort Hrun)
    as (pattern & _ & Hall).
  eapply Forall_impl; [exact Hall|]. now intros f [_ Hscope].
Qed.

Lemma performSearch_results_in_scope_witness :
  exists r w',
    performSearch Fixtures.prunedHost "/ig" "patient" Fixtures.pagesOnly Fixtures.world0
    = (Normal r, w') /\
    map filePath (results r) =
      ["/ig/input/pagecontent/ok.md"; "/ig/input/pagecontent/sub/deep.md"] /\
    Forall (inScope Fixtures.prunedHost "/ig") (results r).
Proof.
  eexists _, _. split; [vm_compute; reflexivity|]. split; [reflexivity|].
  eapply (performSearch_results_in_scope Fixtures.prunedHost "/ig" "patient"
            Fixtures.pagesOnly Fixtures.world0).
  - apply example_host_sort_permutes.
  - vm_compute. reflexivity.
Defined.

End ScanTheorems.

Section CompositionProperties.
Import JSString JSRegExp.

Lemma tableLocations_unknown (h : Host) (igFolder cat : string) :
  isCategory cat = false -> tableLocations h igFolder cat = [].
Proof.
  unfold isCategory, array_includes, categoryNames. cbn [existsb]. intros Hcat.
  repeat (apply orb_false_elim in Hcat as [? Hcat]).
  unfold tableLocations, table_4_2. cbn [List.filter fst].
  repeat match goal with
         | E : String.eqb cat _ = false |- _ => rewrite E; clear E
         end.
  reflexivity.
Qed.

Lemma inScope_category (h : Host) (igFolder : string) (f : FileMatchResult) :
  inScope h igFolder f -> isCategory (category f) = true.
Proof.
  intros (loc & Hin & _). destruct (isCategory (category f)) eqn:Hcat; [reflexivity|].
  now rewrite (tableLocations_unknown h igFolder _ Hcat) in Hin.
Qed.

(** X21. When the list returned by [performSearch] is saved as the
    results of a project and the build then starts
    ([clearOutputResults]), the stored list is the returned one without
    exactly the files of the categories [outputResources] and
    [outputHtml], in the same order, and the other fields of the saved
    state are kept. *)
Theorem clearOutputResults_after_search (h : Host) (igFolder term : string)
    (options : Options) (w w1 : World) (r : SearchResult) (state : SearchState) :
  sort_permutes h ->
  performSearch h igFolder term options w = (Normal r, w1) ->
  exists w3,
    (saveSearchState igFolder (set_results state (results r)) ;;;
     clearOutputResults igFolder) w1 = (Normal tt, w3) /\
    stateResults (storedState (this w3) igFolder) =
      List.filter (fun f => negb (isOutputCategory (category f))) (results r) /\
    searchTerm (storedState (this w3) igFolder) = searchTerm state /\
    caseSensitive (storedState (this w3) igFolder) = caseSensitive state /\
    wholeWords (storedState (this w3) igFolder) = wholeWords state /\
    categories (storedState (this w3) igFolder) = categories state.
Proof.
  intros Hsort Hrun.
  assert (Hcats : Forall (fun f => isCategory (category f) = true) (results r)).
  { destruct (performSearch_files h igFolder term options w w1 r Hsort Hrun)
      as (pattern & _ & Hall).
    eapply Forall_impl; [exact Hall|]. cbn beta. intros f [_ Hscope].
    exact (inScope_category h igFolder f Hscope). }
  unfold bind at 1.
  destruct (saveSearchState igFolder (set_results state (results r)) w1)
    as [c w2] eqn:Hsave.
  unfold saveSearchState, bind, get_this, set_this in Hsave. injection Hsave as <- <-.
  match goal with
  | |- context [clearOutputResults igFolder ?w2] =>
      destruct (clearOutputResults_run igFolder w2) as (w3 & Hclear & Hlookup & _)
  end.
  exists w3. split; [exact Hclear|].
  unfold storedState at 1 2 3 4 5. rewrite Hlookup. cbn [default].
  unfold storedState. cbn [this set_searchStates searchStates].
  rewrite lookup_insert_eq. cbn [default].
  cbn [set_results stateResults searchTerm caseSensitive wholeWords categories].
  split; [now apply filter_output_categories | auto].
Qed.

Lemma clearOutputResults_after_search_witness :
  exists r w1 w3,
    performSearch Fixtures.builtHost "/ig" "patient" Fixtures.builtOptions Fixtures.world0
    = (Normal r, w1) /\
    map category (results r) = ["outputResources"; "inputPages"; "outputHtml"] /\
    (saveSearchState "/ig" (set_results defaultState (results r)) ;;;
     clearOutputResults "/ig") w1 = (Normal tt, w3) /\
    stateResults (storedState (this w3) "/ig") =
      List.filter (fun f => negb (isOutputCategory (category f))) (results r) /\
    map filePath (stateResults (storedState (this w3) "/ig")) =
      ["/ig/input/pagecontent/patient.md"].
Proof.
  eexists _, _.
  edestruct (clearOutputResults_after_search Fixtures.builtHost "/ig" "patient"
               Fixtures.builtOptions Fixtures.world0) as (w3 & Hrun & Hres & _).
  - apply example_host_sort_permutes.
  - vm_compute. reflexivity.
  - exists w3. split; [vm_compute; reflexivity|]. split; [reflexivity|].
    split; [exact Hrun|]. split; [exact Hres|]. rewrite Hres. reflexivity.
Defined.

End CompositionProperties.
